(** * bbengfort/toolkit: pproc, requires and pwgen

    A shallow embedding of the command functions of [bin/pproc.py]
    (the subprocess multiplexer), of the functions of [bin/requires.py]
    and of the password generator of [bin/pwgen.py], followed by the
    properties proved about them.

    Conventions.  A Python [str] is a Rocq [string]; each character is a
    code point below 256.  A function that may raise returns a [result];
    a function that touches the operating system threads an explicit
    state.  Part I holds the definitions, Parts II and III the theorems. *)

From Stdlib Require Import String Ascii List Bool Arith ZArith Lia DecimalString.
Import ListNotations.
Local Open Scope list_scope.
Local Open Scope string_scope.
Local Open Scope nat_scope.

(* ===================================================================== *)
(** * Part I.  Definitions                                                *)
(* ===================================================================== *)

(** ** Python values shared by the three scripts *)

Module Py.

(** The exceptions the scripts can meet.  All of them derive from
    [Exception], so the [except Exception] of pproc's main block
    catches every one. *)
Inductive exn : Type :=
| ValueError (msg : string)
| NameError (name : string)
| IndexError (msg : string)
| FileNotFoundError (filename : string)
| AttributeError (msg : string)
| TypeError (msg : string)
| RecursionError
| EOFError
| ConsoleError (msg : string)
| UnicodeDecodeError (msg : string)
| OverflowError (msg : string).

Inductive result (A : Type) : Type :=
| Ok (a : A)
| Raise (e : exn).
Arguments Ok {A} a.
Arguments Raise {A} e.

Definition bind {A B} (r : result A) (k : A -> result B) : result B :=
  match r with
  | Ok a => k a
  | Raise e => Raise e
  end.

(** *** Strings *)

Definition chr (n : nat) : ascii := ascii_of_nat n.
Definition ord (c : ascii) : nat := nat_of_ascii c.

Definition str1 (c : ascii) : string := String c EmptyString.

(** [c in s] for a one-character [c]. *)
Fixpoint char_in (c : ascii) (s : string) : bool :=
  match s with
  | EmptyString => false
  | String d s' => Ascii.eqb c d || char_in c s'
  end.

(** [s.startswith(p)] *)
Fixpoint startswith (s p : string) : bool :=
  match p with
  | EmptyString => true
  | String c p' =>
      match s with
      | EmptyString => false
      | String d s' => Ascii.eqb c d && startswith s' p'
      end
  end.

(** [s[n:]] *)
Fixpoint drop (n : nat) (s : string) : string :=
  match n, s with
  | O, _ => s
  | S _, EmptyString => EmptyString
  | S n', String _ s' => drop n' s'
  end.

(** [sub in s] *)
Fixpoint contains (s sub : string) : bool :=
  startswith s sub ||
  match s with
  | EmptyString => false
  | String _ s' => contains s' sub
  end.

(** [s.split(sep, 1)[0]]: the text before the first occurrence of a
    non-empty [sep], the whole of [s] when there is none. *)
Fixpoint before_first (s sep : string) : string :=
  if startswith s sep then EmptyString
  else match s with
       | EmptyString => EmptyString
       | String c s' => String c (before_first s' sep)
       end.

(** The characters [str.strip()] removes. *)
Definition isspace (c : ascii) : bool :=
  let n := ord c in
  (n =? 32) || ((9 <=? n) && (n <=? 13)).

Fixpoint lstrip_chars (p : ascii -> bool) (s : string) : string :=
  match s with
  | EmptyString => EmptyString
  | String c s' => if p c then lstrip_chars p s' else s
  end.

Fixpoint rstrip_chars (p : ascii -> bool) (s : string) : string :=
  match s with
  | EmptyString => EmptyString
  | String c s' =>
      match rstrip_chars p s' with
      | EmptyString => if p c then EmptyString else str1 c
      | r => String c r
      end
  end.

Definition strip (s : string) : string :=
  rstrip_chars isspace (lstrip_chars isspace s).

(** [s.lstrip(chars)] *)
Definition lstrip_set (chars s : string) : string :=
  lstrip_chars (fun c => char_in c chars) s.

(** *** [repr] of a [str] and of a list of [str] (Python 3) *)

Definition hexdigit (n : nat) : ascii :=
  if n <? 10 then chr (48 + n) else chr (87 + n).

(** [str.isprintable] on the code points below 256: the C0 and C1
    controls, the no-break space and the soft hyphen are not. *)
Definition isprintable (c : ascii) : bool :=
  let n := ord c in
  ((32 <=? n) && (n <? 127)) ||
  ((161 <=? n) && negb (n =? 173)).

Definition repr_char (quote : ascii) (c : ascii) : string :=
  if Ascii.eqb c quote || Ascii.eqb c "\" then String "\" (str1 c)
  else if Ascii.eqb c (chr 9) then "\t"
  else if Ascii.eqb c (chr 10) then "\n"
  else if Ascii.eqb c (chr 13) then "\r"
  else if isprintable c then str1 c
  else String "\" (String "x"
         (String (hexdigit (ord c / 16)) (str1 (hexdigit (ord c mod 16))))).

Fixpoint repr_body (quote : ascii) (s : string) : string :=
  match s with
  | EmptyString => EmptyString
  | String c s' => repr_char quote c ++ repr_body quote s'
  end.

(** Single quotes, unless the text holds a single quote and no double
    quote. *)
Definition repr_str (s : string) : string :=
  let quote :=
    if char_in "'" s && negb (char_in (chr 34) s) then chr 34
    else "'"%char in
  String quote (repr_body quote s ++ str1 quote).

Fixpoint join (sep : string) (l : list string) : string :=
  match l with
  | [] => EmptyString
  | [x] => x
  | x :: rest => x ++ sep ++ join sep rest
  end.

Definition repr_list (l : list string) : string :=
  "[" ++ join ", " (map repr_str l) ++ "]".

(** [str(e)] for the exceptions above.  An [OSError] with a file name
    writes the name with [repr]. *)
Definition str_exn (e : exn) : string :=
  match e with
  | ValueError m => m
  | NameError n => "name '" ++ n ++ "' is not defined"
  | IndexError m => m
  | FileNotFoundError f =>
      "[Errno 2] No such file or directory: " ++ repr_str f
  | AttributeError m => m
  | TypeError m => m
  | RecursionError => "maximum recursion depth exceeded"
  | EOFError => ""
  | ConsoleError m => m
  | UnicodeDecodeError m => m
  | OverflowError m => m
  end.

(** *** State and exceptions

    A computation over a state of type [S] returns a value or raises, and
    leaves a state behind in both cases. *)

Definition M (S A : Type) : Type := S -> result A * S.

Definition ret {S A} (a : A) : M S A := fun st => (Ok a, st).
Definition raise {S A} (e : exn) : M S A := fun st => (Raise e, st).
Definition mbind {S A B} (m : M S A) (k : A -> M S B) : M S B :=
  fun st =>
    match m st with
    | (Ok a, st') => k a st'
    | (Raise e, st') => (Raise e, st')
    end.
Definition lift {S A} (r : result A) : M S A := fun st => (r, st).

Notation "x <- m ;; k" := (mbind m (fun x => k))
  (at level 61, m at next level, right associativity).
Notation "m ;;; k" := (mbind m (fun _ => k))
  (at level 61, right associativity).

Fixpoint mapM {S A B} (f : A -> M S B) (l : list A) : M S (list B) :=
  match l with
  | [] => ret []
  | a :: l' => b <- f a ;; bs <- mapM f l' ;; ret (b :: bs)
  end.

Fixpoint iterM {S A} (f : A -> M S unit) (l : list A) : M S unit :=
  match l with
  | [] => ret tt
  | a :: l' => f a ;;; iterM f l'
  end.

(** *** Names

    A function body reads a name it never assigns from the module's
    globals, then from the builtins. *)

Inductive pyobj : Type :=
| ObjRef (h : nat)
| ObjStr (s : string)
| ObjOther.

Definition namespace : Type := list (string * pyobj).

Fixpoint lookup (ns : namespace) (x : string) : option pyobj :=
  match ns with
  | [] => None
  | (y, v) :: ns' => if String.eqb x y then Some v else lookup ns' x
  end.

Definition load_global (globals builtins : namespace) (x : string)
  : result pyobj :=
  match lookup globals x with
  | Some v => Ok v
  | None =>
      match lookup builtins x with
      | Some v => Ok v
      | None => Raise (NameError x)
      end
  end.

Definition names (l : list string) : namespace :=
  map (fun x => (x, ObjOther)) l.

(** The names of the builtins module, those of Python 2 and those of
    Python 3 together. *)
Definition builtins : namespace :=
  names
    ["abs"; "aiter"; "all"; "anext"; "any"; "ascii"; "bin"; "bool";
     "breakpoint"; "bytearray"; "bytes"; "callable"; "chr"; "classmethod";
     "compile"; "complex"; "copyright"; "credits"; "delattr"; "dict"; "dir";
     "divmod"; "enumerate"; "eval"; "exec"; "exit"; "filter"; "float";
     "format"; "frozenset"; "getattr"; "globals"; "hasattr"; "hash"; "help";
     "hex"; "id"; "input"; "int"; "isinstance"; "issubclass"; "iter"; "len";
     "license"; "list"; "locals"; "map"; "max"; "memoryview"; "min"; "next";
     "object"; "oct"; "open"; "ord"; "pow"; "print"; "property"; "quit";
     "range"; "repr"; "reversed"; "round"; "set"; "setattr"; "slice";
     "sorted"; "staticmethod"; "str"; "sum"; "super"; "tuple"; "type";
     "vars"; "zip"; "__import__"; "__build_class__"; "__debug__"; "__doc__";
     "__loader__"; "__name__"; "__package__"; "__spec__";
     "True"; "False"; "None"; "Ellipsis"; "NotImplemented";
     "BaseException"; "Exception"; "ArithmeticError"; "AssertionError";
     "AttributeError"; "BlockingIOError"; "BrokenPipeError"; "BufferError";
     "BytesWarning"; "ChildProcessError"; "ConnectionAbortedError";
     "ConnectionError"; "ConnectionRefusedError"; "ConnectionResetError";
     "DeprecationWarning"; "EOFError"; "EnvironmentError"; "FileExistsError";
     "FileNotFoundError"; "FloatingPointError"; "FutureWarning";
     "GeneratorExit"; "IOError"; "ImportError"; "ImportWarning";
     "IndentationError"; "IndexError"; "InterruptedError";
     "IsADirectoryError"; "KeyError"; "KeyboardInterrupt"; "LookupError";
     "MemoryError"; "ModuleNotFoundError"; "NameError";
     "NotADirectoryError"; "NotImplementedError"; "OSError";
     "OverflowError"; "PendingDeprecationWarning"; "PermissionError";
     "ProcessLookupError"; "RecursionError"; "ReferenceError";
     "ResourceWarning"; "RuntimeError"; "RuntimeWarning";
     "StopAsyncIteration"; "StopIteration"; "SyntaxError"; "SyntaxWarning";
     "SystemError"; "SystemExit"; "TabError"; "TimeoutError"; "TypeError";
     "UnboundLocalError"; "UnicodeDecodeError"; "UnicodeEncodeError";
     "UnicodeError"; "UnicodeTranslateError"; "UnicodeWarning";
     "UserWarning"; "ValueError"; "Warning"; "ZeroDivisionError";
     "apply"; "basestring"; "buffer"; "cmp"; "coerce"; "execfile"; "file";
     "intern"; "long"; "raw_input"; "reduce"; "reload"; "unichr"; "unicode";
     "xrange"; "StandardError"].

End Py.

(** ** [shlex.split]

    [tokenize] hands every command string to [shlex.split(command)], that
    is to a POSIX-mode lexer with [whitespace_split] set and no comment
    characters.  The lexer is the state machine of [shlex.read_token]; the
    iteration of [list(lex)] and the loop of [read_token] are written here
    as one recursion over the input, which emits a token at every [break]
    and starts the next call on the rest. *)

Module Shlex.
Import Py.

Definition whitespace : string :=
  String " " (String (chr 9) (String (chr 13) (String (chr 10) ""))).
Definition dquote : ascii := chr 34.
Definition quotes : string := String "'" (str1 dquote).
Definition escape : string := "\".
Definition escapedquotes : string := str1 dquote.

(** The values [self.state] and [escapedstate] take. *)
Inductive lstate : Type :=
| StSpace                 (* ' '  *)
| StWord                  (* 'a'  *)
| StQuote (q : ascii)     (* one of [quotes] *)
| StEscape (e : ascii)    (* one of [escape] *)
| StEOF.                  (* None *)

Definition is_quote_state (s : lstate) : bool :=
  match s with StQuote _ => true | _ => false end.

Definition state_char_eqb (c : ascii) (s : lstate) : bool :=
  match s with
  | StSpace => Ascii.eqb c " "
  | StWord => Ascii.eqb c "a"
  | StQuote q => Ascii.eqb c q
  | StEscape e => Ascii.eqb c e
  | StEOF => false
  end.

(** What [read_token] returns once its loop is left: [None] stands for
    the end-of-file token. *)
Definition finish (token : string) (quoted : bool) : option string :=
  if negb quoted && String.eqb token "" then None else Some token.

Definition emits (token : string) (quoted : bool) : bool :=
  negb (String.eqb token "") || quoted.

Fixpoint lex (state : lstate) (token : string) (quoted : bool)
    (escapedstate : lstate) (acc : list string) (instream : string)
    {struct instream} : result (list string) :=
  match instream with
  | EmptyString =>
      match state with
      | StEOF => Ok (rev acc)
      | StQuote _ => Raise (ValueError "No closing quotation")
      | StEscape _ => Raise (ValueError "No escaped character")
      | StSpace | StWord =>
          (* the state becomes [None]; the token read so far, if any,
             is the last one *)
          match finish token quoted with
          | None => Ok (rev acc)
          | Some t => Ok (rev (t :: acc))
          end
      end
  | String nextchar rest =>
      match state with
      | StEOF => Ok (rev acc)
      | StSpace =>
          if char_in nextchar whitespace then
            if emits token quoted
            then match finish token quoted with
                 | None => Ok (rev acc)
                 | Some t => lex StSpace "" false StSpace (t :: acc) rest
                 end
            else lex StSpace token quoted escapedstate acc rest
          else if char_in nextchar escape then
            lex (StEscape nextchar) token quoted StWord acc rest
          else if char_in nextchar quotes then
            lex (StQuote nextchar) token quoted escapedstate acc rest
          else
            (* [nextchar in wordchars], or [whitespace_split] *)
            lex StWord (str1 nextchar) quoted escapedstate acc rest
      | StQuote q =>
          if Ascii.eqb nextchar q then
            lex StWord token true escapedstate acc rest
          else if char_in nextchar escape && char_in q escapedquotes then
            lex (StEscape nextchar) token true (StQuote q) acc rest
          else
            lex (StQuote q) (token ++ str1 nextchar) true escapedstate acc
              rest
      | StEscape e =>
          let token' :=
            if is_quote_state escapedstate
               && negb (Ascii.eqb nextchar e)
               && negb (state_char_eqb nextchar escapedstate)
            then token ++ str1 e else token in
          lex escapedstate (token' ++ str1 nextchar) quoted escapedstate acc
            rest
      | StWord =>
          if char_in nextchar whitespace then
            if emits token quoted
            then match finish token quoted with
                 | None => Ok (rev acc)
                 | Some t => lex StSpace "" false StSpace (t :: acc) rest
                 end
            else lex StSpace token quoted escapedstate acc rest
          else if char_in nextchar quotes then
            lex (StQuote nextchar) token quoted escapedstate acc rest
          else if char_in nextchar escape then
            lex (StEscape nextchar) token quoted StWord acc rest
          else
            lex StWord (token ++ str1 nextchar) quoted escapedstate acc rest
      end
  end.

(** [shlex.split(s)] *)
Definition split (s : string) : result (list string) :=
  lex StSpace "" false StSpace [] s.

End Shlex.


(** ** [bin/pproc.py]: the subprocess multiplexer *)

Module Pproc.
Import Py.

(** *** The operating system, as [execute] sees it

    Time is the number of system calls the controller has made so far
    ([clock]).  A child is described by

    - [writes], the bytes it writes to its stdout, as far as the codec
      of the locale decodes them;
    - [garbled], the message of the codec's [UnicodeDecodeError] when
      bytes that the codec rejects come after [writes], nothing when
      all that the child writes decodes;
    - [exit_at], the first instant at which [waitpid] reports it
      terminated (it terminated between the controller's calls number
      [exit_at - 1] and [exit_at]), nothing when it never terminates;
    - [status], its exit status.

    A child that never terminates is never read to the end of its
    stream, which [execute] does only after [poll] has found the child
    terminated: of what it writes, a run observed for some turns of the
    loop reads one line for each turn at most, and [writes] holds as
    many lines as one wishes to observe.  (A child that writes a line
    without end keeps [readline] from returning: the controller hangs
    in that call, which no run of this model shows.)

    A text is written here by the bytes it was decoded from, [print]
    encoding with the codec the stream decodes with.

    [exec] answers the [n]-th spawn request with a behaviour, or with
    nothing when the executable is not found; [ready] says which streams
    the [select] call made at a given instant reports readable;
    [decodes_ahead] says whether the block of bytes a stream decodes at
    a given instant reaches beyond the line that is asked for, up to the
    bytes the codec rejects. *)

Record behaviour : Type := {
  writes : string;
  garbled : option string;
  exit_at : option nat;
  status : nat
}.

Record os : Type := {
  first_pid : nat;
  exec : nat -> list string -> option behaviour;
  ready : nat -> nat -> bool;
  decodes_ahead : nat -> nat -> bool
}.

(** The child is seen terminated at instant [now]. *)
Definition exited (b : behaviour) (now : nat) : bool :=
  match exit_at b with
  | Some t => t <=? now
  | None => false
  end.

(** The [--timeout] argument as [select] takes it: [argparse] makes it a
    float, of which [select] accepts the finite values that are not
    negative (here in milliseconds). *)
Inductive seconds : Type :=
| Finite (ms : nat)
| Negative
| NotANumber
| TooLarge.

(** A [Popen] object together with its [stdout] stream.  [unread] is the
    text the stream has not delivered yet, whether the child has written
    it already or not: a read that needs text the child has yet to write
    waits for it.  [returncode] is [None] until [poll] finds the child
    terminated. *)
Record popen : Type := {
  pid : nat;
  args : list string;
  beh : behaviour;
  unread : string;
  returncode : option nat;
  closed : bool
}.

Inductive event : Type :=
| EvSpawn (p : nat) (argv : list string)
| EvPoll (p : nat) (rc : option nat)
| EvRead (p : nat) (text : string)
| EvClose (p : nat)
| EvSelect (now : nat) (fds : list nat) (rlist : list nat)
| EvReadline (p : nat) (text : string)
| EvProcs (l : list nat).

(** The program state: the clock, every [Popen] object created so far,
    the local variable [procs] of [execute] (a list of references, each
    written as the pid of its object), what has been written to
    [sys.stdout] (every fragment with the process it was read from, if
    any) and a trace: the system calls made and, as [EvProcs], every
    value [procs] has held. *)
Record state : Type := {
  clock : nat;
  heap : list popen;
  procs : list nat;
  out : list (option nat * string);
  trace : list event
}.

Definition init : state :=
  {| clock := 0; heap := []; procs := []; out := []; trace := [] |}.

(** The text on [sys.stdout]. *)
Definition stdout_text (st : state) : string :=
  fold_right String.append EmptyString (map snd (out st)).

(** The text on [sys.stdout] that was read from process [p]. *)
Fixpoint text_from (p : nat) (o : list (option nat * string)) : string :=
  match o with
  | [] => EmptyString
  | (Some q, s) :: o' =>
      if q =? p then s ++ text_from p o' else text_from p o'
  | (None, _) :: o' => text_from p o'
  end.

(** [execute] runs in the monad of state and exceptions. *)
Definition M (A : Type) : Type := Py.M state A.

(** *** State updates *)

Definition tick (ev : event) (st : state) : state :=
  {| clock := S (clock st); heap := heap st; procs := procs st;
     out := out st; trace := trace st ++ [ev] |}.

Definition set_heap (h : list popen) (st : state) : state :=
  {| clock := clock st; heap := h; procs := procs st;
     out := out st; trace := trace st |}.

Definition set_procs (l : list nat) (st : state) : state :=
  {| clock := clock st; heap := heap st; procs := l;
     out := out st; trace := trace st ++ [EvProcs l] |}.

Definition write_out (origin : option nat) (s : string) (st : state)
  : state :=
  {| clock := clock st; heap := heap st; procs := procs st;
     out := out st ++ [(origin, s)]; trace := trace st |}.

Fixpoint find_proc (p : nat) (h : list popen) : option popen :=
  match h with
  | [] => None
  | c :: h' => if pid c =? p then Some c else find_proc p h'
  end.

Fixpoint update_proc (p : nat) (f : popen -> popen) (h : list popen)
  : list popen :=
  match h with
  | [] => []
  | c :: h' =>
      if pid c =? p then f c :: h' else c :: update_proc p f h'
  end.

Definition with_unread (s : string) (c : popen) : popen :=
  {| pid := pid c; args := args c; beh := beh c; unread := s;
     returncode := returncode c; closed := closed c |}.

Definition with_returncode (rc : option nat) (c : popen) : popen :=
  {| pid := pid c; args := args c; beh := beh c; unread := unread c;
     returncode := rc; closed := closed c |}.

Definition with_closed (c : popen) : popen :=
  {| pid := pid c; args := args c; beh := beh c; unread := unread c;
     returncode := returncode c; closed := true |}.

(** A reference to an object that is not in the heap: no run of
    [execute] gets there (see [while_loop_step]: the loop raises in the
    ways of [stops] only). *)
Definition stale {A} : M A :=
  raise (AttributeError "stale process handle").

Definition closed_file {A} : M A :=
  raise (ValueError "I/O operation on closed file.").

(** *** Streams in universal-newlines mode

    [kwds] sets [universal_newlines], so [p.stdout] is a text stream:
    it decodes what it reads with the codec of the locale, raising
    [UnicodeDecodeError] on bytes the codec rejects, and delivers a
    carriage return, with or without a line feed after it, as one line
    feed. *)

Definition LF : ascii := chr 10.
Definition CR : ascii := chr 13.

Fixpoint universal_newlines (s : string) : string :=
  match s with
  | EmptyString => EmptyString
  | String c rest =>
      if Ascii.eqb c CR then
        match rest with
        | String d rest' =>
            if Ascii.eqb d LF then String LF (universal_newlines rest')
            else String LF (universal_newlines rest)
        | EmptyString => String LF EmptyString
        end
      else String c (universal_newlines rest)
  end.

(** The first line of a text (with its line feed) and what follows it;
    the whole text when it holds no line feed. *)
Fixpoint split_line (s : string) : string * string :=
  match s with
  | EmptyString => (EmptyString, EmptyString)
  | String c rest =>
      if Ascii.eqb c LF then (str1 c, rest)
      else let (l, r) := split_line rest in (String c l, r)
  end.

(** *** The calls [execute] makes *)

(** [Popen(cmd, **kwds)] *)
Definition Popen (w : os) (cmd : list string) : M nat :=
  fun st =>
    match cmd with
    | [] => (Raise (IndexError "list index out of range"), st)
    | exe :: _ =>
        match exec w (length (heap st)) cmd with
        | None => (Raise (FileNotFoundError exe), st)
        | Some b =>
            let p := first_pid w + length (heap st) in
            let c := {| pid := p; args := cmd; beh := b;
                        unread := universal_newlines (writes b);
                        returncode := None; closed := false |} in
            (Ok p, tick (EvSpawn p cmd) (set_heap (heap st ++ [c]) st))
        end
    end.

(** [p.poll()]: the return code once the child has terminated, which the
    object then keeps; [None] before. *)
Definition poll (p : nat) : M (option nat) :=
  fun st =>
    match find_proc p (heap st) with
    | None => stale st
    | Some c =>
        match returncode c with
        | Some rc => (Ok (Some rc), st)
        | None =>
            if exited (beh c) (clock st) then
              let rc := Some (status (beh c)) in
              (Ok rc, tick (EvPoll p rc)
                        (set_heap
                           (update_proc p (with_returncode rc) (heap st)) st))
            else (Ok None, tick (EvPoll p None) st)
        end
    end.

(** [p.stdout.read()]: everything up to the end of the stream, which
    the codec has to decode: bytes it rejects make the call raise. *)
Definition read (p : nat) : M string :=
  fun st =>
    match find_proc p (heap st) with
    | None => stale st
    | Some c =>
        if closed c then closed_file st
        else
          match garbled (beh c) with
          | Some msg => (Raise (UnicodeDecodeError msg), st)
          | None =>
              (Ok (unread c),
               tick (EvRead p (unread c))
                 (set_heap
                    (update_proc p (with_unread EmptyString) (heap st)) st))
          end
    end.

(** Whether [f.readline()] at instant [now] has the codec decode the
    bytes it rejects: it does when the text before them holds no whole
    line, and when the block it decodes reaches them. *)
Definition readline_error (w : os) (now : nat) (c : popen) : option string :=
  match garbled (beh c) with
  | Some msg =>
      if negb (char_in LF (unread c)) || decodes_ahead w now (pid c)
      then Some msg else None
  | None => None
  end.

(** [f.readline()] *)
Definition readline (w : os) (p : nat) : M string :=
  fun st =>
    match find_proc p (heap st) with
    | None => stale st
    | Some c =>
        if closed c then closed_file st
        else
          match readline_error w (clock st) c with
          | Some msg => (Raise (UnicodeDecodeError msg), st)
          | None =>
              let (line, rest) := split_line (unread c) in
              (Ok line,
               tick (EvReadline p line)
                 (set_heap (update_proc p (with_unread rest) (heap st)) st))
          end
    end.

(** [p.stdout.close()] *)
Definition close (p : nat) : M unit :=
  fun st =>
    match find_proc p (heap st) with
    | None => stale st
    | Some c =>
        (Ok tt, tick (EvClose p)
                  (set_heap (update_proc p with_closed (heap st)) st))
    end.

Definition is_closed (h : list popen) (p : nat) : bool :=
  match find_proc p h with
  | Some c => closed c
  | None => false
  end.

(** What [select] raises on a timeout it does not accept; it looks at
    the timeout before it looks at the streams. *)
Definition select_error (timeout : seconds) : option exn :=
  match timeout with
  | Finite _ => None
  | Negative => Some (ValueError "timeout must be non-negative")
  | NotANumber => Some (ValueError "Invalid value NaN (not a number)")
  | TooLarge =>
      Some (OverflowError "timestamp too large to convert to C _PyTime_t")
  end.

(** [select(fds, [], [], timeout)[0]]: asking for the descriptor of a
    closed stream raises; the streams reported keep the order of [fds].
    Which streams are readable once the call returns, after [timeout] at
    most, is the machine's answer. *)
Definition select (w : os) (fds : list nat) (timeout : seconds)
  : M (list nat) :=
  fun st =>
    match select_error timeout with
    | Some e => (Raise e, st)
    | None =>
        if existsb (is_closed (heap st)) fds then closed_file st
        else let rlist := filter (ready w (clock st)) fds in
             (Ok rlist, tick (EvSelect (clock st) fds rlist) st)
    end.

(** [print(s, end='')], with the process [s] was read from.
    [sys.stdout] is taken to accept what is written to it. *)
Definition print_from (origin : option nat) (s : string) : M unit :=
  fun st => (Ok tt, write_out origin s st).

(** [procs.remove(p)]: the first element equal to [p] goes. *)
Fixpoint list_remove (p : nat) (l : list nat) : list nat :=
  match l with
  | [] => []
  | q :: l' => if q =? p then l' else q :: list_remove p l'
  end.

Definition procs_remove (p : nat) : M unit :=
  fun st =>
    if existsb (Nat.eqb p) (procs st)
    then (Ok tt, set_procs (list_remove p (procs st)) st)
    else (Raise (ValueError "list.remove(x): x not in list"), st).

(** What the module binds at its top level: the imports, the three
    constants, the three functions and, when it runs as a script, the
    variables of the main block. *)
Definition module_globals : namespace :=
  (names ["__name__"; "__doc__"; "__package__"; "__loader__"; "__spec__";
          "__file__"; "__builtins__";
          "shlex"; "argparse"; "select"; "Popen"; "PIPE"]
   ++ [("DESCRIPTION",
        ObjStr "Run multiple subprocesses concurrently, serializing stdout");
       ("EPILOG", ObjStr "This is a Bengfort toolkit command");
       ("VERSION", ObjStr "%(prog)s v1.0")]
   ++ names ["tokenize"; "pprint"; "execute"; "parser"; "args"])%list.

(** [str(n)] for a pid. *)
Definition str_nat (n : nat) : string :=
  NilEmpty.string_of_uint (Nat.to_uint n).

(** *** The command functions *)

(** [tokenize], collected by [list(...)]: the tokens of every command, or
    the error of the first command that does not tokenize. *)
Fixpoint tokenize (commands : list string) : result (list (list string)) :=
  match commands with
  | [] => Ok []
  | command :: rest =>
      bind (Shlex.split command) (fun argv =>
      bind (tokenize rest) (fun argvs => Ok (argv :: argvs)))
  end.

(** [pprint(proc)]: the body reads [p], not its parameter. *)
Definition pprint (proc : nat) : M unit :=
  p <- lift (load_global module_globals builtins "p") ;;
  match p with
  | ObjRef h =>
      text <- read h ;;
      print_from (Some h) ("[" ++ str_nat h ++ "] out: " ++ text)
  | _ => raise (AttributeError "object has no attribute 'pid'")
  end.

(** Lines 77 to 80, for the element [p] the list iterator hands out. *)
Definition for_body (p : nat) : M unit :=
  rc <- poll p ;;
  match rc with
  | Some _ =>
      text <- read p ;;
      print_from (Some p) text ;;;
      close p ;;;
      procs_remove p
  | None => ret tt
  end.

(** [for p in procs: ...].  A list iterator is an index into the list:
    it hands out [procs[i]] as long as [i < len(procs)], reading the list
    anew at every step, so that an element removed by the body shifts
    the rest under the index.  [fuel] bounds the number of steps;
    [length procs] is enough (see [for_loop_fuel]). *)
Fixpoint for_loop (fuel i : nat) : M unit :=
  fun st =>
    match fuel with
    | 0 => (Ok tt, st)
    | S fuel' =>
        match nth_error (procs st) i with
        | None => (Ok tt, st)
        | Some p => (for_body p ;;; for_loop fuel' (S i)) st
        end
    end.

Definition reap : M unit :=
  fun st => for_loop (length (procs st)) 0 st.

(** [for f in rlist: print(f.readline(), end='')] *)
Definition read_ready (w : os) (rlist : list nat) : M unit :=
  iterM (fun f => line <- readline w f ;; print_from (Some f) line) rlist.

(** One turn of the [while] loop, lines 76 to 85. *)
Definition iteration (w : os) (timeout : seconds) : M unit :=
  reap ;;;
  (fun st => (rlist <- select w (procs st) timeout ;; read_ready w rlist) st).

(** Where a run stands after [fuel] turns of the loop. *)
Inductive progress : Type :=
| Returned        (* [while procs] found the list empty *)
| Running.        (* the loop is still going *)

Fixpoint while_loop (w : os) (timeout : seconds) (fuel : nat)
  : M progress :=
  fun st =>
    match procs st with
    | [] => (Ok Returned, st)
    | _ :: _ =>
        match fuel with
        | 0 => (Ok Running, st)
        | S fuel' => (iteration w timeout ;;; while_loop w timeout fuel') st
        end
    end.

(** [execute(commands, debug, timeout)], observed for [fuel] turns of
    the [while] loop. *)
Definition execute (w : os) (fuel : nat) (commands : list string)
    (debug : bool) (timeout : seconds) : M progress :=
  commands' <- lift (tokenize commands) ;;
  if debug then
    iterM (fun command => print_from None (repr_list command ++ str1 LF))
      commands' ;;;
    ret Returned
  else
    ps <- mapM (Popen w) commands' ;;
    (fun st => (Ok tt, set_procs ps st)) ;;;
    while_loop w timeout fuel.

(** The main block, from the parsed arguments on: [parser.exit(0)] after
    [execute] returns, [parser.error(str(e))], which exits with status 2,
    when it raises. *)
Inductive exit : Type :=
| Exit (code : nat) (error : option string)
| NoExit.

Definition main (w : os) (fuel : nat) (commands : list string)
    (debug : bool) (timeout : seconds) : exit * state :=
  match execute w fuel commands debug timeout init with
  | (Ok Returned, st) => (Exit 0 None, st)
  | (Ok Running, st) => (NoExit, st)
  | (Raise e, st) => (Exit 2 (Some (str_exn e)), st)
  end.

(** *** The state [execute] leaves behind, in closed form *)

(** The object [Popen] creates for the [n]-th spawn request. *)
Definition new_child (w : os) (n : nat) (cmd : list string) (b : behaviour)
  : popen :=
  {| pid := first_pid w + n; args := cmd; beh := b;
     unread := universal_newlines (writes b);
     returncode := None; closed := false |}.

(** The objects created for a list of commands that all spawn, the first
    of them being the [n]-th request. *)
Fixpoint children_of (w : os) (n : nat) (argvs : list (list string))
  : list popen :=
  match argvs with
  | [] => []
  | argv :: rest =>
      match exec w n argv with
      | Some b => new_child w n argv b :: children_of w (S n) rest
      | None => []
      end
  end.

Definition spawn_events (l : list popen) : list event :=
  map (fun c => EvSpawn (pid c) (args c)) l.

(** The state after the children [l] have been spawned. *)
Definition spawned (l : list popen) (st : state) : state :=
  {| clock := List.length l + clock st; heap := heap st ++ l;
     procs := procs st; out := out st;
     trace := trace st ++ spawn_events l |}.

(** The state after the lines [l] have been printed. *)
Definition printed_lines (l : list string) (st : state) : state :=
  {| clock := clock st; heap := heap st; procs := procs st;
     out := out st ++ map (fun s => (None, s)) l; trace := trace st |}.

(** Every command of the list names a program the machine can start,
    the first of them being the [n]-th request. *)
Definition all_spawn (w : os) (n : nat) (argvs : list (list string)) : Prop :=
  forall i argv, nth_error argvs i = Some argv ->
                 argv <> [] /\ exec w (n + i) argv <> None.

End Pproc.


(** ** [bin/requires.py]: [parse] *)

Module Requires.
Import Py.

(** Parsable operators for semantic versioning. *)
Definition operators : list string :=
  ["=="; ">="; ">"; "!="; "~="; "<"; "<="].

(** What the module binds at its top level. *)
Definition module_globals : namespace :=
  (names ["__name__"; "__doc__"; "__package__"; "__file__"; "__builtins__";
          "os"; "pip"; "sys"; "shutil"; "argparse"; "freeze"; "pyvers"]
   ++ [("DESCRIPTION",
        ObjStr "Creates better requirements.txt files using pip freeze.");
       ("EPILOG",
        ObjStr "An alternative is to use pip freeze -r requirements.txt")]
   ++ names ["VERSION"; "ARGUMENTS"; "reqargs"; "operators"; "parse";
             "packages"; "requires"; "main"])%list.

(** The first operator of the list that occurs in [dep]. *)
Fixpoint first_operator (ops : list string) (dep : string) : option string :=
  match ops with
  | [] => None
  | operator :: ops' =>
      if contains dep operator then Some operator
      else first_operator ops' dep
  end.

(** A global read as a string. *)
Definition load_str (x : string) : result string :=
  bind (load_global module_globals builtins x) (fun v =>
    match v with
    | ObjStr s => Ok s
    | _ => Raise (TypeError "object is not subscriptable")
    end).

(** [parse(dep)]: the name and the dependency.  Both editable branches
    read the name [line]. *)
Definition parse (dep : string) : result (string * string) :=
  if startswith dep "-e" || startswith dep "--editable" then
    bind
      (if startswith dep "-e" then
         bind (load_str "line") (fun line => Ok (strip (drop 2 line)))
       else
         bind (load_str "line") (fun line =>
           Ok (lstrip_set "=" (strip (drop (String.length "--editable") line)))))
      (fun name => Ok (name, dep))
  else
    match first_operator operators dep with
    | Some operator => Ok (strip (before_first dep operator), dep)
    | None => Ok (dep, dep)
    end.

End Requires.

(** ** [bin/pwgen.py]: the password generator *)

Module Pwgen.
Import Py.
Local Open Scope Z_scope.

(** *** [hashlib.sha256] on byte strings (FIPS 180-4) *)

Definition add32 (a b : Z) : Z := (a + b) mod 2 ^ 32.

Definition rotr (n x : Z) : Z :=
  Z.lor (Z.shiftr x n) ((Z.shiftl x (32 - n)) mod 2 ^ 32).

Definition not32 (x : Z) : Z := Z.lxor x (2 ^ 32 - 1).

Definition Ch (x y z : Z) : Z :=
  Z.lxor (Z.land x y) (Z.land (not32 x) z).

Definition Maj (x y z : Z) : Z :=
  Z.lxor (Z.lxor (Z.land x y) (Z.land x z)) (Z.land y z).

Definition Sigma0 (x : Z) : Z :=
  Z.lxor (Z.lxor (rotr 2 x) (rotr 13 x)) (rotr 22 x).
Definition Sigma1 (x : Z) : Z :=
  Z.lxor (Z.lxor (rotr 6 x) (rotr 11 x)) (rotr 25 x).
Definition sigma0 (x : Z) : Z :=
  Z.lxor (Z.lxor (rotr 7 x) (rotr 18 x)) (Z.shiftr x 3).
Definition sigma1 (x : Z) : Z :=
  Z.lxor (Z.lxor (rotr 17 x) (rotr 19 x)) (Z.shiftr x 10).

Definition K256 : list Z :=
  [1116352408; 1899447441; 3049323471; 3921009573; 961987163; 1508970993;
   2453635748; 2870763221; 3624381080; 310598401; 607225278; 1426881987;
   1925078388; 2162078206; 2614888103; 3248222580; 3835390401; 4022224774;
   264347078; 604807628; 770255983; 1249150122; 1555081692; 1996064986;
   2554220882; 2821834349; 2952996808; 3210313671; 3336571891; 3584528711;
   113926993; 338241895; 666307205; 773529912; 1294757372; 1396182291;
   1695183700; 1986661051; 2177026350; 2456956037; 2730485921; 2820302411;
   3259730800; 3345764771; 3516065817; 3600352804; 4094571909; 275423344;
   430227734; 506948616; 659060556; 883997877; 958139571; 1322822218;
   1537002063; 1747873779; 1955562222; 2024104815; 2227730452; 2361852424;
   2428436474; 2756734187; 3204031479; 3329325298].

Definition H256 : list Z :=
  [1779033703; 3144134277; 1013904242; 2773480762; 1359893119; 2600822924;
   528734635; 1541459225].

Definition bytes_of_string (s : string) : list Z :=
  map (fun c => Z.of_nat (ord c)) (list_ascii_of_string s).

(** The [n] low bytes of [x], most significant first. *)
Fixpoint be_bytes (n : nat) (x : Z) : list Z :=
  match n with
  | O => []
  | S n' => (Z.shiftr x (8 * Z.of_nat n')) mod 256 :: be_bytes n' x
  end.

(** The message, a one bit, zeros up to 56 modulo 64, the bit length. *)
Definition pad (msg : list Z) : list Z :=
  let len := Z.of_nat (List.length msg) in
  let zeros := Z.to_nat ((55 - len) mod 64) in
  (msg ++ [128] ++ repeat 0 zeros ++ be_bytes 8 (8 * len))%list.

Fixpoint be_words (bytes : list Z) : list Z :=
  match bytes with
  | a :: b :: c :: d :: rest =>
      (((a * 256 + b) * 256 + c) * 256 + d) :: be_words rest
  | _ => []
  end.

(** The message schedule, latest word first. *)
Fixpoint schedule (n : nat) (rev_w : list Z) : list Z :=
  match n with
  | O => rev_w
  | S n' =>
      let wt :=
        add32 (add32 (sigma1 (nth 1 rev_w 0)) (nth 6 rev_w 0))
              (add32 (sigma0 (nth 14 rev_w 0)) (nth 15 rev_w 0)) in
      schedule n' (wt :: rev_w)
  end.

Definition round (h : list Z) (kw : Z * Z) : list Z :=
  match h with
  | [a; b; c; d; e; f; g; hh] =>
      let t1 := add32 (add32 (add32 hh (Sigma1 e)) (Ch e f g))
                      (add32 (fst kw) (snd kw)) in
      let t2 := add32 (Sigma0 a) (Maj a b c) in
      [add32 t1 t2; a; b; c; add32 d t1; e; f; g]
  | _ => h
  end.

Definition compress (h : list Z) (block : list Z) : list Z :=
  let w := rev (schedule 48 (rev (be_words block))) in
  let h' := fold_left round (combine K256 w) h in
  map (fun p => add32 (fst p) (snd p)) (combine h h').

Fixpoint blocks (n : nat) (h : list Z) (bytes : list Z) : list Z :=
  match n with
  | O => h
  | S n' =>
      match bytes with
      | [] => h
      | _ => blocks n' (compress h (firstn 64 bytes)) (skipn 64 bytes)
      end
  end.

(** [hashlib.sha256(s).digest()], as 32 bytes. *)
Definition sha256 (s : string) : list Z :=
  let m := pad (bytes_of_string s) in
  flat_map (be_bytes 4) (blocks (List.length m) H256 m).

(** *** [base64.b64encode] *)

Definition b64char (n : Z) : ascii :=
  chr (Z.to_nat
         (if n <? 26 then 65 + n
          else if n <? 52 then 97 + (n - 26)
          else if n <? 62 then 48 + (n - 52)
          else if n =? 62 then 43 else 47)).

Fixpoint b64encode (bytes : list Z) : string :=
  match bytes with
  | [] => EmptyString
  | [a] =>
      String (b64char (a / 4)) (String (b64char (a mod 4 * 16)) "==")
  | [a; b] =>
      String (b64char (a / 4))
        (String (b64char (a mod 4 * 16 + b / 16))
           (String (b64char (b mod 16 * 4)) "="))
  | a :: b :: c :: rest =>
      String (b64char (a / 4))
        (String (b64char (a mod 4 * 16 + b / 16))
           (String (b64char (b mod 16 * 4 + c / 64))
              (String (b64char (c mod 64)) (b64encode rest))))
  end.

Definition hex_of_bytes (bytes : list Z) : string :=
  fold_right
    (fun b s => String (hexdigit (Z.to_nat (b / 16)))
                  (String (hexdigit (Z.to_nat (b mod 16))) s))
    EmptyString bytes.

Local Close Scope Z_scope.

(** *** Configuration, terminal and arguments *)

(** The settings read from [~/.pwgen.yaml]; the class defaults are
    [None], [False] and the empty salt. *)
Record configuration : Type := {
  password_master : option string;
  conf_device : bool;
  conf_salt : string
}.

(** The machine: its settings file and the text [get_device] returns,
    the name-based UUID of the hardware address. *)
Record machine : Type := {
  settings : configuration;
  device_uuid : string
}.

(** The terminal: the lines still to be typed at the [getpass] prompts
    and what has been printed. *)
Record tty : Type := {
  typed : list string;
  printed : list string
}.

(** The parsed arguments of [generate]; [nargs] makes [domain] a list. *)
Record arguments : Type := {
  domain : list string;
  salt : string;
  device : bool
}.

Definition T (A : Type) : Type := Py.M tty A.

(** [getpass(prompt)] *)
Definition getpass (prompt : string) : T string :=
  fun t =>
    match typed t with
    | [] => (Raise EOFError, t)
    | line :: rest => (Ok line, {| typed := rest; printed := printed t |})
    end.

Definition print_line (s : string) : T unit :=
  fun t => (Ok tt, {| typed := typed t; printed := printed t ++ [s] |}).

(** [sys.getrecursionlimit()] *)
Definition recursion_limit : nat := 1000.

Section Utilities.

Variable m : machine.

(** [Utilities.get_device] *)
Definition get_device : string := device_uuid m.

(** [Utilities.encode_password]: SHA-256 hashing, Base64 encoding. *)
Definition encode_password (password : string) : string :=
  b64encode (sha256 password).

(** [Utilities.confirm_password] *)
Definition confirm_password (password confirm : string) : bool :=
  if String.eqb password confirm then true
  else
    let master := encode_password (get_device ++ password) in
    if String.eqb master confirm then true else false.

(** The truth value of [settings.password_master]. *)
Definition truthy (c : option string) : option string :=
  match c with
  | Some EmptyString => None
  | _ => c
  end.

(** [Utilities.get_password(attempts, confirm)]; [depth] is the number of
    frames the interpreter still allows. *)
Fixpoint get_password (depth : nat) (attempts : nat)
    (confirm : option string) : T string :=
  match depth with
  | O => raise RecursionError
  | S depth' =>
      line <- getpass "Enter master passphrase: " ;;
      let password := strip line in
      confirm' <- match truthy confirm with
                  | Some c => ret c
                  | None =>
                      again <- getpass "Enter same passphrase again: " ;;
                      ret (strip again)
                  end ;;
      if negb (confirm_password password confirm') then
        if attempts <=? 3 then
          print_line
            "Password doesn't match configuration or confirmation, try again."
          ;;;
          get_password depth' (attempts + 1) (password_master (settings m))
        else
          raise (ConsoleError
                   "Password attempt maximum, stretch fingers and try again!")
      else if String.eqb password EmptyString then
        raise (ConsoleError
                 "You must supply a base password for the generator!")
      else ret password
  end.

(** [Generate.handle(args)] *)
Definition handle (args : arguments) : T string :=
  match domain args with
  | [] => raise (IndexError "list index out of range")
  | domain0 :: _ =>
      master <- get_password recursion_limit 0
                  (password_master (settings m)) ;;
      let password := domain0 ++ salt args ++ master in
      let password :=
        if device args then password ++ get_device else password in
      ret (encode_password password)
  end.

End Utilities.

End Pwgen.

(** ** Notions the properties are stated with *)

Module Quoting.
Import Py Shlex.

(** Where a left-to-right reading of a command string stands with respect
    to shell quoting: outside quotes, inside single or double quotes, or
    just after a backslash (outside quotes, or inside double quotes, the
    only quotes in which a backslash escapes). *)
Inductive qstate : Type :=
| Unquoted
| InSingle
| InDouble
| EscUnquoted
| EscDouble.

Definition qstep (q : qstate) (c : ascii) : qstate :=
  match q with
  | Unquoted =>
      if Ascii.eqb c "'" then InSingle
      else if Ascii.eqb c dquote then InDouble
      else if Ascii.eqb c "\" then EscUnquoted
      else Unquoted
  | InSingle => if Ascii.eqb c "'" then Unquoted else InSingle
  | InDouble =>
      if Ascii.eqb c dquote then Unquoted
      else if Ascii.eqb c "\" then EscDouble
      else InDouble
  | EscUnquoted => Unquoted
  | EscDouble => InDouble
  end.

Fixpoint quote_scan (q : qstate) (s : string) : qstate :=
  match s with
  | EmptyString => q
  | String c rest => quote_scan (qstep q c) rest
  end.

Definition in_quote (q : qstate) : bool :=
  match q with
  | InSingle | InDouble | EscDouble => true
  | Unquoted | EscUnquoted => false
  end.

(** The string ends inside a quote that was opened and never closed. *)
Definition unterminated_quote (s : string) : bool :=
  in_quote (quote_scan Unquoted s).

(** The two errors of the tokenizer. *)
Definition tokenization_error (e : exn) : Prop :=
  e = ValueError "No closing quotation"
  \/ e = ValueError "No escaped character".

(** The lexer state that goes with a quoting state. *)
Definition lexer_at (q : qstate) (state escapedstate : lstate) : Prop :=
  match q with
  | Unquoted => state = StSpace \/ state = StWord
  | InSingle => state = StQuote "'"
  | InDouble => state = StQuote dquote
  | EscUnquoted => state = StEscape "\" /\ escapedstate = StWord
  | EscDouble => state = StEscape "\" /\ escapedstate = StQuote dquote
  end.

(** What the lexer does on a text, by the quoting state the text ends
    in. *)
Definition lex_outcome (q : qstate) (r : result (list string)) : Prop :=
  match q with
  | Unquoted => exists tokens, r = Ok tokens
  | InSingle | InDouble => r = Raise (ValueError "No closing quotation")
  | EscUnquoted | EscDouble => r = Raise (ValueError "No escaped character")
  end.

(** A command of whitespace only, the empty command included. *)
Fixpoint blank (s : string) : bool :=
  match s with
  | EmptyString => true
  | String c rest => char_in c whitespace && blank rest
  end.

(** A character the lexer takes as it is: no whitespace, no quote, no
    escape character. *)
Definition ordinary (c : ascii) : bool :=
  negb (char_in c whitespace || char_in c quotes || char_in c escape).

Fixpoint all_ordinary (s : string) : bool :=
  match s with
  | EmptyString => true
  | String c rest => ordinary c && all_ordinary rest
  end.

(** A word as one types it without quoting: ordinary characters, one at
    least. *)
Definition bare_word (s : string) : bool :=
  negb (String.eqb s EmptyString) && all_ordinary s.

(** The lexer holds a token, or has emitted one, or is inside a quote
    or after an escape character. *)
Definition holds_something (state : lstate) (token : string) (quoted : bool)
    (escapedstate : lstate) (acc : list string) : Prop :=
  match state with
  | StEOF => False
  | StQuote _ => True
  | StEscape _ => escapedstate <> StEOF
  | StSpace | StWord => acc <> [] \/ emits token quoted = true
  end.

End Quoting.

(** ** The loop of [execute], step by step *)

Module Loop.
Import Py Pproc.

(** What never changes in a [Popen] object. *)
Definition ident (h : list popen) : list (nat * list string * behaviour) :=
  map (fun c => (pid c, args c, beh c)) h.




(** No child writes bytes the codec rejects. *)
Definition all_decode (h : list popen) : Prop :=
  forall c, In c h -> garbled (beh c) = None.

(** A child that has been found terminated, read to the end and
    closed. *)
Definition drained (rc : nat) (c : popen) : popen :=
  with_closed (with_unread EmptyString (with_returncode (Some rc) c)).

Definition is_drained (c : popen) : Prop :=
  returncode c <> None /\ unread c = EmptyString /\ closed c = true.

(** The events of lines 77 to 80 when [poll] finds [c] terminated. *)
Definition reap_events (p : nat) (c : popen) (l : list nat) : list event :=
  [EvPoll p (Some (status (beh c))); EvRead p (unread c); EvClose p;
   EvProcs (list_remove p l)].

(** The state after lines 77 to 80 have found [c], of pid [p],
    terminated. *)
Definition reaped (p : nat) (c : popen) (st : state) : state :=
  {| clock := 3 + clock st;
     heap := update_proc p (drained (status (beh c))) (heap st);
     procs := list_remove p (procs st);
     out := out st ++ [(Some p, unread c)];
     trace := trace st ++ reap_events p c (procs st) |}.

(** The state after line 77 has found [c], of pid [p], terminated: the
    state in which a run ends when line 78 cannot decode what is left
    of the stream. *)
Definition polled (p : nat) (c : popen) (st : state) : state :=
  tick (EvPoll p (Some (status (beh c))))
    (set_heap
       (update_proc p (with_returncode (Some (status (beh c)))) (heap st))
       st).

(** The state after line 85 has read a line from [c], of pid [p]. *)
Definition line_read (p : nat) (c : popen) (st : state) : state :=
  {| clock := 1 + clock st;
     heap := update_proc p (with_unread (snd (split_line (unread c))))
               (heap st);
     procs := procs st;
     out := out st ++ [(Some p, fst (split_line (unread c)))];
     trace := trace st ++ [EvReadline p (fst (split_line (unread c)))] |}.

(** The fragments of output a trace accounts for: what each [read] and
    each [readline] returned, with the process it was read from. *)
Fixpoint fragments_read (tr : list event) : list (option nat * string) :=
  match tr with
  | [] => []
  | EvRead p text :: tr' => (Some p, text) :: fragments_read tr'
  | EvReadline p text :: tr' => (Some p, text) :: fragments_read tr'
  | _ :: tr' => fragments_read tr'
  end.

Definition is_spawn (ev : event) : Prop :=
  exists p argv, ev = EvSpawn p argv.

(** The traces of the loop, with the value of [procs] they lead to:
    the children are spawned and [procs] is assigned; then a child of
    the list is polled and found running, or found terminated, read,
    closed and removed, or the list is handed to [select], or a line is
    read from a child of the list. *)
Inductive run_trace : list event -> list nat -> Prop :=
| rt_start (spawns : list event) (ps : list nat) :
    Forall is_spawn spawns -> NoDup ps ->
    run_trace (spawns ++ [EvProcs ps]) ps
| rt_poll (tr : list event) (ps : list nat) (p : nat) :
    run_trace tr ps -> In p ps ->
    run_trace (tr ++ [EvPoll p None]) ps
| rt_reap (tr : list event) (ps : list nat) (p : nat) (c : popen) :
    run_trace tr ps -> In p ps ->
    run_trace (tr ++ reap_events p c ps) (list_remove p ps)
| rt_select (tr : list event) (ps : list nat) (now : nat)
    (rlist : list nat) :
    run_trace tr ps ->
    run_trace (tr ++ [EvSelect now ps rlist]) ps
| rt_readline (tr : list event) (ps : list nat) (p : nat) (line : string) :
    run_trace tr ps -> In p ps ->
    run_trace (tr ++ [EvReadline p line]) ps.

(** The invariant of the [while] loop. *)
Record Inv (st : state) : Prop := {
  inv_trace : run_trace (trace st) (procs st);
  inv_live : forall p, In p (procs st) ->
    exists c, find_proc p (heap st) = Some c
              /\ returncode c = None /\ closed c = false;
  inv_text : forall p c, find_proc p (heap st) = Some c ->
    text_from p (out st) ++ unread c = universal_newlines (writes (beh c));
  inv_done : forall p c, find_proc p (heap st) = Some c ->
    In p (procs st) \/ is_drained c;
  inv_out : out st = fragments_read (trace st)
}.

(** How a run that has reached [st] inside the loop ends when a call
    raises: [read] on a terminated child whose stream does not decode,
    [select] on a timeout it does not accept, [readline] on a stream
    that does not decode. *)
Inductive stops (timeout : seconds) (st : state) : exn -> state -> Prop :=
| stops_read (p : nat) (c : popen) (msg : string) :
    In p (procs st) -> find_proc p (heap st) = Some c ->
    exited (beh c) (clock st) = true -> garbled (beh c) = Some msg ->
    stops timeout st (UnicodeDecodeError msg) (polled p c st)
| stops_select (e : exn) :
    select_error timeout = Some e ->
    stops timeout st e st
| stops_readline (p : nat) (c : popen) (msg : string) :
    In p (procs st) -> find_proc p (heap st) = Some c ->
    garbled (beh c) = Some msg ->
    stops timeout st (UnicodeDecodeError msg) st.

(** What every step of the loop keeps or moves in one direction only:
    the invariant, the identity of the children, the clock, the
    process list, which loses no child that is still running. *)
Record advances (st st' : state) : Prop := {
  adv_inv : Inv st';
  adv_ident : ident (heap st') = ident (heap st);
  adv_clock : clock st <= clock st';
  adv_length : List.length (procs st') <= List.length (procs st);
  adv_procs : forall q, In q (procs st') -> In q (procs st);
  adv_running : forall q c,
    In q (procs st) -> find_proc q (heap st) = Some c ->
    exited (beh c) (clock st') = false -> In q (procs st')
}.

(** What a part of the loop, run from [st], leads to: a state from
    which the loop goes on, of which [ok] holds, or the end of the run
    in one of the ways of [stops]. *)
Definition outcome {A : Type} (timeout : seconds) (st : state)
    (run : result A * state) (ok : A -> state -> Prop) : Prop :=
  match run with
  | (Ok a, st') => advances st st' /\ ok a st'
  | (Raise e, st') => exists st1, advances st st1 /\ stops timeout st1 e st'
  end.

(** The state in which the [while] loop is entered: the children of the
    commands have been spawned and [procs] holds them. *)
Definition started (w : os) (argvs : list (list string)) : state :=
  set_procs (map pid (children_of w 0 argvs))
    (spawned (children_of w 0 argvs) init).

(** No stream handed to [select] belongs to a process that [poll] had
    found terminated before, or had been closed before. *)
Definition selects_clean (tr : list event) : Prop :=
  forall tr1 now fds rlist tr2 p,
    tr = (tr1 ++ EvSelect now fds rlist :: tr2)%list ->
    In p fds ->
    (forall rc, ~ In (EvPoll p (Some rc)) tr1) /\ ~ In (EvClose p) tr1.

(** A process that [poll] finds terminated is read to the end, closed
    and removed from [procs] at once, before any other call. *)
Definition reaps_at_once (tr : list event) : Prop :=
  forall tr1 p rc tr2,
    tr = (tr1 ++ EvPoll p (Some rc) :: tr2)%list ->
    exists text l tr3,
      tr2 = EvRead p text :: EvClose p :: EvProcs l :: tr3
      /\ ~ In p l
      /\ (forall now fds rlist, In (EvSelect now fds rlist) tr3 ->
                                ~ In p fds).


End Loop.

(** ** Concrete machines, used in the examples of Part II *)

Module Examples.
Import Py Pproc Pwgen.

Definition laptop : machine :=
  {| settings := {| password_master := None; conf_device := false;
                    conf_salt := EmptyString |};
     device_uuid := "6fa459ea-ee8a-3ca4-894e-db77e160355e" |}.

Definition desktop : machine :=
  {| settings :=
       {| password_master :=
            Some "/FtgPfPTF2MIM6M2CZjF/QcAhqodiQ03BarKNmIpsYo=";
          conf_device := false; conf_salt := EmptyString |};
     device_uuid := "886313e1-3b8a-5372-9b90-0c9aee199e5d" |}.

Definition example_args : arguments :=
  {| domain := ["example.com"]; salt := "salt"; device := false |}.

(** A machine on which [echo] writes its arguments and a line feed,
    [printf] writes its first argument as it is, and no other program
    exists.  The [n]-th child is seen terminated from instant [n + 2]
    on; every stream is reported ready. *)
Definition echo_os : os :=
  {| first_pid := 100;
     exec := fun n argv =>
       match argv with
       | "echo" :: rest =>
           Some {| writes := join " " rest ++ str1 LF; garbled := None;
                   exit_at := Some (n + 2); status := 0 |}
       | "printf" :: text :: _ =>
           Some {| writes := text; garbled := None;
                   exit_at := Some (n + 2); status := 0 |}
       | _ => None
       end;
     ready := fun _ _ => true;
     decodes_ahead := fun _ _ => false |}.

(** A machine on which every child has terminated by the time it is
    first polled. *)
Definition prompt_os : os :=
  {| first_pid := 100;
     exec := fun n argv =>
       match argv with
       | "echo" :: rest =>
           Some {| writes := join " " rest ++ str1 LF; garbled := None;
                   exit_at := Some 0; status := 0 |}
       | _ => None
       end;
     ready := fun _ _ => true;
     decodes_ahead := fun _ _ => false |}.

(** A machine on which the first child runs until instant 10, the others
    have terminated when first polled, and [select] reports no stream
    but that of pid 101. *)
Definition late_first_os : os :=
  {| first_pid := 100;
     exec := fun n argv =>
       match argv with
       | "echo" :: rest =>
           Some {| writes := join " " rest ++ str1 LF; garbled := None;
                   exit_at := Some (if n =? 0 then 10 else 0);
                   status := 0 |}
       | _ => None
       end;
     ready := fun _ p => p =? 101;
     decodes_ahead := fun _ _ => false |}.



End Examples.

(** ** [bin/requires.py]: [packages], [requires] and the main function *)

Module RequiresFile.
Import Py Requires.

(** Arguments that may be in the requirements.txt. *)
Definition reqargs : list string :=
  ["-r"; "--requirement"; "-Z"; "--always-unzip"; "-f"; "--find-links";
   "-i"; "--index-url"; "--extra-index-url"].

(** *** The dict [installed]

    Names to dependency strings, in insertion order.  Only the order of
    [values()] between dependencies that differ by case alone depends on
    that order. *)
Definition dict : Type := list (string * string).

(** [d.get(k)], which is not [None] exactly when [k in d]. *)
Fixpoint dict_get (k : string) (d : dict) : option string :=
  match d with
  | [] => None
  | (k', v) :: d' => if String.eqb k k' then Some v else dict_get k d'
  end.

(** [d[k] = v] *)
Fixpoint dict_set (k v : string) (d : dict) : dict :=
  match d with
  | [] => [(k, v)]
  | (k', v') :: d' =>
      if String.eqb k k' then (k', v) :: d' else (k', v') :: dict_set k v d'
  end.

(** What is left of [d] after [d.pop(k)]. *)
Fixpoint dict_pop (k : string) (d : dict) : dict :=
  match d with
  | [] => []
  | (k', v) :: d' =>
      if String.eqb k k' then d' else (k', v) :: dict_pop k d'
  end.

Definition dict_values (d : dict) : list string := map snd d.

(** [dict(items)] *)
Definition dict_of (items : list (string * string)) : dict :=
  fold_left (fun d kv => dict_set (fst kv) (snd kv) d) items [].

(** *** [sorted(values, key=lambda x: x.lower())] *)

Definition lower_char (c : ascii) : ascii :=
  if (65 <=? ord c) && (ord c <=? 90) then chr (ord c + 32) else c.

Fixpoint lower (s : string) : string :=
  match s with
  | EmptyString => EmptyString
  | String c s' => String (lower_char c) (lower s')
  end.

(** [x] goes before the first element whose key is not below its own:
    the sort is stable. *)
Fixpoint insert_sorted (x : string) (l : list string) : list string :=
  match l with
  | [] => [x]
  | y :: l' =>
      if String.leb (lower x) (lower y) then x :: y :: l'
      else y :: insert_sorted x l'
  end.

Fixpoint sorted (l : list string) : list string :=
  match l with
  | [] => []
  | x :: l' => insert_sorted x (sorted l')
  end.

(** *** The functions *)

(** [packages()], over the output of pip freeze. *)
Fixpoint packages (frozen : list string) : result (list (string * string)) :=
  match frozen with
  | [] => Ok []
  | dep :: rest =>
      bind (parse dep) (fun item =>
      bind (packages rest) (fun items => Ok (item :: items)))
  end.

Definition added_header : string :=
  str1 (chr 10) ++ "## The following requirements were added by pip freeze:".

Definition removed_header : string :=
  str1 (chr 10) ++ "## The following requirements are no longer installed:".

(** The variables of [requires] inside the loop over the file: the dict
    [installed], the list [removed], and what has been yielded. *)
Record vars : Type := {
  installed : dict;
  removed : list string;
  yielded : list string
}.

Definition yield (s : string) (v : vars) : vars :=
  {| installed := installed v; removed := removed v;
     yielded := yielded v ++ [s] |}.

Definition yield_popped (name : string) (s : string) (v : vars) : vars :=
  {| installed := dict_pop name (installed v); removed := removed v;
     yielded := yielded v ++ [s] |}.

(** ["#{}".format(s)] *)
Definition commented (s : string) : string := "#" ++ s.

(** The body of [for line in rf]. *)
Definition read_line (v : vars) (raw : string) : result vars :=
  let line := strip raw in
  if String.eqb line EmptyString || existsb (startswith line) reqargs then
    Ok (yield line v)
  else if startswith line "#" then
    let comment := lstrip_set "# " line in
    bind (parse comment) (fun parsed =>
      let name := fst parsed in
      match dict_get name (installed v) with
      | Some dep => Ok (yield_popped name (commented dep) v)
      | None => Ok (yield line v)
      end)
  else
    bind (parse line) (fun parsed =>
      let name := fst parsed in
      match dict_get name (installed v) with
      | Some dep => Ok (yield_popped name dep v)
      | None =>
          Ok {| installed := installed v; removed := removed v ++ [name];
                yielded := yielded v |}
      end).

Fixpoint read_lines (v : vars) (lines : list string) : result vars :=
  match lines with
  | [] => Ok v
  | raw :: rest => bind (read_line v raw) (fun v' => read_lines v' rest)
  end.

(** What is yielded after the file: the dependencies left, sorted, and
    the requirements that are no longer installed. *)
Definition tail_lines (v : vars) : list string :=
  (sorted (dict_values (installed v))
   ++ match removed v with
      | [] => []
      | _ :: _ => removed_header :: map commented (removed v)
      end)%list.

(** [list(requires(args))]: [frozen] is the output of pip freeze,
    [reqfile] the lines of the requirements file when it exists. *)
Definition requires (frozen : list string) (reqfile : option (list string))
  : result (list string) :=
  bind (packages frozen) (fun items =>
    let start := {| installed := dict_of items; removed := [];
                    yielded := [] |} in
    match reqfile with
    | Some lines =>
        bind (read_lines start lines) (fun v =>
          let v' := match installed v with
                    | [] => v
                    | _ :: _ => yield added_header v
                    end in
          Ok (yielded v' ++ tail_lines v')%list)
    | None => Ok (yielded start ++ tail_lines start)%list
    end).

(** What [main] writes to the output. *)
Definition main (frozen : list string) (reqfile : option (list string))
  : result string :=
  bind (requires frozen reqfile) (fun output =>
    Ok (join (str1 (chr 10)) output ++ str1 (chr 10))).

(** What the loop over the file never undoes: a line that was yielded,
    a name that was put aside as removed, the absence of a name from
    [installed]; and a dependency leaves [installed] only to be yielded,
    as it is or as a comment. *)
Record grows (v v' : vars) : Prop := {
  grows_yielded : forall s, In s (yielded v) -> In s (yielded v');
  grows_removed : forall s, In s (removed v) -> In s (removed v');
  grows_absent : forall n,
    dict_get n (installed v) = None -> dict_get n (installed v') = None;
  grows_kept : forall dep,
    In dep (dict_values (installed v)) ->
    In dep (dict_values (installed v'))
    \/ In dep (yielded v') \/ In (commented dep) (yielded v')
}.

(** A line of the file that is kept as it is: blank, or an argument. *)
Definition kept_line (line : string) : bool :=
  String.eqb line EmptyString || existsb (startswith line) reqargs.

(** A dependency string of an editable install. *)
Definition editable (dep : string) : bool :=
  startswith dep "-e" || startswith dep "--editable".

(** The characters of the version operators. *)
Definition operator_char (c : ascii) : bool := char_in c "=<>!~".

Fixpoint plain (s : string) : bool :=
  match s with
  | EmptyString => true
  | String c s' => negb (operator_char c) && plain s'
  end.

(** Sorted by lower-cased text. *)
Definition key_le (x y : string) : Prop :=
  String.leb (lower x) (lower y) = true.

End RequiresFile.

(** ** [bin/pwgen.py]: [Configure.handle] *)

Module PwgenConfigure.
Import Py Pwgen.

(** The parsed arguments of [config]. *)
Record config_arguments : Type := {
  show : bool;
  output : string
}.

(** What [Configure.handle] returns and does: the settings as text, or
    the settings written to [path] with the time of the configuration,
    and the message. *)
Inductive configured : Type :=
| Shown (text : string)
| Written (path : string) (new_settings : configuration)
    (last_configured : string) (message : string).

Section Configure.

Variable m : machine.
(** [str(settings)], which the confire library defines. *)
Variable str_settings : configuration -> string.
(** [datetime.now()] *)
Variable now : string.

Definition configure_handle (args : config_arguments) : T configured :=
  if show args then ret (Shown (str_settings (settings m)))
  else
    password <- get_password m recursion_limit 0
                  (password_master (settings m)) ;;
    let master := get_device m ++ password in
    ret (Written (output args)
           {| password_master := Some (encode_password master);
              conf_device := conf_device (settings m);
              conf_salt := conf_salt (settings m) |}
           now
           ("Configured settings in " ++ output args)).

End Configure.

(** The passphrase lines of one failed attempt on a machine without a
    stored master: the two entries differ, and the second is not the
    encoding of the first. *)
Definition mismatch (m : machine) (first second : string) : Prop :=
  confirm_password m (strip first) (strip second) = false.

(** What is typed at the prompts of failed attempts on a machine without
    a stored master: two lines for each attempt. *)
Definition typed_pairs (pairs : list (string * string)) : list string :=
  flat_map (fun pair => [fst pair; snd pair]) pairs.

Definition try_again : string :=
  "Password doesn't match configuration or confirmation, try again.".

Definition attempt_maximum : string :=
  "Password attempt maximum, stretch fingers and try again!".

End PwgenConfigure.

(* ===================================================================== *)
(** * Part II.  Properties                                                *)
(* ===================================================================== *)

Import Py.

(** ** Strings *)

Lemma append_nil_r (s : string) : s ++ EmptyString = s.
Proof. induction s as [|c s IH]; cbn; [|rewrite IH]; reflexivity. Qed.

Lemma append_assoc (s1 s2 s3 : string) :
  (s1 ++ s2) ++ s3 = s1 ++ (s2 ++ s3).
Proof. induction s1 as [|c s1 IH]; cbn; [|rewrite IH]; reflexivity. Qed.

(** ** Names that are never bound: [pprint] and [parse] *)

Lemma pproc_p_unbound :
  load_global Pproc.module_globals builtins "p" = Raise (NameError "p").
Proof. vm_compute. reflexivity. Qed.

Lemma requires_line_unbound :
  Requires.load_str "line" = Raise (NameError "line").
Proof. vm_compute. reflexivity. Qed.

(** C8.  Whatever its argument and whatever the state it is called in,
    [pprint] raises the NameError of the name [p] and leaves the state as
    it found it: nothing is read and nothing is printed. *)
Theorem pprint_raises_NameError :
  forall (proc : nat) (st : Pproc.state),
    Pproc.pprint proc st = (Raise (NameError "p"), st).
Proof.
  intros proc st. unfold Pproc.pprint, mbind, lift.
  rewrite pproc_p_unbound. reflexivity.
Qed.

(** C9.  Every dependency string that starts with -e or with --editable
    makes [parse] raise the NameError of the name [line]. *)
Theorem parse_editable_raises_NameError :
  forall dep : string,
    startswith dep "-e" = true \/ startswith dep "--editable" = true ->
    Requires.parse dep = Raise (NameError "line").
Proof.
  intros dep H. unfold Requires.parse.
  destruct (startswith dep "-e") eqn:Eshort;
    destruct (startswith dep "--editable") eqn:Elong; cbn [orb];
    rewrite ?requires_line_unbound; try reflexivity.
  destruct H; discriminate.
Qed.

Lemma parse_editable_witness :
  Requires.parse "-e git+https://github.com/bbengfort/toolkit.git#egg=toolkit"
  = Raise (NameError "line")
  /\ Requires.parse "--editable=../toolkit" = Raise (NameError "line").
Proof.
  split.
  - apply parse_editable_raises_NameError. left. reflexivity.
  - apply parse_editable_raises_NameError. right. reflexivity.
Defined.

(** A dependency that is not editable is parsed. *)
Example parse_pinned :
  Requires.parse "PyYAML==3.11" = Ok ("PyYAML", "PyYAML==3.11").
Proof. reflexivity. Qed.

(** ** The password generator *)

Import Pwgen Examples.

(** The digest and its encoding agree with [hashlib] and [base64] on
    the usual test vectors. *)
Example sha256_abc :
  hex_of_bytes (sha256 "abc")
  = "ba7816bf8f01cfea414140de5dae2223b00361a396177a9cb410ff61f20015ad".
Proof. vm_compute. reflexivity. Qed.

Example encode_password_abc :
  encode_password "abc" = "ungWv48Bz+pBQUDeXa4iI7ADYaOWF3qctBD/YfIAFa0=".
Proof. vm_compute. reflexivity. Qed.

Example encode_password_two_blocks :
  encode_password
    "aaaaaaaaaaaaaaaaaaaaaaaaaaaaaaaaaaaaaaaaaaaaaaaaaaaaaaaaaaaaaaaa"
  = "/+BU/nrgy23GXDr5th1SCfQ5hR20PQulmXM33xVGaOs=".
Proof. vm_compute. reflexivity. Qed.

(** The base string [handle] hashes. *)
Lemma handle_result :
  forall (m : machine) (a : arguments) (t t' : tty) (master d : string)
         (rest : list string),
    domain a = d :: rest ->
    get_password m recursion_limit 0 (password_master (settings m)) t
      = (Ok master, t') ->
    handle m a t
    = (Ok (b64encode
             (sha256 (if device a
                      then (d ++ salt a ++ master) ++ device_uuid m
                      else d ++ salt a ++ master))), t').
Proof.
  intros m a t t' master d rest Hd Hpw.
  unfold handle. rewrite Hd. unfold mbind. rewrite Hpw.
  unfold ret, encode_password, get_device.
  destruct (device a); reflexivity.
Qed.

(** C10.  Two runs of [Generate.handle] in which [get_password] hands
    back the same master password, with the same domain, the same salt,
    the same device flag and, when the flag is set, the same device UUID,
    return the same encoded password; and that password is the Base64
    encoding of the SHA-256 digest of the base string, the domain, the
    salt, the master password and, when the flag is set, the device UUID,
    in this order. *)
Theorem handle_deterministic :
  forall (m1 m2 : machine) (a1 a2 : arguments) (t1 t1' t2 t2' : tty)
         (master : string),
    get_password m1 recursion_limit 0 (password_master (settings m1)) t1
      = (Ok master, t1') ->
    get_password m2 recursion_limit 0 (password_master (settings m2)) t2
      = (Ok master, t2') ->
    domain a1 = domain a2 ->
    salt a1 = salt a2 ->
    device a1 = device a2 ->
    (device a1 = true -> device_uuid m1 = device_uuid m2) ->
    fst (handle m1 a1 t1) = fst (handle m2 a2 t2)
    /\ (forall d rest, domain a1 = d :: rest ->
        fst (handle m1 a1 t1)
        = Ok (b64encode
                (sha256 (d ++ salt a1 ++ master
                           ++ (if device a1 then device_uuid m1
                               else EmptyString))))).
Proof.
  intros m1 m2 a1 a2 t1 t1' t2 t2' master H1 H2 Hdom Hsalt Hdev Huuid.
  split.
  - destruct (domain a1) as [|d rest] eqn:Hd1.
    + unfold handle. rewrite Hd1, <- Hdom. reflexivity.
    + rewrite (handle_result m1 a1 t1 t1' master d rest Hd1 H1).
      symmetry in Hdom.
      rewrite (handle_result m2 a2 t2 t2' master d rest Hdom H2).
      rewrite <- Hsalt, <- Hdev. cbn [fst].
      destruct (device a1); [rewrite Huuid by reflexivity|]; reflexivity.
  - intros d rest Hd1.
    rewrite (handle_result m1 a1 t1 t1' master d rest Hd1 H1). cbn [fst].
    destruct (device a1).
    + rewrite !append_assoc. reflexivity.
    + rewrite append_nil_r. reflexivity.
Qed.

Lemma handle_deterministic_witness :
  fst (handle laptop example_args
         {| typed := ["secret "; "secret"]; printed := [] |})
  = fst (handle desktop example_args
           {| typed := ["secret"]; printed := [] |})
  /\ (forall d rest, domain example_args = d :: rest ->
      fst (handle laptop example_args
             {| typed := ["secret "; "secret"]; printed := [] |})
      = Ok (b64encode
              (sha256 (d ++ salt example_args ++ "secret"
                         ++ (if device example_args then device_uuid laptop
                             else EmptyString))))).
Proof.
  apply (handle_deterministic laptop desktop example_args example_args
           {| typed := ["secret "; "secret"]; printed := [] |}
           {| typed := []; printed := [] |}
           {| typed := ["secret"]; printed := [] |}
           {| typed := []; printed := [] |}
           "secret").
  - vm_compute. reflexivity.
  - vm_compute. reflexivity.
  - reflexivity.
  - reflexivity.
  - reflexivity.
  - intros H. discriminate H.
Defined.

(** ** The tokenizer *)

Import Shlex Quoting.

Example split_plain : split "echo hello" = Ok ["echo"; "hello"].
Proof. reflexivity. Qed.

Example split_quoted : split "echo 'a b' c" = Ok ["echo"; "a b"; "c"].
Proof. reflexivity. Qed.

Example split_escapes :
  split "a\ b 'x\y' ''" = Ok ["a b"; "x\y"; EmptyString].
Proof. reflexivity. Qed.

Example split_unterminated :
  split "echo 'unterminated" = Raise (ValueError "No closing quotation").
Proof. reflexivity. Qed.

Example split_dangling_escape :
  split "echo \" = Raise (ValueError "No escaped character").
Proof. reflexivity. Qed.

Lemma emits_finish (token : string) (quoted : bool) :
  emits token quoted = true -> finish token quoted = Some token.
Proof.
  unfold emits, finish.
  destruct (String.eqb token EmptyString), quoted; cbn; congruence.
Qed.

Ltac char_cases c :=
  destruct (Ascii.eqb_spec c " ");
  [subst c|destruct (Ascii.eqb_spec c (chr 9));
   [subst c|destruct (Ascii.eqb_spec c (chr 13));
    [subst c|destruct (Ascii.eqb_spec c (chr 10));
     [subst c|destruct (Ascii.eqb_spec c "'");
      [subst c|destruct (Ascii.eqb_spec c dquote);
       [subst c|destruct (Ascii.eqb_spec c "\");
        [subst c|]]]]]]].

(** The lexer, started in the state that goes with a quoting state,
    returns tokens on a text the quote scanner ends outside quotes on,
    and raises on the others: for want of a closing quotation inside
    quotes, for want of an escaped character after a backslash. *)
Lemma lex_follows_scan (s : string) :
  forall q state escapedstate token quoted acc,
    lexer_at q state escapedstate ->
    lex_outcome (quote_scan q s) (lex state token quoted escapedstate acc s).
Proof.
  induction s as [|c rest IH]; intros q state esc token quoted acc Hat.
  - destruct q; cbn in Hat; cbn [quote_scan lex_outcome].
    + destruct Hat as [-> | ->]; cbn; destruct (finish token quoted); eauto.
    + subst state. reflexivity.
    + subst state. reflexivity.
    + destruct Hat as [-> ->]. reflexivity.
    + destruct Hat as [-> ->]. reflexivity.
  - cbn [quote_scan].
    destruct q; cbn [lexer_at] in Hat.
    + (* outside quotes *)
      destruct Hat as [-> | ->]; cbn [lex];
        unfold whitespace, quotes, escape, str1;
        cbn [char_in qstep];
        char_cases c; cbn [orb andb];
        try (destruct (emits token quoted) eqn:Hem;
             [rewrite (emits_finish _ _ Hem)|]);
        apply IH; cbn; now auto.
    + (* inside single quotes *)
      subst state. cbn [lex].
      unfold escape, escapedquotes, str1; cbn [char_in qstep].
      destruct (Ascii.eqb_spec c "'").
      * subst c. apply IH. cbn. auto.
      * destruct (Ascii.eqb_spec c "\");
          cbn [orb andb]; apply IH; cbn; auto.
    + (* inside double quotes *)
      subst state. cbn [lex].
      unfold escape, escapedquotes, str1; cbn [char_in qstep].
      destruct (Ascii.eqb_spec c dquote).
      * subst c. apply IH. cbn. auto.
      * destruct (Ascii.eqb_spec c "\"); [subst c|];
          cbn [orb andb]; rewrite ?Ascii.eqb_refl; cbn [orb andb];
          apply IH; cbn; auto.
    + (* after a backslash, outside quotes *)
      destruct Hat as [-> ->]. cbn [lex is_quote_state andb qstep].
      apply IH. cbn. auto.
    + (* after a backslash, inside double quotes *)
      destruct Hat as [-> ->]. cbn [lex qstep].
      apply IH. cbn. auto.
Qed.

Lemma split_follows_scan (s : string) :
  lex_outcome (quote_scan Unquoted s) (split s).
Proof. apply lex_follows_scan. cbn. auto. Qed.

(** A command string with an unterminated quote does not tokenize. *)
Lemma split_unterminated_quote (s : string) :
  unterminated_quote s = true ->
  exists e, split s = Raise e /\ tokenization_error e.
Proof.
  intros H. assert (Hs := split_follows_scan s).
  unfold unterminated_quote in H.
  destruct (quote_scan Unquoted s); try discriminate; cbn in Hs;
    rewrite Hs; eexists; (split; [reflexivity|]);
    [left | left | right]; reflexivity.
Qed.

(** A command string tokenizes if and only if it ends outside quotes and
    not on a backslash. *)
Lemma split_ok_iff (s : string) :
  (exists tokens, split s = Ok tokens) <-> quote_scan Unquoted s = Unquoted.
Proof.
  assert (Hs := split_follows_scan s).
  destruct (quote_scan Unquoted s); cbn in Hs.
  - tauto.
  - rewrite Hs. split; [intros [t Ht]|]; discriminate.
  - rewrite Hs. split; [intros [t Ht]|]; discriminate.
  - rewrite Hs. split; [intros [t Ht]|]; discriminate.
  - rewrite Hs. split; [intros [t Ht]|]; discriminate.
Qed.

(** The tokenizer raises nothing but its two errors. *)
Lemma lex_raises_tokenization_error (s : string) :
  forall state token quoted escapedstate acc e,
    lex state token quoted escapedstate acc s = Raise e ->
    tokenization_error e.
Proof.
  induction s as [|c rest IH]; intros state token quoted esc acc e H.
  - destruct state; cbn in H; try discriminate;
      try (destruct (finish token quoted); discriminate);
      inversion H; [left | right]; reflexivity.
  - destruct state; cbn [lex] in H;
      repeat match type of H with
             | context [if ?b then _ else _] => destruct b
             | context [match finish ?t ?q with _ => _ end] =>
                 destruct (finish t q)
             end;
      try discriminate; eapply IH; exact H.
Qed.

Lemma split_raises_tokenization_error (s : string) (e : exn) :
  split s = Raise e -> tokenization_error e.
Proof. apply lex_raises_tokenization_error. Qed.

Lemma tokenize_raises_tokenization_error (commands : list string) (e : exn) :
  Pproc.tokenize commands = Raise e -> tokenization_error e.
Proof.
  induction commands as [|c rest IH]; cbn; [discriminate|].
  destruct (split c) eqn:Hc; cbn.
  - destruct (Pproc.tokenize rest); cbn; [discriminate|].
    intros H. apply IH. exact H.
  - intros H. inversion H. subst. eapply split_raises_tokenization_error; eauto.
Qed.

(** One command that does not tokenize is enough for the whole batch
    not to. *)
Lemma tokenize_bad_command (commands : list string) (s : string) :
  In s commands ->
  (exists e, split s = Raise e) ->
  exists e, Pproc.tokenize commands = Raise e /\ tokenization_error e.
Proof.
  intros Hin [e0 He0].
  assert (H : exists e, Pproc.tokenize commands = Raise e).
  { induction commands as [|c rest IH]; [contradiction|].
    cbn. destruct Hin as [-> | Hin].
    - rewrite He0. cbn. eauto.
    - destruct (split c); cbn; [|eauto].
      destruct (IH Hin) as [e He]. rewrite He. cbn. eauto. }
  destruct H as [e He]. exists e. split; [exact He|].
  eapply tokenize_raises_tokenization_error; eauto.
Qed.

(** ** [execute]: what happens before the loop *)

Import Pproc.

(** C4.  When one string of the batch, wherever it stands, has an
    unterminated quote, [execute] raises a tokenization error (the
    ValueError of the tokenizer) and leaves the state as it found it: no
    process has been spawned and nothing has been printed.  This holds in
    debug mode too.  [tokenize] is a function of the command strings
    alone. *)
Theorem execute_unterminated_quote_raises :
  forall (w : os) (fuel : nat) (commands : list string) (debug : bool)
         (timeout : seconds) (st : state),
    (exists s, In s commands /\ unterminated_quote s = true) ->
    exists e,
      execute w fuel commands debug timeout st = (Raise e, st)
      /\ tokenization_error e
      /\ tokenize commands = Raise e.
Proof.
  intros w fuel commands debug timeout st [s [Hin Hs]].
  destruct (split_unterminated_quote s Hs) as [e0 [He0 _]].
  destruct (tokenize_bad_command commands s Hin (ex_intro _ e0 He0))
    as [e [He Hkind]].
  exists e. split; [|split; assumption].
  unfold execute, mbind, lift. rewrite He. reflexivity.
Qed.

Lemma execute_unterminated_quote_witness :
  exists e,
    execute echo_os 10 ["echo one"; "echo 'unterminated"; "echo three"]
      false (Finite 100) init = (Raise e, init)
    /\ tokenization_error e
    /\ tokenize ["echo one"; "echo 'unterminated"; "echo three"] = Raise e.
Proof.
  apply (execute_unterminated_quote_raises echo_os 10
           ["echo one"; "echo 'unterminated"; "echo three"] false (Finite 100) init).
  exists "echo 'unterminated". split.
  - cbn. auto.
  - reflexivity.
Defined.

Lemma state_eta (st : state) :
  {| clock := clock st; heap := heap st; procs := procs st;
     out := out st; trace := trace st |} = st.
Proof. destruct st; reflexivity. Qed.

Lemma tokenize_length (commands : list string) (argvs : list (list string)) :
  tokenize commands = Ok argvs -> List.length argvs = List.length commands.
Proof.
  revert argvs. induction commands as [|c rest IH]; intros argvs; cbn.
  - intros H. inversion H. reflexivity.
  - destruct (split c); cbn; [|discriminate].
    destruct (tokenize rest); cbn; [|discriminate].
    intros H. inversion H. cbn. f_equal. apply IH. reflexivity.
Qed.

Lemma tokenize_nth (commands : list string) (argvs : list (list string)) :
  tokenize commands = Ok argvs ->
  forall i command,
    nth_error commands i = Some command ->
    exists argv, nth_error argvs i = Some argv /\ split command = Ok argv.
Proof.
  revert argvs. induction commands as [|c rest IH]; intros argvs H i command Hi.
  - destruct i; discriminate.
  - cbn in H. destruct (split c) eqn:Hc; cbn in H; [|discriminate].
    destruct (tokenize rest) eqn:Hrest; cbn in H; [|discriminate].
    inversion H; subst. destruct i as [|i]; cbn in *.
    + inversion Hi; subst. eauto.
    + eapply IH; eauto.
Qed.

(** Debug mode prints one line per command. *)
Lemma debug_prints (argvs : list (list string)) (st : state) :
  iterM (fun command => print_from None (repr_list command ++ str1 LF))
    argvs st
  = (Ok tt, printed_lines (map (fun a => repr_list a ++ str1 LF) argvs) st).
Proof.
  revert st. induction argvs as [|a rest IH]; intros st.
  - cbn. unfold ret, printed_lines. cbn. rewrite app_nil_r, state_eta.
    reflexivity.
  - cbn [iterM]. unfold mbind at 1. unfold print_from at 1.
    rewrite IH. unfold printed_lines, write_out. cbn.
    rewrite <- app_assoc. reflexivity.
Qed.

Lemma execute_debug_run (w : os) (fuel : nat) (commands : list string)
    (timeout : seconds) (argvs : list (list string)) (st : state) :
  tokenize commands = Ok argvs ->
  execute w fuel commands true timeout st
  = (Ok Returned,
     printed_lines (map (fun a => repr_list a ++ str1 LF) argvs) st).
Proof.
  intros Htok. unfold execute. unfold mbind at 1. unfold lift. rewrite Htok.
  unfold mbind. rewrite debug_prints. reflexivity.
Qed.

(** C5, as the code has it.  For every command list that tokenizes,
    [execute] in debug mode prints the [repr] of the argv of every
    command, one line each and in input order, changes nothing else in
    the state (no process is spawned, no system call is made), and
    returns, after which the main block exits with status 0. *)
Theorem execute_debug_prints_argv :
  forall (w : os) (fuel : nat) (commands : list string) (timeout : seconds)
         (argvs : list (list string)),
    tokenize commands = Ok argvs ->
    execute w fuel commands true timeout init
    = (Ok Returned,
       printed_lines (map (fun a => repr_list a ++ str1 LF) argvs) init)
    /\ List.length argvs = List.length commands
    /\ fst (main w fuel commands true timeout) = Exit 0 None.
Proof.
  intros w fuel commands timeout argvs Htok.
  assert (Hex : execute w fuel commands true timeout init
                = (Ok Returned,
                   printed_lines (map (fun a => repr_list a ++ str1 LF) argvs)
                     init)).
  { apply execute_debug_run. exact Htok. }
  split; [exact Hex|]. split; [eapply tokenize_length; eauto|].
  unfold main. rewrite Hex. reflexivity.
Qed.

Lemma execute_debug_witness :
  execute echo_os 10 ["echo hello"; "echo 'a b' c"] true (Finite 100) init
  = (Ok Returned,
     printed_lines
       (map (fun a => repr_list a ++ str1 LF)
          [["echo"; "hello"]; ["echo"; "a b"; "c"]]) init)
  /\ List.length [["echo"; "hello"]; ["echo"; "a b"; "c"]]
     = List.length ["echo hello"; "echo 'a b' c"]
  /\ fst (main echo_os 10 ["echo hello"; "echo 'a b' c"] true (Finite 100))
     = Exit 0 None.
Proof.
  apply (execute_debug_prints_argv echo_os 10
           ["echo hello"; "echo 'a b' c"] (Finite 100)
           [["echo"; "hello"]; ["echo"; "a b"; "c"]]).
  reflexivity.
Defined.

(** The two lines of that run, as they appear on the terminal. *)
Example debug_output :
  stdout_text
    (snd (execute echo_os 10 ["echo hello"; "echo 'a b' c"] true (Finite 100) init))
  = "['echo', 'hello']" ++ str1 LF ++ "['echo', 'a b', 'c']" ++ str1 LF.
Proof. reflexivity. Qed.

(** C5 as the specification words it fails on a command list that does
    not tokenize: debug mode prints nothing then, and the main block
    exits with status 2. *)
Lemma execute_debug_counterexample :
  execute echo_os 10 ["echo hello"; "echo 'a b"] true (Finite 100) init
  = (Raise (ValueError "No closing quotation"), init)
  /\ main echo_os 10 ["echo hello"; "echo 'a b"] true (Finite 100)
     = (Exit 2 (Some "No closing quotation"), init).
Proof. split; reflexivity. Qed.

(** *** Spawning *)

Lemma spawned_nil (st : state) : spawned [] st = st.
Proof.
  unfold spawned, spawn_events. cbn. rewrite !app_nil_r. apply state_eta.
Qed.

Lemma spawned_cons (c : popen) (l : list popen) (st : state) :
  spawned l (spawned [c] st) = spawned (c :: l) st.
Proof.
  unfold spawned, spawn_events. cbn.
  rewrite <- !app_assoc. cbn. f_equal. lia.
Qed.

Lemma Popen_spawns (w : os) (exe : string) (rest : list string)
    (b : behaviour) (st : state) :
  exec w (List.length (heap st)) (exe :: rest) = Some b ->
  Popen w (exe :: rest) st
  = (Ok (first_pid w + List.length (heap st)),
     spawned [new_child w (List.length (heap st)) (exe :: rest) b] st).
Proof. intros H. unfold Popen. rewrite H. reflexivity. Qed.

Lemma all_spawn_tail (w : os) (n : nat) (argv : list string)
    (argvs : list (list string)) :
  all_spawn w n (argv :: argvs) -> all_spawn w (S n) argvs.
Proof.
  intros H i a Hi. specialize (H (S i) a Hi).
  replace (S n + i) with (n + S i) by lia. exact H.
Qed.

Lemma all_spawn_head (w : os) (n : nat) (argv : list string)
    (argvs : list (list string)) :
  all_spawn w n (argv :: argvs) ->
  exists exe rest b, argv = exe :: rest /\ exec w n argv = Some b.
Proof.
  intros H. destruct (H 0 argv eq_refl) as [Hne Hex].
  rewrite Nat.add_0_r in Hex.
  destruct argv as [|exe rest]; [congruence|].
  destruct (exec w n (exe :: rest)) as [b|] eqn:Hb; [|congruence].
  eauto.
Qed.

(** When every command spawns, the list comprehension creates one object
    per command, in order. *)
Lemma mapM_Popen_spawns (w : os) (argvs : list (list string)) :
  forall st,
    all_spawn w (List.length (heap st)) argvs ->
    mapM (Popen w) argvs st
    = (Ok (map pid (children_of w (List.length (heap st)) argvs)),
       spawned (children_of w (List.length (heap st)) argvs) st).
Proof.
  induction argvs as [|argv rest IH]; intros st Hall.
  - cbn. unfold ret. rewrite spawned_nil. reflexivity.
  - destruct (all_spawn_head _ _ _ _ Hall) as [exe [tl [b [-> Hb]]]].
    cbn [mapM children_of]. rewrite Hb.
    unfold mbind at 1. rewrite (Popen_spawns _ _ _ _ _ Hb).
    unfold mbind at 1.
    set (c := new_child w (List.length (heap st)) (exe :: tl) b).
    assert (Hlen : List.length (heap (spawned [c] st))
                   = S (List.length (heap st))).
    { cbn. rewrite length_app. cbn. lia. }
    rewrite IH; rewrite Hlen; [|eapply all_spawn_tail; eauto].
    unfold ret. rewrite spawned_cons. reflexivity.
Qed.

(** The list comprehension stops at the first command that does not
    spawn: the commands before it are running, none after it is
    started. *)
Lemma mapM_Popen_fails (w : os) (exe : string) (tl : list string)
    (post : list (list string)) (pre : list (list string)) :
  forall st,
    all_spawn w (List.length (heap st)) pre ->
    exec w (List.length (heap st) + List.length pre) (exe :: tl) = None ->
    mapM (Popen w) (pre ++ (exe :: tl) :: post) st
    = (Raise (FileNotFoundError exe),
       spawned (children_of w (List.length (heap st)) pre) st).
Proof.
  induction pre as [|argv rest IH]; intros st Hall Hbad.
  - cbn [app mapM children_of]. rewrite Nat.add_0_r in Hbad.
    unfold mbind, Popen. rewrite Hbad. rewrite spawned_nil. reflexivity.
  - destruct (all_spawn_head _ _ _ _ Hall) as [e1 [t1 [b [-> Hb]]]].
    cbn [app mapM children_of]. rewrite Hb.
    unfold mbind at 1. rewrite (Popen_spawns _ _ _ _ _ Hb).
    set (c := new_child w (List.length (heap st)) (e1 :: t1) b).
    assert (Hlen : List.length (heap (spawned [c] st))
                   = S (List.length (heap st))).
    { cbn. rewrite length_app. cbn. lia. }
    unfold mbind at 1.
    rewrite IH; rewrite Hlen.
    + rewrite spawned_cons. reflexivity.
    + eapply all_spawn_tail; eauto.
    + rewrite <- Hbad. f_equal. cbn. lia.
Qed.

Lemma children_of_args (w : os) (argvs : list (list string)) :
  forall n, all_spawn w n argvs -> map args (children_of w n argvs) = argvs.
Proof.
  induction argvs as [|argv rest IH]; intros n Hall; [reflexivity|].
  destruct (all_spawn_head _ _ _ _ Hall) as [exe [tl [b [-> Hb]]]].
  cbn [children_of]. rewrite Hb. cbn. f_equal.
  apply IH. eapply all_spawn_tail; eauto.
Qed.

Lemma children_of_pids (w : os) (argvs : list (list string)) :
  forall n, all_spawn w n argvs ->
            map pid (children_of w n argvs)
            = seq (first_pid w + n) (List.length argvs).
Proof.
  induction argvs as [|argv rest IH]; intros n Hall; [reflexivity|].
  destruct (all_spawn_head _ _ _ _ Hall) as [exe [tl [b [-> Hb]]]].
  cbn [children_of]. rewrite Hb. cbn. f_equal.
  rewrite IH by (eapply all_spawn_tail; eauto). f_equal. lia.
Qed.

(** C2, as the code has it.  When the commands tokenize and one of them
    names a program that cannot be started, the commands before it
    having been started, [execute] raises the error of that spawn: the
    commands before it are left running, no command after it is started,
    [procs] is never assigned, nothing is read from any child and nothing
    is printed; the main block reports the error and exits with
    status 2. *)
Theorem execute_spawn_failure_aborts :
  forall (w : os) (fuel : nat) (commands : list string) (timeout : seconds)
         (pre post : list (list string)) (exe : string) (tl : list string),
    tokenize commands = Ok (pre ++ (exe :: tl) :: post)%list ->
    all_spawn w 0 pre ->
    exec w (List.length pre) (exe :: tl) = None ->
    let st := spawned (children_of w 0 pre) init in
    execute w fuel commands false timeout init
      = (Raise (FileNotFoundError exe), st)
    /\ main w fuel commands false timeout
       = (Exit 2 (Some (str_exn (FileNotFoundError exe))), st)
    /\ map args (heap st) = pre
    /\ trace st = spawn_events (children_of w 0 pre)
    /\ procs st = []
    /\ out st = [].
Proof.
  intros w fuel commands timeout pre post exe tl Htok Hall Hbad st.
  assert (Hex : execute w fuel commands false timeout init
                = (Raise (FileNotFoundError exe), st)).
  { unfold execute. unfold mbind at 1. unfold lift. rewrite Htok.
    unfold mbind at 1.
    rewrite (mapM_Popen_fails w exe tl post pre init Hall Hbad).
    reflexivity. }
  split; [exact Hex|]. split; [unfold main; rewrite Hex; reflexivity|].
  subst st. cbn. repeat split.
  apply children_of_args. exact Hall.
Qed.

Lemma execute_spawn_failure_witness :
  let st := spawned (children_of echo_os 0 [["echo"; "one"]]) init in
  execute echo_os 10 ["echo one"; "no-such-program"; "echo three"] false (Finite 100)
    init
    = (Raise (FileNotFoundError "no-such-program"), st)
  /\ main echo_os 10 ["echo one"; "no-such-program"; "echo three"] false (Finite 100)
     = (Exit 2 (Some (str_exn (FileNotFoundError "no-such-program"))), st)
  /\ map args (heap st) = [["echo"; "one"]]
  /\ trace st = spawn_events (children_of echo_os 0 [["echo"; "one"]])
  /\ procs st = []
  /\ out st = [].
Proof.
  apply (execute_spawn_failure_aborts echo_os 10
           ["echo one"; "no-such-program"; "echo three"] (Finite 100)
           [["echo"; "one"]] [["echo"; "three"]] "no-such-program" []).
  - reflexivity.
  - intros [|[|i]] argv Hi; cbn in Hi; inversion Hi; subst.
    split; discriminate.
  - reflexivity.
Defined.

(** C2 as the specification words it fails: with a program that does
    not exist in second place, the third command is never started, the
    output of the first never reaches the combined stream, and the run
    is aborted with status 2. *)
Lemma execute_spawn_failure_counterexample :
  let run := main echo_os 10 ["echo one"; "no-such-program"; "echo three"]
               false (Finite 100) in
  fst run
  = Exit 2 (Some "[Errno 2] No such file or directory: 'no-such-program'")
  /\ trace (snd run) = [EvSpawn 100 ["echo"; "one"]]
  /\ map args (heap (snd run)) = [["echo"; "one"]]
  /\ stdout_text (snd run) = EmptyString.
Proof. cbv zeta. repeat split. Qed.

(** ** The heap and the process list *)

Import Loop.

Lemma find_proc_pid (p : nat) (h : list popen) (c : popen) :
  find_proc p h = Some c -> pid c = p.
Proof.
  induction h as [|d h IH]; cbn; [discriminate|].
  destruct (pid d =? p) eqn:E; [|exact IH].
  intros H. inversion H; subst. apply Nat.eqb_eq. exact E.
Qed.

Lemma find_proc_In (p : nat) (h : list popen) (c : popen) :
  find_proc p h = Some c -> In c h.
Proof.
  induction h as [|d h IH]; cbn; [discriminate|].
  destruct (pid d =? p); [|auto].
  intros H. inversion H. auto.
Qed.

Lemma In_find_proc (h : list popen) (c : popen) :
  NoDup (map pid h) -> In c h -> find_proc (pid c) h = Some c.
Proof.
  induction h as [|d h IH]; cbn; [contradiction|].
  intros Hnd [-> | Hin].
  - rewrite Nat.eqb_refl. reflexivity.
  - inversion Hnd as [|x l Hx Hl]; subst.
    destruct (pid d =? pid c) eqn:E; [|auto].
    apply Nat.eqb_eq in E. exfalso. apply Hx. rewrite E.
    apply in_map. exact Hin.
Qed.

Section Update.

Variables (p : nat) (f : popen -> popen).
Hypothesis f_pid : forall c, pid (f c) = pid c.

Lemma find_update_same (h : list popen) :
  find_proc p (update_proc p f h) = option_map f (find_proc p h).
Proof.
  induction h as [|c h IH]; cbn; [reflexivity|].
  destruct (pid c =? p) eqn:E; cbn.
  - rewrite f_pid, E. reflexivity.
  - rewrite E. exact IH.
Qed.

Lemma find_update_other (q : nat) (h : list popen) :
  q <> p -> find_proc q (update_proc p f h) = find_proc q h.
Proof.
  intros Hq. induction h as [|c h IH]; cbn; [reflexivity|].
  destruct (pid c =? p) eqn:E; cbn.
  - rewrite f_pid. apply Nat.eqb_eq in E.
    destruct (pid c =? q) eqn:E2; [|reflexivity].
    apply Nat.eqb_eq in E2. congruence.
  - destruct (pid c =? q); [reflexivity|exact IH].
Qed.

Lemma update_update (g : popen -> popen) (h : list popen) :
  update_proc p g (update_proc p f h) = update_proc p (fun c => g (f c)) h.
Proof.
  induction h as [|c h IH]; cbn; [reflexivity|].
  destruct (pid c =? p) eqn:E; cbn.
  - rewrite f_pid, E. reflexivity.
  - rewrite E, IH. reflexivity.
Qed.

Lemma ident_update (h : list popen) :
  (forall c, args (f c) = args c) -> (forall c, beh (f c) = beh c) ->
  ident (update_proc p f h) = ident h.
Proof.
  intros Ha Hb. unfold ident.
  induction h as [|c h IH]; cbn; [reflexivity|].
  destruct (pid c =? p); cbn.
  - rewrite f_pid, Ha, Hb. reflexivity.
  - rewrite IH. reflexivity.
Qed.

End Update.

Lemma ident_pids (h h' : list popen) :
  ident h = ident h' -> map pid h = map pid h'.
Proof.
  intros H. apply (f_equal (map (fun x => fst (fst x)))) in H.
  unfold ident in H. rewrite !map_map in H. exact H.
Qed.


(** What is said of the behaviours of the children holds of every heap
    with the same children. *)
Lemma ident_beh (h h' : list popen) (c : popen) :
  ident h' = ident h -> In c h' -> exists c0, In c0 h /\ beh c0 = beh c.
Proof.
  intros Hid Hc.
  assert (Hin : In (pid c, args c, beh c) (ident h')).
  { unfold ident. apply (in_map (fun c => (pid c, args c, beh c))).
    exact Hc. }
  rewrite Hid in Hin. unfold ident in Hin.
  apply in_map_iff in Hin. destruct Hin as [c0 [E Hc0]].
  injection E as _ _ Ebeh. exists c0. auto.
Qed.

Lemma all_decode_ident (h h' : list popen) :
  ident h' = ident h -> all_decode h -> all_decode h'.
Proof.
  intros Hid H c Hc. destruct (ident_beh h h' c Hid Hc) as [c0 [Hc0 <-]].
  apply H. exact Hc0.
Qed.


Lemma list_remove_In (p q : nat) (l : list nat) :
  In q (list_remove p l) -> In q l.
Proof.
  induction l as [|x l IH]; cbn; [auto|].
  destruct (x =? p); cbn; intuition.
Qed.

Lemma list_remove_In_other (p q : nat) (l : list nat) :
  q <> p -> In q l -> In q (list_remove p l).
Proof.
  intros Hq. induction l as [|x l IH]; cbn; [auto|].
  destruct (x =? p) eqn:E; cbn.
  - apply Nat.eqb_eq in E. intros [H | H]; [congruence|exact H].
  - intros [H | H]; auto.
Qed.

Lemma list_remove_NoDup (p : nat) (l : list nat) :
  NoDup l -> NoDup (list_remove p l).
Proof.
  induction l as [|x l IH]; cbn; intros H; [constructor|].
  inversion H as [|y l' Hx Hl]; subst.
  destruct (x =? p); [exact Hl|].
  constructor; [|auto].
  intros Hin. apply Hx. eapply list_remove_In; eauto.
Qed.

Lemma list_remove_not_In (p : nat) (l : list nat) :
  NoDup l -> ~ In p (list_remove p l).
Proof.
  induction l as [|x l IH]; cbn; intros H; [auto|].
  inversion H as [|y l' Hx Hl]; subst.
  destruct (x =? p) eqn:E.
  - apply Nat.eqb_eq in E. subst. exact Hx.
  - apply Nat.eqb_neq in E. cbn. intros [Heq | Hin]; [congruence|].
    exact (IH Hl Hin).
Qed.

Lemma list_remove_length (p : nat) (l : list nat) :
  List.length (list_remove p l) <= List.length l.
Proof.
  induction l as [|x l IH]; cbn; [lia|].
  destruct (x =? p); cbn; lia.
Qed.

Lemma existsb_eqb_In (p : nat) (l : list nat) :
  In p l -> existsb (Nat.eqb p) l = true.
Proof.
  intros H. apply existsb_exists. exists p. split; [exact H|].
  apply Nat.eqb_refl.
Qed.

(** ** The output *)

Lemma text_from_app (p : nat) (o1 o2 : list (option nat * string)) :
  text_from p (o1 ++ o2) = text_from p o1 ++ text_from p o2.
Proof.
  induction o1 as [|[[q|] s] o1 IH]; cbn; [reflexivity| |exact IH].
  destruct (q =? p); [|exact IH].
  rewrite IH, append_assoc. reflexivity.
Qed.

Lemma text_from_snoc_same (p : nat) (o : list (option nat * string))
    (s : string) :
  text_from p (o ++ [(Some p, s)]) = text_from p o ++ s.
Proof.
  rewrite text_from_app. cbn. rewrite Nat.eqb_refl, append_nil_r.
  reflexivity.
Qed.

Lemma text_from_snoc_other (p q : nat) (o : list (option nat * string))
    (s : string) :
  q <> p -> text_from p (o ++ [(Some q, s)]) = text_from p o.
Proof.
  intros H. rewrite text_from_app. cbn.
  apply Nat.eqb_neq in H. rewrite H, append_nil_r. reflexivity.
Qed.

Lemma split_line_append (s : string) :
  fst (split_line s) ++ snd (split_line s) = s.
Proof.
  induction s as [|c s IH]; [reflexivity|]. cbn [split_line].
  destruct (Ascii.eqb c LF); [reflexivity|].
  destruct (split_line s) as [l r]. cbn in *. rewrite IH. reflexivity.
Qed.

Lemma fragments_read_app (tr1 tr2 : list event) :
  fragments_read (tr1 ++ tr2)
  = (fragments_read tr1 ++ fragments_read tr2)%list.
Proof.
  induction tr1 as [|ev tr1 IH]; cbn; [reflexivity|].
  destruct ev; cbn; rewrite IH; reflexivity.
Qed.

(** ** The steps of the loop *)

(** Lines 77 to 80 on a child that is still running. *)
Lemma for_body_running (p : nat) (c : popen) (st : state) :
  find_proc p (heap st) = Some c ->
  returncode c = None ->
  exited (beh c) (clock st) = false ->
  for_body p st = (Ok tt, tick (EvPoll p None) st).
Proof.
  intros Hf Hrc Hrun. unfold for_body, mbind, poll. rewrite Hf, Hrc, Hrun.
  reflexivity.
Qed.

(** Lines 77 to 80 on a child that has terminated. *)
Lemma for_body_reaps (p : nat) (c : popen) (st : state) :
  find_proc p (heap st) = Some c ->
  returncode c = None ->
  closed c = false ->
  exited (beh c) (clock st) = true ->
  garbled (beh c) = None ->
  In p (procs st) ->
  for_body p st = (Ok tt, reaped p c st).
Proof.
  intros Hf Hrc Hcl Hle Hdec Hin. unfold for_body, mbind, poll.
  rewrite Hf, Hrc, Hle.
  unfold read. cbn [heap tick set_heap].
  rewrite find_update_same, Hf by reflexivity. cbn [option_map].
  cbn [closed beh with_returncode]. rewrite Hcl, Hdec.
  unfold print_from, close. cbn [heap tick set_heap write_out].
  rewrite update_update by reflexivity.
  rewrite find_update_same, Hf by reflexivity. cbn [option_map].
  rewrite update_update by reflexivity.
  unfold procs_remove. cbn [procs tick set_heap write_out].
  rewrite (existsb_eqb_In _ _ Hin).
  unfold reaped, set_procs, reap_events, drained. cbn.
  rewrite <- !app_assoc. reflexivity.
Qed.

(** Lines 77 and 78 on a child that has terminated and whose stream
    does not decode. *)
Lemma for_body_garbled (p : nat) (c : popen) (st : state) (msg : string) :
  find_proc p (heap st) = Some c ->
  returncode c = None ->
  closed c = false ->
  exited (beh c) (clock st) = true ->
  garbled (beh c) = Some msg ->
  for_body p st = (Raise (UnicodeDecodeError msg), polled p c st).
Proof.
  intros Hf Hrc Hcl Hle Hbad. unfold for_body, mbind, poll.
  rewrite Hf, Hrc, Hle.
  unfold read. cbn [heap tick set_heap].
  rewrite find_update_same, Hf by reflexivity. cbn [option_map].
  cbn [closed beh with_returncode]. rewrite Hcl, Hbad. reflexivity.
Qed.

(** Line 85 on an open stream. *)
Lemma readline_print (w : os) (p : nat) (c : popen) (st : state) :
  find_proc p (heap st) = Some c ->
  closed c = false ->
  readline_error w (clock st) c = None ->
  (line <- readline w p ;; print_from (Some p) line) st
  = (Ok tt, line_read p c st).
Proof.
  intros Hf Hcl Hok. unfold mbind, readline. rewrite Hf, Hcl, Hok.
  unfold line_read.
  destruct (split_line (unread c)) as [line rest]. reflexivity.
Qed.

(** Line 85 on a stream that does not decode. *)
Lemma readline_garbled (w : os) (p : nat) (c : popen) (st : state)
    (msg : string) :
  find_proc p (heap st) = Some c ->
  closed c = false ->
  readline_error w (clock st) c = Some msg ->
  (line <- readline w p ;; print_from (Some p) line) st
  = (Raise (UnicodeDecodeError msg), st).
Proof.
  intros Hf Hcl Hbad. unfold mbind, readline. rewrite Hf, Hcl, Hbad.
  reflexivity.
Qed.

Lemma readline_error_garbled (w : os) (now : nat) (c : popen)
    (msg : string) :
  readline_error w now c = Some msg -> garbled (beh c) = Some msg.
Proof.
  unfold readline_error. destruct (garbled (beh c)) as [m|]; [|discriminate].
  destruct (negb (char_in LF (unread c)) || decodes_ahead w now (pid c));
    [auto|discriminate].
Qed.

Lemma readline_error_decodes (w : os) (now : nat) (c : popen) :
  garbled (beh c) = None -> readline_error w now c = None.
Proof. unfold readline_error. intros ->. reflexivity. Qed.

(** Line 83 when the timeout is accepted and no stream of the list is
    closed. *)
Lemma select_open (w : os) (timeout : seconds) (st : state) :
  select_error timeout = None ->
  (forall p, In p (procs st) -> is_closed (heap st) p = false) ->
  select w (procs st) timeout st
  = (Ok (filter (ready w (clock st)) (procs st)),
     tick (EvSelect (clock st) (procs st)
             (filter (ready w (clock st)) (procs st))) st).
Proof.
  intros Ht H. unfold select. rewrite Ht.
  destruct (existsb (is_closed (heap st)) (procs st)) eqn:E; [|reflexivity].
  apply existsb_exists in E. destruct E as [p [Hin Hp]].
  rewrite (H p Hin) in Hp. discriminate.
Qed.

(** ** The invariant is kept by every step *)

Lemma run_trace_NoDup (tr : list event) (ps : list nat) :
  run_trace tr ps -> NoDup ps.
Proof.
  induction 1; auto. apply list_remove_NoDup. assumption.
Qed.

Lemma Inv_NoDup (st : state) : Inv st -> NoDup (procs st).
Proof. intros H. eapply run_trace_NoDup. apply (inv_trace _ H). Qed.

Lemma Inv_poll_none (p : nat) (st : state) :
  Inv st -> In p (procs st) -> Inv (tick (EvPoll p None) st).
Proof.
  intros [Htr Hlive Htext Hdone Hout] Hin. constructor; cbn; auto.
  - apply rt_poll; assumption.
  - rewrite fragments_read_app, <- Hout. cbn. rewrite app_nil_r. reflexivity.
Qed.

Lemma Inv_select (now : nat) (rlist : list nat) (st : state) :
  Inv st -> Inv (tick (EvSelect now (procs st) rlist) st).
Proof.
  intros [Htr Hlive Htext Hdone Hout]. constructor; cbn; auto.
  - apply rt_select; assumption.
  - rewrite fragments_read_app, <- Hout. cbn. rewrite app_nil_r. reflexivity.
Qed.

Lemma Inv_reaped (p : nat) (c : popen) (st : state) :
  Inv st -> In p (procs st) -> find_proc p (heap st) = Some c ->
  Inv (reaped p c st).
Proof.
  intros HI Hin Hf. assert (Hnd := Inv_NoDup _ HI).
  destruct HI as [Htr Hlive Htext Hdone Hout].
  assert (Hnot := list_remove_not_In p _ Hnd).
  constructor; cbn [reaped trace procs heap out].
  - apply rt_reap; assumption.
  - intros q Hq.
    assert (Hne : q <> p) by (intros ->; contradiction).
    rewrite find_update_other by (reflexivity || assumption).
    apply Hlive. eapply list_remove_In; eauto.
  - intros q c' Hq. destruct (Nat.eq_dec q p) as [-> | Hne].
    + rewrite find_update_same, Hf in Hq by reflexivity.
      inversion Hq; subst c'. cbn.
      rewrite text_from_snoc_same, append_nil_r. apply Htext. exact Hf.
    + rewrite find_update_other in Hq by (reflexivity || assumption).
      rewrite text_from_snoc_other by auto. apply Htext. exact Hq.
  - intros q c' Hq. destruct (Nat.eq_dec q p) as [-> | Hne].
    + rewrite find_update_same, Hf in Hq by reflexivity.
      inversion Hq; subst c'. right. repeat split. cbn. discriminate.
    + rewrite find_update_other in Hq by (reflexivity || assumption).
      destruct (Hdone q c' Hq) as [H | H]; [left|right; exact H].
      apply list_remove_In_other; assumption.
  - rewrite fragments_read_app, <- Hout. reflexivity.
Qed.

Lemma Inv_line_read (p : nat) (c : popen) (st : state) :
  Inv st -> In p (procs st) -> find_proc p (heap st) = Some c ->
  Inv (line_read p c st).
Proof.
  intros [Htr Hlive Htext Hdone Hout] Hin Hf.
  constructor; cbn [line_read trace procs heap out].
  - apply rt_readline; assumption.
  - intros q Hq. destruct (Nat.eq_dec q p) as [-> | Hne].
    + rewrite find_update_same, Hf by reflexivity.
      destruct (Hlive p Hin) as [c0 [Hc0 [Hrc Hcl]]].
      rewrite Hf in Hc0. inversion Hc0; subst c0.
      eexists. split; [reflexivity|]. cbn. auto.
    + rewrite find_update_other by (reflexivity || assumption). auto.
  - intros q c' Hq. destruct (Nat.eq_dec q p) as [-> | Hne].
    + rewrite find_update_same, Hf in Hq by reflexivity.
      inversion Hq; subst c'. cbn.
      rewrite text_from_snoc_same, append_assoc, split_line_append.
      apply Htext. exact Hf.
    + rewrite find_update_other in Hq by (reflexivity || assumption).
      rewrite text_from_snoc_other by auto. apply Htext. exact Hq.
  - intros q c' Hq. destruct (Nat.eq_dec q p) as [-> | Hne].
    + left. exact Hin.
    + rewrite find_update_other in Hq by (reflexivity || assumption).
      eapply Hdone; eauto.
  - rewrite fragments_read_app, <- Hout. reflexivity.
Qed.

(** ** The loops *)

Lemma exited_mono (b : behaviour) (t t' : nat) :
  exited b t = true -> t <= t' -> exited b t' = true.
Proof.
  unfold exited. destruct (exit_at b) as [x|]; [|discriminate].
  intros H Hle. apply Nat.leb_le in H. apply Nat.leb_le. lia.
Qed.

Lemma running_before (b : behaviour) (t t' : nat) :
  exited b t' = false -> t <= t' -> exited b t = false.
Proof.
  intros H Hle. destruct (exited b t) eqn:E; [|reflexivity].
  rewrite (exited_mono b t t' E Hle) in H. discriminate.
Qed.

(** Heaps with the same children hold, under a pid, children of the
    same behaviour. *)
Lemma find_proc_ident (p : nat) (h h' : list popen) (c : popen) :
  ident h' = ident h -> find_proc p h = Some c ->
  exists c', find_proc p h' = Some c' /\ beh c' = beh c.
Proof.
  revert h'. induction h as [|x h IH]; intros [|x' h'] Hid Hf;
    try discriminate.
  unfold ident in Hid. cbn [map] in Hid.
  injection Hid as Hpid _ Hbeh Hrest. cbn [find_proc] in *.
  rewrite Hpid. destruct (pid x =? p).
  - inversion Hf; subst. eauto.
  - apply IH; assumption.
Qed.

Lemma advances_refl (st : state) : Inv st -> advances st st.
Proof. intros H. constructor; auto. Qed.

Lemma advances_trans (st1 st2 st3 : state) :
  advances st1 st2 -> advances st2 st3 -> advances st1 st3.
Proof.
  intros [I1 E1 C1 L1 P1 R1] [I2 E2 C2 L2 P2 R2]. constructor; auto.
  - congruence.
  - lia.
  - lia.
  - intros q c Hq Hf Hrun.
    assert (Hq2 : In q (procs st2)).
    { apply (R1 q c Hq Hf). eapply running_before; eauto. }
    destruct (find_proc_ident q (heap st1) (heap st2) c E1 Hf)
      as [c2 [Hf2 Hb]].
    apply (R2 q c2 Hq2 Hf2). rewrite Hb. exact Hrun.
Qed.

Lemma ident_with_unread (p : nat) (s : string) (h : list popen) :
  ident (update_proc p (with_unread s) h) = ident h.
Proof. apply ident_update; reflexivity. Qed.

Lemma ident_drained (p rc : nat) (h : list popen) :
  ident (update_proc p (drained rc) h) = ident h.
Proof. apply ident_update; reflexivity. Qed.

(** ** Steps that may end the run *)

Lemma outcome_trans {A : Type} (timeout : seconds) (st st1 : state)
    (run : result A * state) (ok : A -> state -> Prop) :
  advances st st1 -> outcome timeout st1 run ok -> outcome timeout st run ok.
Proof.
  intros A1. unfold outcome. destruct run as [[a|e] st'].
  - intros [A2 Hok]. split; [eapply advances_trans; eauto|exact Hok].
  - intros [st2 [A2 Hs]]. exists st2.
    split; [eapply advances_trans; eauto|exact Hs].
Qed.

Lemma outcome_bind {A B : Type} (timeout : seconds) (st : state)
    (m : M A) (k : A -> M B) (okA : A -> state -> Prop)
    (okB : B -> state -> Prop) :
  outcome timeout st (m st) okA ->
  (forall a st1, advances st st1 -> okA a st1 ->
                 outcome timeout st1 (k a st1) okB) ->
  outcome timeout st (mbind m k st) okB.
Proof.
  intros Hm Hk. unfold mbind. destruct (m st) as [[a|e] st1].
  - destruct Hm as [A1 Ha]. eapply outcome_trans; [exact A1|].
    apply Hk; assumption.
  - exact Hm.
Qed.

Lemma outcome_stops {A : Type} (timeout : seconds) (st st' : state)
    (e : exn) (ok : A -> state -> Prop) :
  Inv st -> stops timeout st e st' ->
  outcome timeout st (@Raise A e, st') ok.
Proof.
  intros HI Hs. exists st. split; [apply advances_refl; exact HI|exact Hs].
Qed.

(** Lines 77 to 80 on an element of the list: the child is removed when
    it has terminated, and the run ends when its stream does not decode
    then. *)
Lemma for_body_step (timeout : seconds) (p : nat) (st : state) :
  Inv st -> In p (procs st) ->
  outcome timeout st (for_body p st)
    (fun _ st' =>
       clock st < clock st'
       /\ (forall c, find_proc p (heap st) = Some c ->
                     exited (beh c) (clock st) = true ->
                     procs st' = list_remove p (procs st))).
Proof.
  intros HI Hin.
  destruct (inv_live _ HI p Hin) as [c [Hf [Hrc Hcl]]].
  destruct (exited (beh c) (clock st)) eqn:Hex.
  - destruct (garbled (beh c)) as [msg|] eqn:Hbad.
    + rewrite (for_body_garbled p c st msg Hf Hrc Hcl Hex Hbad).
      apply outcome_stops; [exact HI|]. apply stops_read; assumption.
    + rewrite (for_body_reaps p c st Hf Hrc Hcl Hex Hbad Hin).
      split; [|split].
      * constructor; cbn [reaped clock heap procs].
        -- apply Inv_reaped; assumption.
        -- apply ident_drained.
        -- lia.
        -- apply list_remove_length.
        -- intros q. apply list_remove_In.
        -- intros q cq Hq Hfq Hrun.
           apply list_remove_In_other; [|exact Hq].
           intros ->. rewrite Hf in Hfq. inversion Hfq; subst cq.
           rewrite (exited_mono (beh c) (clock st) (3 + clock st) Hex)
             in Hrun by lia.
           discriminate.
      * cbn. lia.
      * reflexivity.
  - rewrite (for_body_running p c st Hf Hrc Hex). split; [|split].
    + constructor; cbn; auto. apply Inv_poll_none; assumption.
    + cbn. lia.
    + intros c' Hc' Hle. rewrite Hf in Hc'. inversion Hc'; subst.
      congruence.
Qed.

(** The [for] loop over [procs], whatever index the iterator stands
    at. *)
Lemma for_loop_step (timeout : seconds) (fuel : nat) :
  forall (i : nat) (st : state),
    Inv st ->
    outcome timeout st (for_loop fuel i st) (fun _ _ => True).
Proof.
  induction fuel as [|fuel IH]; intros i st HI.
  - split; [apply advances_refl; assumption|exact I].
  - cbn [for_loop]. destruct (nth_error (procs st) i) as [p|] eqn:Hp.
    + apply nth_error_In in Hp.
      eapply outcome_bind; [apply for_body_step; assumption|].
      intros _ st1 A1 _. apply IH. exact (adv_inv _ _ A1).
    + split; [apply advances_refl; assumption|exact I].
Qed.

(** When the first child of the list has terminated, the [for] loop
    leaves a shorter list. *)
Lemma reap_step (timeout : seconds) (st : state) :
  Inv st ->
  outcome timeout st (reap st)
    (fun _ st' =>
       forall p tl c, procs st = p :: tl ->
                      find_proc p (heap st) = Some c ->
                      exited (beh c) (clock st) = true ->
                      List.length (procs st') < List.length (procs st)).
Proof.
  intros HI. unfold reap.
  destruct (procs st) as [|p tl] eqn:Hps.
  - split; [apply advances_refl; assumption|]. intros; discriminate.
  - cbn [List.length for_loop]. rewrite Hps. cbn [nth_error].
    assert (Hin : In p (procs st)) by (rewrite Hps; left; reflexivity).
    eapply outcome_bind; [apply for_body_step; assumption|].
    intros _ st1 A1 [_ Hrm].
    assert (H2 := for_loop_step timeout (List.length tl) 1 st1
                    (adv_inv _ _ A1)).
    destruct (for_loop (List.length tl) 1 st1) as [[[]|e] st2];
      [|exact H2].
    destruct H2 as [A2 _]. split; [exact A2|].
    intros p' tl' c Heq Hf Hle. inversion Heq; subst p' tl'.
    specialize (Hrm c Hf Hle). rewrite Hps in Hrm. cbn in Hrm.
    rewrite Nat.eqb_refl in Hrm.
    assert (L := adv_length _ _ A2). rewrite Hrm in L. cbn. lia.
Qed.

(** Lines 84 and 85 on streams of the list. *)
Lemma read_ready_step (w : os) (timeout : seconds) (rlist : list nat) :
  forall st,
    Inv st -> (forall f, In f rlist -> In f (procs st)) ->
    outcome timeout st (read_ready w rlist st)
      (fun _ st' => procs st' = procs st).
Proof.
  induction rlist as [|f rlist IH]; intros st HI Hsub.
  - split; [apply advances_refl; assumption|reflexivity].
  - assert (Hin : In f (procs st)) by (apply Hsub; left; reflexivity).
    destruct (inv_live _ HI f Hin) as [c [Hf [Hrc Hcl]]].
    unfold read_ready in *. cbn [iterM]. unfold mbind at 1.
    destruct (readline_error w (clock st) c) as [msg|] eqn:Herr.
    + rewrite (readline_garbled w f c st msg Hf Hcl Herr).
      apply outcome_stops; [exact HI|].
      apply (stops_readline timeout st f c msg Hin Hf).
      eapply readline_error_garbled; eauto.
    + rewrite (readline_print w f c st Hf Hcl Herr).
      assert (HI1 : Inv (line_read f c st))
        by (apply Inv_line_read; assumption).
      assert (A1 : advances st (line_read f c st)).
      { constructor; cbn; auto. apply ident_with_unread. }
      eapply outcome_trans; [exact A1|].
      exact (IH (line_read f c st) HI1 (fun g Hg => Hsub g (or_intror Hg))).
Qed.

Lemma Inv_open (st : state) :
  Inv st -> forall p, In p (procs st) -> is_closed (heap st) p = false.
Proof.
  intros HI p Hin. destruct (inv_live _ HI p Hin) as [c [Hf [_ Hcl]]].
  unfold is_closed. rewrite Hf. exact Hcl.
Qed.

Lemma select_invalid (w : os) (timeout : seconds) (fds : list nat)
    (st : state) (e : exn) :
  select_error timeout = Some e -> select w fds timeout st = (Raise e, st).
Proof. intros H. unfold select. rewrite H. reflexivity. Qed.

(** One turn of the [while] loop takes time, and leaves a shorter list
    when the first child of the list had terminated. *)
Lemma iteration_step (w : os) (timeout : seconds) (st : state) :
  Inv st ->
  outcome timeout st (iteration w timeout st)
    (fun _ st' =>
       clock st < clock st'
       /\ (forall p tl c, procs st = p :: tl ->
                          find_proc p (heap st) = Some c ->
                          exited (beh c) (clock st) = true ->
                          List.length (procs st') < List.length (procs st))).
Proof.
  intros HI. unfold iteration.
  eapply outcome_bind; [apply reap_step; exact HI|].
  intros u st1 A1 Hsh. cbn beta in Hsh. assert (HI1 := adv_inv _ _ A1).
  unfold mbind.
  destruct (select_error timeout) as [e|] eqn:Ht.
  - rewrite (select_invalid w timeout (procs st1) st1 e Ht).
    apply outcome_stops; [exact HI1|]. apply stops_select. exact Ht.
  - rewrite (select_open w timeout st1 Ht (Inv_open st1 HI1)).
    set (rl := filter (ready w (clock st1)) (procs st1)).
    set (st2 := tick (EvSelect (clock st1) (procs st1) rl) st1).
    assert (HI2 : Inv st2) by (apply Inv_select; assumption).
    assert (A2 : advances st1 st2) by (constructor; cbn; auto).
    assert (H3 := read_ready_step w timeout rl st2 HI2).
    eapply outcome_trans; [exact A2|].
    destruct (read_ready w rl st2) as [[[]|e] st3].
    + destruct H3 as [A3 P3].
      { intros f Hf. apply filter_In in Hf. apply Hf. }
      split; [exact A3|].
      assert (C1 := adv_clock _ _ A1). assert (C3 := adv_clock _ _ A3).
      cbn in C3. split; [lia|].
      intros p tl c Hps Hf Hle. specialize (Hsh p tl c Hps Hf Hle).
      assert (L := adv_length _ _ A3). cbn in L. lia.
    + apply H3. intros f Hf. apply filter_In in Hf. apply Hf.
Qed.

(** Whatever the fuel, the [while] loop has returned exactly when
    [procs] is empty, unless a call has raised. *)
Lemma while_loop_step (w : os) (timeout : seconds) (fuel : nat) :
  forall st,
    Inv st ->
    outcome timeout st (while_loop w timeout fuel st)
      (fun r st' => r = Returned <-> procs st' = []).
Proof.
  induction fuel as [|fuel IH]; intros st HI; cbn [while_loop].
  - destruct (procs st) as [|p tl] eqn:Hps.
    + split; [apply advances_refl; assumption|]. rewrite Hps. tauto.
    + split; [apply advances_refl; assumption|]. rewrite Hps.
      split; discriminate.
  - destruct (procs st) as [|p tl] eqn:Hps.
    + split; [apply advances_refl; assumption|]. rewrite Hps. tauto.
    + eapply outcome_bind; [apply iteration_step; exact HI|].
      intros _ st1 A1 _. apply IH. exact (adv_inv _ _ A1).
Qed.



Ltac prim_cases H :=
  repeat match type of H with
         | context [match ?x with _ => _ end] => destruct x
         end;
  inversion H; subst; reflexivity.

Lemma poll_procs (p : nat) (st st' : state) (r : result (option nat)) :
  poll p st = (r, st') -> procs st' = procs st.
Proof. unfold poll, stale, raise. intros H. prim_cases H. Qed.

Lemma read_procs (p : nat) (st st' : state) (r : result string) :
  read p st = (r, st') -> procs st' = procs st.
Proof. unfold read, stale, closed_file, raise. intros H. prim_cases H. Qed.

Lemma close_procs (p : nat) (st st' : state) (r : result unit) :
  close p st = (r, st') -> procs st' = procs st.
Proof. unfold close, stale, raise. intros H. prim_cases H. Qed.

Lemma for_body_length (p : nat) (st st' : state) (r : result unit) :
  for_body p st = (r, st') ->
  List.length (procs st') <= List.length (procs st).
Proof.
  unfold for_body, mbind.
  destruct (poll p st) as [[[rc|]|e] st1] eqn:H1;
    apply poll_procs in H1.
  - destruct (read p st1) as [[text|e] st2] eqn:H2;
      apply read_procs in H2.
    + unfold print_from.
      destruct (close p (write_out (Some p) text st2)) as [[[]|e] st3] eqn:H3;
        apply close_procs in H3; cbn in H3.
      * unfold procs_remove.
        destruct (existsb (Nat.eqb p) (procs st3));
          intros H; inversion H; subst; cbn;
          [rewrite H3, H2, H1; apply list_remove_length|].
        rewrite H3, H2, H1. lia.
      * intros H; inversion H; subst. rewrite H3, H2, H1. lia.
    + intros H; inversion H; subst. rewrite H2, H1. lia.
  - unfold ret. intros H; inversion H; subst. rewrite H1. lia.
  - intros H; inversion H; subst. rewrite H1. lia.
Qed.

(** The length of [procs] is fuel enough for the [for] loop: with it,
    the iterator is exhausted before the fuel is. *)
Lemma for_loop_fuel (fuel : nat) :
  forall (i : nat) (st : state),
    List.length (procs st) <= i + fuel ->
    for_loop (S fuel) i st = for_loop fuel i st.
Proof.
  induction fuel as [|fuel IH]; intros i st Hlen.
  - cbn. destruct (nth_error (procs st) i) eqn:E; [|reflexivity].
    assert (i < List.length (procs st))
      by (apply nth_error_Some; congruence).
    lia.
  - cbn [for_loop]. destruct (nth_error (procs st) i) as [p|]; [|reflexivity].
    unfold mbind. destruct (for_body p st) as [[[]|e] st1] eqn:Hb;
      [|reflexivity].
    apply for_body_length in Hb.
    change (for_loop (S fuel) (S i) st1 = for_loop fuel (S i) st1).
    apply IH. lia.
Qed.

(** ** The state in which the loop is entered *)

Lemma children_of_fresh (w : os) (argvs : list (list string)) :
  forall n c,
    In c (children_of w n argvs) ->
    returncode c = None /\ closed c = false
    /\ unread c = universal_newlines (writes (beh c)).
Proof.
  induction argvs as [|argv rest IH]; intros n c; cbn; [contradiction|].
  destruct (exec w n argv) as [b|]; [|contradiction].
  intros [<- | Hin]; [cbn; auto|eapply IH; eauto].
Qed.

Lemma spawn_events_spawn (l : list popen) : Forall is_spawn (spawn_events l).
Proof.
  unfold spawn_events. apply Forall_forall. intros ev Hev.
  apply in_map_iff in Hev. destruct Hev as [c [<- _]].
  unfold is_spawn. eauto.
Qed.

Lemma fragments_read_spawns (tr : list event) :
  Forall is_spawn tr -> fragments_read tr = [].
Proof.
  induction 1 as [|ev tr [p [a ->]] _ IH]; [reflexivity|exact IH].
Qed.

Lemma started_Inv (w : os) (argvs : list (list string)) :
  all_spawn w 0 argvs -> Inv (started w argvs).
Proof.
  intros Hall. unfold started.
  set (ch := children_of w 0 argvs).
  assert (Hpids : NoDup (map pid ch)).
  { unfold ch. rewrite children_of_pids by assumption. apply seq_NoDup. }
  constructor; cbn.
  - apply rt_start; [apply spawn_events_spawn|exact Hpids].
  - intros p Hp. apply in_map_iff in Hp. destruct Hp as [c [<- Hc]].
    exists c. split; [apply In_find_proc; assumption|].
    destruct (children_of_fresh w argvs 0 c Hc) as [H1 [H2 _]]. auto.
  - intros p c Hf. apply find_proc_In in Hf.
    destruct (children_of_fresh w argvs 0 c Hf) as [_ [_ H3]]. exact H3.
  - intros p c Hf. left. rewrite <- (find_proc_pid _ _ _ Hf).
    apply in_map. eapply find_proc_In; eauto.
  - rewrite fragments_read_app, fragments_read_spawns
      by apply spawn_events_spawn.
    reflexivity.
Qed.

(** When the commands tokenize and all spawn, [execute] is the loop
    entered in [started]. *)
Lemma execute_enters_loop (w : os) (fuel : nat) (commands : list string)
    (timeout : seconds) (argvs : list (list string)) :
  tokenize commands = Ok argvs ->
  all_spawn w 0 argvs ->
  execute w fuel commands false timeout init
  = while_loop w timeout fuel (started w argvs).
Proof.
  intros Htok Hall. unfold execute. unfold mbind at 1. unfold lift.
  rewrite Htok. unfold mbind at 1.
  rewrite (mapM_Popen_spawns w argvs init Hall). reflexivity.
Qed.

(** ** What the traces of the loop look like *)

Lemma app_split_event {A : Type} (tr new tr1 tr2 : list A) (ev : A) :
  (tr ++ new = tr1 ++ ev :: tr2)%list ->
  (exists t, tr = (tr1 ++ ev :: t)%list /\ tr2 = (t ++ new)%list)
  \/ (exists n1, tr1 = (tr ++ n1)%list /\ new = (n1 ++ ev :: tr2)%list).
Proof.
  revert tr1. induction tr as [|a tr IH]; intros tr1 H.
  - right. exists tr1. auto.
  - destruct tr1 as [|b tr1]; cbn in H; inversion H; subst.
    + left. exists tr. auto.
    + destruct (IH tr1 H2) as [[t [-> ->]] | [n1 [-> ->]]].
      * left. exists t. auto.
      * right. exists n1. auto.
Qed.

Lemma spawn_not_select (tr : list event) (now : nat) (fds rlist : list nat) :
  Forall is_spawn tr -> ~ In (EvSelect now fds rlist) tr.
Proof.
  intros H Hin. rewrite Forall_forall in H.
  destruct (H _ Hin) as [p [a Heq]]. discriminate.
Qed.

Lemma spawn_not_poll (tr : list event) (p : nat) (rc : option nat) :
  Forall is_spawn tr -> ~ In (EvPoll p rc) tr.
Proof.
  intros H Hin. rewrite Forall_forall in H.
  destruct (H _ Hin) as [q [a Heq]]. discriminate.
Qed.

Lemma spawn_not_close (tr : list event) (p : nat) :
  Forall is_spawn tr -> ~ In (EvClose p) tr.
Proof.
  intros H Hin. rewrite Forall_forall in H.
  destruct (H _ Hin) as [q [a Heq]]. discriminate.
Qed.

Lemma spawn_not_procs (tr : list event) (l : list nat) :
  Forall is_spawn tr -> ~ In (EvProcs l) tr.
Proof.
  intros H Hin. rewrite Forall_forall in H.
  destruct (H _ Hin) as [q [a Heq]]. discriminate.
Qed.

(** A process found terminated, or closed, is no longer in the list. *)
Lemma run_trace_gone (tr : list event) (ps : list nat) :
  run_trace tr ps ->
  forall p, (exists rc, In (EvPoll p (Some rc)) tr) \/ In (EvClose p) tr ->
            ~ In p ps.
Proof.
  induction 1 as [spawns ps Hsp Hnd | tr ps q Htr IH Hq | tr ps q c Htr IH Hq
                  | tr ps now rl Htr IH | tr ps q line Htr IH Hq];
    intros p Hp.
  - exfalso. destruct Hp as [[rc Hp] | Hp];
      apply in_app_or in Hp; destruct Hp as [Hp | [Hp | []]];
      try discriminate.
    + eapply spawn_not_poll; eauto.
    + eapply spawn_not_close; eauto.
  - apply IH. destruct Hp as [[rc Hp] | Hp];
      apply in_app_or in Hp; destruct Hp as [Hp | [Hp | []]];
      try discriminate; eauto.
  - assert (Hnd := run_trace_NoDup _ _ Htr).
    destruct Hp as [[rc Hp] | Hp]; apply in_app_or in Hp;
      destruct Hp as [Hp | Hp].
    + intros Hin. apply (IH p); eauto. eapply list_remove_In; eauto.
    + cbn in Hp. destruct Hp as [Hp | [Hp | [Hp | [Hp | []]]]];
        try discriminate.
      inversion Hp; subst. apply list_remove_not_In. exact Hnd.
    + intros Hin. apply (IH p); eauto. eapply list_remove_In; eauto.
    + cbn in Hp. destruct Hp as [Hp | [Hp | [Hp | [Hp | []]]]];
        try discriminate.
      inversion Hp; subst. apply list_remove_not_In. exact Hnd.
  - apply IH. destruct Hp as [[rc Hp] | Hp];
      apply in_app_or in Hp; destruct Hp as [Hp | [Hp | []]];
      try discriminate; eauto.
  - apply IH. destruct Hp as [[rc Hp] | Hp];
      apply in_app_or in Hp; destruct Hp as [Hp | [Hp | []]];
      try discriminate; eauto.
Qed.

Ltac not_in_new H :=
  exfalso;
  match type of H with
  | (_ = ?n ++ ?ev :: ?t)%list =>
      assert (Hnew : In ev (n ++ ev :: t)) by apply in_elt;
      rewrite <- H in Hnew; cbn in Hnew; intuition discriminate
  end.

Lemma run_trace_selects (tr : list event) (ps : list nat) :
  run_trace tr ps -> selects_clean tr.
Proof.
  induction 1 as [spawns ps Hsp Hnd | tr ps q Htr IH Hq | tr ps q c Htr IH Hq
                  | tr ps now rl Htr IH | tr ps q line Htr IH Hq];
    intros tr1 now' fds rl' tr2 p Heq Hp.
  - exfalso.
    assert (Hin : In (EvSelect now' fds rl') (spawns ++ [EvProcs ps]))
      by (rewrite Heq; apply in_elt).
    apply in_app_or in Hin. destruct Hin as [Hin | [Hin | []]];
      [eapply spawn_not_select; eauto|discriminate].
  - apply app_split_event in Heq.
    destruct Heq as [[t [-> ->]] | [n1 [-> Hn]]];
      [eapply IH; eauto|not_in_new Hn].
  - apply app_split_event in Heq.
    destruct Heq as [[t [-> ->]] | [n1 [-> Hn]]];
      [eapply IH; eauto|unfold reap_events in Hn; not_in_new Hn].
  - apply app_split_event in Heq.
    destruct Heq as [[t [-> ->]] | [n1 [-> Hn]]]; [eapply IH; eauto|].
    destruct n1 as [|x n1]; cbn in Hn.
    + inversion Hn; subst. rewrite app_nil_r.
      assert (Hg := run_trace_gone _ _ Htr p).
      split; [intros rc Hin; apply Hg; eauto|intros Hin; apply Hg; auto].
    + inversion Hn. destruct n1; discriminate.
  - apply app_split_event in Heq.
    destruct Heq as [[t [-> ->]] | [n1 [-> Hn]]];
      [eapply IH; eauto|not_in_new Hn].
Qed.

Lemma run_trace_reaps (tr : list event) (ps : list nat) :
  run_trace tr ps -> reaps_at_once tr.
Proof.
  induction 1 as [spawns ps Hsp Hnd | tr ps q Htr IH Hq | tr ps q c Htr IH Hq
                  | tr ps now rl Htr IH | tr ps q line Htr IH Hq];
    intros tr1 p rc tr2 Heq.
  - exfalso.
    assert (Hin : In (EvPoll p (Some rc)) (spawns ++ [EvProcs ps]))
      by (rewrite Heq; apply in_elt).
    apply in_app_or in Hin. destruct Hin as [Hin | [Hin | []]];
      [eapply spawn_not_poll; eauto|discriminate].
  - apply app_split_event in Heq.
    destruct Heq as [[t [Ht ->]] | [n1 [-> Hn]]]; [|not_in_new Hn].
    destruct (IH _ _ _ _ Ht) as [text [l [tr3 [-> [Hl Hs]]]]].
    exists text, l, (tr3 ++ [EvPoll q None])%list.
    split; [reflexivity|]. split; [exact Hl|].
    intros now fds rl Hin. apply in_app_or in Hin.
    destruct Hin as [Hin | [Hin | []]]; [eauto|discriminate].
  - apply app_split_event in Heq.
    destruct Heq as [[t [Ht ->]] | [n1 [-> Hn]]].
    + destruct (IH _ _ _ _ Ht) as [text [l [tr3 [-> [Hl Hs]]]]].
      exists text, l, (tr3 ++ reap_events q c ps)%list.
      split; [reflexivity|]. split; [exact Hl|].
      intros now fds rl Hin. apply in_app_or in Hin.
      destruct Hin as [Hin | Hin]; [eauto|].
      cbn in Hin. intuition discriminate.
    + unfold reap_events in Hn.
      destruct n1 as [|x1 [|x2 [|x3 [|x4 n1]]]]; cbn in Hn;
        inversion Hn; subst; try (destruct n1; discriminate).
      do 3 eexists. split; [reflexivity|].
      split; [apply list_remove_not_In; eapply run_trace_NoDup; eauto|].
      intros now fds rl [].
  - apply app_split_event in Heq.
    destruct Heq as [[t [Ht ->]] | [n1 [-> Hn]]]; [|not_in_new Hn].
    destruct (IH _ _ _ _ Ht) as [text [l [tr3 [-> [Hl Hs]]]]].
    exists text, l, (tr3 ++ [EvSelect now ps rl])%list.
    split; [reflexivity|]. split; [exact Hl|].
    intros now' fds rl' Hin. apply in_app_or in Hin.
    destruct Hin as [Hin | [Hin | []]]; [eauto|].
    inversion Hin; subst.
    apply (run_trace_gone _ _ Htr p). left. exists rc. apply in_elt.
  - apply app_split_event in Heq.
    destruct Heq as [[t [Ht ->]] | [n1 [-> Hn]]]; [|not_in_new Hn].
    destruct (IH _ _ _ _ Ht) as [text [l [tr3 [-> [Hl Hs]]]]].
    exists text, l, (tr3 ++ [EvReadline q line])%list.
    split; [reflexivity|]. split; [exact Hl|].
    intros now fds rl Hin. apply in_app_or in Hin.
    destruct Hin as [Hin | [Hin | []]]; [eauto|discriminate].
Qed.

Lemma run_trace_history (tr : list event) (ps : list nat) :
  run_trace tr ps -> forall l, In (EvProcs l) tr -> NoDup l.
Proof.
  induction 1 as [spawns ps Hsp Hnd | tr ps q Htr IH Hq | tr ps q c Htr IH Hq
                  | tr ps now rl Htr IH | tr ps q line Htr IH Hq];
    intros l Hl; apply in_app_or in Hl.
  - destruct Hl as [Hl | [Hl | []]].
    + exfalso. eapply spawn_not_procs; eauto.
    + inversion Hl; subst. exact Hnd.
  - destruct Hl as [Hl | [Hl | []]]; [auto|discriminate].
  - destruct Hl as [Hl | Hl]; [auto|].
    cbn in Hl. destruct Hl as [Hl | [Hl | [Hl | [Hl | []]]]];
      try discriminate.
    inversion Hl; subst. apply list_remove_NoDup.
    eapply run_trace_NoDup; eauto.
  - destruct Hl as [Hl | [Hl | []]]; [auto|discriminate].
  - destruct Hl as [Hl | [Hl | []]]; [auto|discriminate].
Qed.

(** ** The runs of [execute] *)

Lemma mapM_Popen_cases (w : os) (argvs : list (list string)) :
  forall st,
    all_spawn w (List.length (heap st)) argvs
    \/ exists e ch, mapM (Popen w) argvs st = (Raise e, spawned ch st).
Proof.
  induction argvs as [|argv rest IH]; intros st.
  - left. intros [|i] a Hi; discriminate.
  - destruct argv as [|exe tl].
    + right. exists (IndexError "list index out of range"), [].
      rewrite spawned_nil. reflexivity.
    + destruct (exec w (List.length (heap st)) (exe :: tl)) as [b|] eqn:Hb.
      * set (c := new_child w (List.length (heap st)) (exe :: tl) b).
        assert (Hlen : List.length (heap (spawned [c] st))
                       = S (List.length (heap st))).
        { cbn. rewrite length_app. cbn. lia. }
        destruct (IH (spawned [c] st)) as [Hall | [e [ch He]]].
        -- left. rewrite Hlen in Hall. intros [|i] a Hi; cbn in Hi.
           ++ inversion Hi; subst. rewrite Nat.add_0_r, Hb.
              split; discriminate.
           ++ replace (List.length (heap st) + S i)
                with (S (List.length (heap st)) + i) by lia.
              apply Hall. exact Hi.
        -- right. exists e, (c :: ch). cbn [mapM]. unfold mbind at 1.
           rewrite (Popen_spawns _ _ _ _ _ Hb). fold c.
           unfold mbind. rewrite He, spawned_cons. reflexivity.
      * right. exists (FileNotFoundError exe), [].
        cbn [mapM]. unfold mbind, Popen. rewrite Hb, spawned_nil.
        reflexivity.
Qed.

(** A run of [execute] either enters the loop, or ends before it with
    [procs] unassigned and nothing but spawns in its trace. *)
Lemma execute_cases (w : os) (fuel : nat) (commands : list string)
    (debug : bool) (timeout : seconds) :
  (exists argvs,
      tokenize commands = Ok argvs /\ debug = false /\ all_spawn w 0 argvs
      /\ execute w fuel commands debug timeout init
         = while_loop w timeout fuel (started w argvs))
  \/ (exists r st,
        execute w fuel commands debug timeout init = (r, st)
        /\ procs st = [] /\ Forall is_spawn (trace st)
        /\ (forall pr, r = Ok pr -> pr = Returned /\ heap st = [])
        /\ (debug = false -> out st = [])).
Proof.
  destruct (tokenize commands) as [argvs|e] eqn:Htok.
  - destruct debug.
    + right. do 2 eexists.
      split; [apply (execute_debug_run w fuel commands timeout argvs init
                       Htok)|].
      cbn. split; [reflexivity|]. split; [constructor|].
      split; [|discriminate].
      intros pr Hpr. inversion Hpr. auto.
    + destruct (mapM_Popen_cases w argvs init) as [Hall | [e [ch He]]].
      * left. exists argvs. split; [reflexivity|]. split; [reflexivity|].
        split; [exact Hall|]. apply execute_enters_loop; assumption.
      * right. exists (Raise e), (spawned ch init).
        split; [|cbn; split; [reflexivity|];
                 split; [apply spawn_events_spawn|];
                 split; [discriminate|reflexivity]].
        unfold execute. unfold mbind at 1. unfold lift. rewrite Htok.
        unfold mbind. rewrite He. reflexivity.
  - right. exists (Raise e), init.
    split; [|cbn; split; [reflexivity|]; split; [constructor|];
             split; [discriminate|reflexivity]].
    unfold execute, mbind, lift. rewrite Htok. reflexivity.
Qed.

Lemma started_pids (w : os) (argvs : list (list string)) :
  all_spawn w 0 argvs -> NoDup (map pid (heap (started w argvs))).
Proof.
  intros Hall. cbn. rewrite children_of_pids by assumption.
  apply seq_NoDup.
Qed.

(** A run that enters the loop goes on as the loop does from
    [started]. *)
Lemma execute_loop_outcome (w : os) (fuel : nat) (commands : list string)
    (timeout : seconds) (argvs : list (list string)) :
  tokenize commands = Ok argvs ->
  all_spawn w 0 argvs ->
  outcome timeout (started w argvs)
    (execute w fuel commands false timeout init)
    (fun r st' => r = Returned <-> procs st' = []).
Proof.
  intros Htok Hall.
  rewrite (execute_enters_loop w fuel commands timeout argvs Htok Hall).
  apply while_loop_step. apply started_Inv. exact Hall.
Qed.


(** The state in which a run stops differs from the state the loop had
    reached by the poll that found a child terminated, at most. *)
Lemma stops_facts (timeout : seconds) (st st' : state) (e : exn) :
  Inv st -> stops timeout st e st' ->
  procs st' = procs st
  /\ out st' = out st
  /\ ident (heap st') = ident (heap st)
  /\ (forall p c, find_proc p (heap st') = Some c ->
        text_from p (out st') ++ unread c
        = universal_newlines (writes (beh c)))
  /\ (trace st' = trace st
      \/ exists p rc msg,
           trace st' = (trace st ++ [EvPoll p (Some rc)])%list
           /\ e = UnicodeDecodeError msg).
Proof.
  intros HI Hs.
  destruct Hs as [p c msg Hin Hf Hex Hbad | e Hsel | p c msg Hin Hf Hbad].
  - split; [reflexivity|]. split; [reflexivity|].
    split; [apply ident_update; reflexivity|].
    split.
    + intros q c' Hq. cbn [polled heap out tick set_heap] in *.
      destruct (Nat.eq_dec q p) as [-> | Hne].
      * rewrite find_update_same, Hf in Hq by reflexivity.
        inversion Hq; subst c'. cbn. apply (inv_text _ HI). exact Hf.
      * rewrite find_update_other in Hq by (reflexivity || assumption).
        apply (inv_text _ HI). exact Hq.
    + right. exists p, (status (beh c)), msg. split; reflexivity.
  - repeat split; auto. apply (inv_text _ HI).
  - repeat split; auto. apply (inv_text _ HI).
Qed.

Lemma selects_clean_snoc (tr : list event) (ev : event) :
  selects_clean tr ->
  (forall now fds rlist, ev <> EvSelect now fds rlist) ->
  selects_clean (tr ++ [ev]).
Proof.
  intros H Hev tr1 now fds rl tr2 p Heq Hp.
  apply app_split_event in Heq.
  destruct Heq as [[t [-> ->]] | [n1 [-> Hn]]]; [eapply H; eauto|].
  exfalso. destruct n1 as [|x n1]; cbn in Hn.
  - inversion Hn. eapply Hev; eauto.
  - inversion Hn. destruct n1; discriminate.
Qed.

(** C7.  In every run of [execute], whatever the fuel it is observed
    with, [procs] holds no process twice, and neither does any value
    [procs] has held; and in a run that has not raised, the loop has
    returned if and only if [procs] is empty, which is the case if and
    only if every child that was spawned has been found terminated, read
    to the end of its stream and closed. *)
Theorem process_list_invariant :
  forall (w : os) (fuel : nat) (commands : list string) (debug : bool)
         (timeout : seconds),
    let run := execute w fuel commands debug timeout init in
    NoDup (procs (snd run))
    /\ (forall l, In (EvProcs l) (trace (snd run)) -> NoDup l)
    /\ (forall pr, fst run = Ok pr ->
          (pr = Returned <-> procs (snd run) = [])
          /\ (procs (snd run) = [] <->
              forall c, In c (heap (snd run)) -> is_drained c)).
Proof.
  intros w fuel commands debug timeout run. subst run.
  destruct (execute_cases w fuel commands debug timeout)
    as [[argvs [Htok [-> [Hall _]]]] | [r [st [-> [Hps [Hsp [Hok _]]]]]]].
  - assert (H := execute_loop_outcome w fuel commands timeout argvs Htok
                   Hall).
    destruct (execute w fuel commands false timeout init) as [[r|e] st].
    + destruct H as [A Hr].
      cbn [fst snd]. assert (HI := adv_inv _ _ A).
      split; [apply Inv_NoDup; assumption|].
      split; [eapply run_trace_history; apply (inv_trace _ HI)|].
      intros pr Hpr. inversion Hpr; subst pr. split; [exact Hr|].
      assert (Hnd : NoDup (map pid (heap st))).
      { rewrite (ident_pids _ _ (adv_ident _ _ A)).
        apply started_pids. assumption. }
      split.
      * intros Hempty c Hc.
        destruct (inv_done _ HI (pid c) c (In_find_proc _ _ Hnd Hc))
          as [Hin | Hd]; [|exact Hd].
        rewrite Hempty in Hin. contradiction.
      * intros Hall_drained.
        destruct (procs st) as [|p tl] eqn:Hps; [reflexivity|].
        exfalso.
        destruct (inv_live _ HI p) as [c [Hf [Hrc _]]];
          [rewrite Hps; left; reflexivity|].
        destruct (Hall_drained c (find_proc_In _ _ _ Hf)) as [Hne _].
        contradiction.
    + destruct H as [st1 [A Hs]]. assert (HI := adv_inv _ _ A).
      destruct (stops_facts timeout st1 st e HI Hs)
        as [Hps [_ [_ [_ Htr]]]].
      cbn [fst snd]. rewrite Hps.
      split; [apply Inv_NoDup; assumption|].
      split; [|discriminate].
      intros l Hl. apply (run_trace_history _ _ (inv_trace _ HI)).
      destruct Htr as [Htr | [p [rc [msg [Htr _]]]]]; rewrite Htr in Hl;
        [exact Hl|].
      apply in_app_or in Hl. destruct Hl as [Hl | [Hl | []]];
        [exact Hl|discriminate].
  - cbn [fst snd]. rewrite Hps. split; [constructor|].
    split; [intros l Hl; exfalso; eapply spawn_not_procs; eauto|].
    intros pr Hpr. destruct (Hok pr Hpr) as [-> Hh]. rewrite Hh.
    split; [tauto|]. split; [intros _ c []|reflexivity].
Qed.

(** C3, as the code has it.  In every run of [execute], a process that
    [poll] reports terminated is read to the end of its stream, closed
    and removed from [procs] at once, before any other call, so that it
    is in no list handed to [select] afterwards; and no list handed to
    [select] holds a process that [poll] had reported terminated, or
    whose stream had been closed.  The one run in which a process found
    terminated is not read, closed and removed is the run that this very
    read ends, with the UnicodeDecodeError of a stream that does not
    decode: the poll is then the last call of the run. *)
Theorem detected_exits_reaped_before_select :
  forall (w : os) (fuel : nat) (commands : list string) (debug : bool)
         (timeout : seconds),
    let run := execute w fuel commands debug timeout init in
    let tr := trace (snd run) in
    (reaps_at_once tr
     \/ exists msg tr0 p rc,
          fst run = Raise (UnicodeDecodeError msg)
          /\ tr = (tr0 ++ [EvPoll p (Some rc)])%list
          /\ reaps_at_once tr0)
    /\ selects_clean tr.
Proof.
  intros w fuel commands debug timeout run tr. subst tr run.
  destruct (execute_cases w fuel commands debug timeout)
    as [[argvs [Htok [-> [Hall _]]]] | [r [st [-> [Hps [Hsp _]]]]]].
  - assert (H := execute_loop_outcome w fuel commands timeout argvs Htok
                   Hall).
    destruct (execute w fuel commands false timeout init) as [[r|e] st].
    + destruct H as [A _]. cbn [fst snd].
      assert (Htr := inv_trace _ (adv_inv _ _ A)).
      split; [left; eapply run_trace_reaps|eapply run_trace_selects]; eauto.
    + destruct H as [st1 [A Hs]]. assert (HI := adv_inv _ _ A).
      assert (Htr1 := inv_trace _ HI).
      destruct (stops_facts timeout st1 st e HI Hs)
        as [_ [_ [_ [_ [Htr | [p [rc [msg [Htr ->]]]]]]]]];
        cbn [fst snd]; rewrite Htr.
      * split; [left; eapply run_trace_reaps
               |eapply run_trace_selects]; eauto.
      * split.
        -- right. exists msg, (trace st1), p, rc.
           split; [reflexivity|]. split; [reflexivity|].
           eapply run_trace_reaps; eauto.
        -- apply selects_clean_snoc; [|discriminate].
           eapply run_trace_selects; eauto.
  - cbn [fst snd]. split.
    + left. intros tr1 p rc tr2 Heq. exfalso.
      apply (spawn_not_poll _ p (Some rc) Hsp). rewrite Heq. apply in_elt.
    + intros tr1 now fds rl tr2 p Heq _. exfalso.
      apply (spawn_not_select _ now fds rl Hsp). rewrite Heq. apply in_elt.
Qed.

(** X22.  In every run of [execute] outside debug mode, what has been
    written to the combined stream is, fragment by fragment and in the
    order of the calls, what [read] and [readline] returned: every
    fragment is written whole, between the fragment read before it and
    the fragment read after it, and nothing is written with it. *)
Theorem output_is_what_was_read :
  forall (w : os) (fuel : nat) (commands : list string) (timeout : seconds),
    let st := snd (execute w fuel commands false timeout init) in
    out st = fragments_read (trace st)
    /\ stdout_text st
       = fold_right String.append EmptyString
           (map snd (fragments_read (trace st))).
Proof.
  intros w fuel commands timeout st.
  assert (H : out st = fragments_read (trace st)).
  { subst st.
    destruct (execute_cases w fuel commands false timeout)
      as [[argvs [Htok [_ [Hall _]]]] | [r [st [-> [Hps [Hsp [_ Hout]]]]]]].
    - assert (H := execute_loop_outcome w fuel commands timeout argvs Htok
                     Hall).
      destruct (execute w fuel commands false timeout init) as [[r|e] st].
      + destruct H as [A _]. apply (inv_out _ (adv_inv _ _ A)).
      + destruct H as [st1 [A Hs]]. assert (HI := adv_inv _ _ A).
        destruct (stops_facts timeout st1 st e HI Hs)
          as [_ [Hout [_ [_ Htr]]]].
        cbn [snd]. rewrite Hout, (inv_out _ HI).
        destruct Htr as [-> | [p [rc [msg [-> _]]]]]; [reflexivity|].
        rewrite fragments_read_app. cbn. rewrite app_nil_r. reflexivity.
    - cbn [snd]. rewrite (Hout eq_refl), fragments_read_spawns by assumption.
      reflexivity. }
  split; [exact H|]. unfold stdout_text. rewrite H. reflexivity.
Qed.



(** [execute] returns only once every child has been seen
    terminated. *)
Lemma execute_returned_exits (w : os) (fuel : nat) (commands : list string)
    (timeout : seconds) (argvs : list (list string)) (st : state) :
  tokenize commands = Ok argvs ->
  all_spawn w 0 argvs ->
  execute w fuel commands false timeout init = (Ok Returned, st) ->
  forall c, In c (children_of w 0 argvs) ->
            exited (beh c) (clock st) = true.
Proof.
  intros Htok Hall Hrun c Hc.
  assert (H := execute_loop_outcome w fuel commands timeout argvs Htok Hall).
  rewrite Hrun in H. destruct H as [A Hr].
  assert (Hps : procs st = []) by (apply Hr; reflexivity).
  destruct (exited (beh c) (clock st)) eqn:Hex; [reflexivity|exfalso].
  assert (Hin : In (pid c) (procs st)).
  { apply (adv_running _ _ A (pid c) c).
    - cbn. apply in_map. exact Hc.
    - apply In_find_proc; [apply started_pids; assumption|exact Hc].
    - exact Hex. }
  rewrite Hps in Hin. contradiction.
Qed.




(** The combined output of that run. *)
Example execute_three_commands :
  stdout_text
    (snd (execute echo_os 8 ["echo hello"; "printf abc"; "echo 'a b' c"]
            false (Finite 100) init))
  = "hello" ++ str1 LF ++ "a b c" ++ str1 LF ++ "abc".
Proof. vm_compute. reflexivity. Qed.


(** C3 as the specification words it fails on a child that terminates
    between the call of [poll] and the call of [select]: the child of
    pid 100 is seen terminated from instant 2 on; polled at instant 1 it
    is found running, and its stream is in the list handed to [select]
    at instant 2. *)
Lemma select_after_exit_counterexample :
  let st := snd (execute echo_os 1 ["echo hi"] false (Finite 100) init) in
  map (fun c => (pid c, exit_at (beh c))) (heap st) = [(100, Some 2)]
  /\ trace st
     = [EvSpawn 100 ["echo"; "hi"]; EvProcs [100]; EvPoll 100 None;
        EvSelect 2 [100] [100]; EvReadline 100 ("hi" ++ str1 LF)].
Proof. cbv zeta. split; vm_compute; reflexivity. Qed.

(** The [for] loop removes from the list it iterates over, and the
    element after a removed one is skipped: of two children that have
    both terminated, the first is reaped, the second is not polled in
    this turn, and its stream is handed to [select]. *)
Example for_loop_skips_after_removal :
  let st := snd (execute prompt_os 1 ["echo x"; "echo y"] false (Finite 100) init) in
  map (fun c => (pid c, exit_at (beh c))) (heap st)
  = [(100, Some 0); (101, Some 0)]
  /\ trace st
     = [EvSpawn 100 ["echo"; "x"]; EvSpawn 101 ["echo"; "y"];
        EvProcs [100; 101];
        EvPoll 100 (Some 0); EvRead 100 ("x" ++ str1 LF); EvClose 100;
        EvProcs [101];
        EvSelect 5 [101] [101]; EvReadline 101 ("y" ++ str1 LF)].
Proof. cbv zeta. split; vm_compute; reflexivity. Qed.

(** The child that was skipped is reaped in a later turn. *)
Example skipped_child_reaped_later :
  execute prompt_os 2 ["echo x"; "echo y"] false (Finite 100) init
  = (Ok Returned,
     snd (execute prompt_os 2 ["echo x"; "echo y"] false (Finite 100) init))
  /\ stdout_text
       (snd (execute prompt_os 2 ["echo x"; "echo y"] false (Finite 100) init))
     = "x" ++ str1 LF ++ "y" ++ str1 LF.
Proof. split; vm_compute; reflexivity. Qed.

(** C6.  The code on two commands: the combined stream holds the lines
    of the children as they were read and nothing else, no process id in
    particular, so that two runs write the same stream, character for
    character, with the first line coming from pid 100 in one and from
    pid 101 in the other; and [pprint], the function that would write
    the process id before the text, is not called and raises when it
    is. *)
Theorem execute_output_untagged :
  let a := snd (execute echo_os 8 ["echo x"; "echo y"] false (Finite 100)
                  init) in
  let b := snd (execute late_first_os 8 ["echo y"; "echo x"] false
                  (Finite 100) init) in
  stdout_text a = "x" ++ str1 LF ++ "y" ++ str1 LF
  /\ stdout_text b = stdout_text a
  /\ text_from 100 (out a) = "x" ++ str1 LF
  /\ text_from 101 (out a) = "y" ++ str1 LF
  /\ text_from 100 (out b) = "y" ++ str1 LF
  /\ text_from 101 (out b) = "x" ++ str1 LF
  /\ fst (pprint 100 a) = Raise (NameError "p").
Proof.
  cbv zeta. repeat split; vm_compute; reflexivity.
Qed.

(* ===================================================================== *)
(** * Part III.  Further properties of the three scripts                  *)
(* ===================================================================== *)

(** ** [requires.py]: [parse] *)

Import Requires RequiresFile.

(** [s.startswith(p)] says that [s] is [p] followed by something. *)
Lemma startswith_append (s p : string) :
  startswith s p = true -> exists rest, s = p ++ rest.
Proof.
  revert s. induction p as [|c p IH]; intros s H.
  - exists s. reflexivity.
  - destruct s as [|d s]; cbn in H; [discriminate|].
    apply andb_true_iff in H. destruct H as [Hc Hs].
    apply Ascii.eqb_eq in Hc. subst d.
    destruct (IH s Hs) as [rest ->]. exists rest. reflexivity.
Qed.

Lemma startswith_nil (s : string) : startswith s EmptyString = true.
Proof. destruct s; reflexivity. Qed.

(** The two ways out of [parse]. *)
Lemma parse_cases (dep : string) :
  match parse dep with
  | Ok (name, d) => d = dep /\ editable dep = false
  | Raise e => e = NameError "line" /\ editable dep = true
  end.
Proof.
  unfold parse, editable.
  destruct (startswith dep "-e") eqn:Eshort;
    destruct (startswith dep "--editable") eqn:Elong; cbn [orb];
    rewrite ?requires_line_unbound; cbn [bind]; auto.
  destruct (first_operator operators dep); auto.
Qed.

Lemma parse_not_editable (dep : string) :
  editable dep = false -> exists name, parse dep = Ok (name, dep).
Proof.
  intros H. assert (P := parse_cases dep).
  destruct (parse dep) as [[name d]|e].
  - destruct P as [-> _]. eauto.
  - destruct P as [_ P]. congruence.
Qed.

Lemma parse_editable (dep : string) :
  editable dep = true -> parse dep = Raise (NameError "line").
Proof.
  intros H. assert (P := parse_cases dep).
  destruct (parse dep) as [[name d]|e].
  - destruct P as [_ P]. congruence.
  - destruct P as [-> _]. reflexivity.
Qed.

(** X1.  [parse] raises exactly on the dependency strings of editable
    installs, and then the NameError of [line], never another error; on
    every other string it returns, and what it returns as the dependency
    is the string itself. *)
Theorem parse_raises_iff_editable :
  forall dep : string,
    (parse dep = Raise (NameError "line") <-> editable dep = true)
    /\ ((exists name, parse dep = Ok (name, dep)) <-> editable dep = false)
    /\ (forall e, parse dep = Raise e -> e = NameError "line")
    /\ (forall name d, parse dep = Ok (name, d) -> d = dep).
Proof.
  intros dep. repeat split.
  - intros H. destruct (editable dep) eqn:E; [reflexivity|].
    destruct (parse_not_editable dep E) as [name Hname]. congruence.
  - apply parse_editable.
  - intros [name H]. destruct (editable dep) eqn:E; [|reflexivity].
    rewrite (parse_editable dep E) in H. discriminate.
  - apply parse_not_editable.
  - intros e H. assert (P := parse_cases dep). rewrite H in P.
    destruct P as [-> _]. reflexivity.
  - intros name d H. assert (P := parse_cases dep). rewrite H in P.
    destruct P as [-> _]. reflexivity.
Qed.

(** *** The name of a pinned dependency *)

Lemma plain_startswith (s o : string) (c : ascii) :
  plain s = true -> operator_char c = true ->
  startswith s (String c o) = false.
Proof.
  intros Hs Hc. destruct s as [|a s]; [reflexivity|]. cbn in *.
  apply andb_true_iff in Hs. destruct Hs as [Ha _].
  destruct (Ascii.eqb_spec c a); [|reflexivity].
  subst a. rewrite Hc in Ha. discriminate.
Qed.

Lemma plain_contains (s o : string) (c : ascii) :
  plain s = true -> operator_char c = true ->
  contains s (String c o) = false.
Proof.
  intros Hs Hc. induction s as [|a s IH].
  - reflexivity.
  - cbn [contains]. rewrite plain_startswith by assumption.
    cbn in Hs. apply andb_true_iff in Hs. destruct Hs as [_ Hs].
    cbn [orb]. auto.
Qed.

Lemma plain_prefix_startswith (s t o : string) (c : ascii) :
  plain s = true -> operator_char c = true -> s <> EmptyString ->
  startswith (s ++ t) (String c o) = false.
Proof.
  intros Hs Hc Hne. destruct s as [|a s]; [congruence|]. cbn in *.
  apply andb_true_iff in Hs. destruct Hs as [Ha _].
  destruct (Ascii.eqb_spec c a); [|reflexivity].
  subst a. rewrite Hc in Ha. discriminate.
Qed.

Lemma plain_prefix_contains (s t o : string) (c : ascii) :
  plain s = true -> operator_char c = true ->
  contains (s ++ t) (String c o) = contains t (String c o).
Proof.
  intros Hs Hc. induction s as [|a s IH]; [reflexivity|].
  change (String a s ++ t) with (String a (s ++ t)). cbn [contains].
  change (String a (s ++ t)) with (String a s ++ t).
  rewrite plain_prefix_startswith by (assumption || discriminate).
  cbn in Hs. apply andb_true_iff in Hs. destruct Hs as [_ Hs].
  cbn [orb]. auto.
Qed.

Lemma plain_prefix_before_first (s t o : string) (c : ascii) :
  plain s = true -> operator_char c = true ->
  before_first (s ++ t) (String c o) = s ++ before_first t (String c o).
Proof.
  intros Hs Hc. induction s as [|a s IH]; [reflexivity|].
  change (String a s ++ t) with (String a (s ++ t)). cbn [before_first].
  change (String a (s ++ t)) with (String a s ++ t).
  rewrite plain_prefix_startswith by (assumption || discriminate).
  cbn in Hs. apply andb_true_iff in Hs. destruct Hs as [_ Hs].
  change (String a s ++ t) with (String a (s ++ t)).
  rewrite IH by assumption. reflexivity.
Qed.

Lemma plain_not_editable (name rest : string) :
  startswith name "-" = false -> name <> EmptyString ->
  editable (name ++ rest) = false.
Proof.
  intros H Hne. destruct name as [|a name]; [congruence|].
  unfold editable. cbn [startswith append] in *.
  destruct (Ascii.eqb_spec "-" a); [destruct name; discriminate|reflexivity].
Qed.

(** X2.  From a dependency pinned as name, operator, version, where the
    name is not empty, does not start with a dash, and neither name nor
    version holds a character of the operators, [parse] returns the
    name, stripped, whichever of the seven operators pins it. *)
Theorem parse_pinned_name :
  forall (name operator version : string),
    In operator operators ->
    name <> EmptyString ->
    startswith name "-" = false ->
    plain name = true ->
    plain version = true ->
    parse (name ++ operator ++ version)
    = Ok (strip name, name ++ operator ++ version).
Proof.
  intros name operator version Hop Hne Hdash Hname Hversion.
  assert (Hed := plain_not_editable name (operator ++ version) Hdash Hne).
  unfold parse. unfold editable in Hed. rewrite Hed.
  assert (Hv : forall c o, operator_char c = true ->
                           contains version (String c o) = false)
    by (intros; apply plain_contains; assumption).
  assert (Hs : forall c o, operator_char c = true ->
                           startswith version (String c o) = false)
    by (intros; apply plain_startswith; assumption).
  unfold operators in *. cbn [In] in Hop.
  destruct Hop as [<- | [<- | [<- | [<- | [<- | [<- | [<- | []]]]]]]];
    cbn [first_operator];
    repeat (rewrite plain_prefix_contains by (assumption || reflexivity);
            cbn [contains startswith append Ascii.eqb Bool.eqb andb orb];
            rewrite ?Hv, ?Hs by reflexivity;
            rewrite ?startswith_nil;
            cbn [andb orb]);
    rewrite plain_prefix_before_first by (assumption || reflexivity);
    cbn [before_first startswith append Ascii.eqb Bool.eqb andb orb];
    rewrite ?startswith_nil; cbn [andb orb];
    rewrite append_nil_r; reflexivity.
Qed.

Lemma parse_pinned_name_witness :
  parse ("Flask" ++ ">=" ++ "0.10.1") = Ok (strip "Flask", "Flask>=0.10.1").
Proof.
  apply (parse_pinned_name "Flask" ">=" "0.10.1").
  - cbn. auto.
  - discriminate.
  - reflexivity.
  - reflexivity.
  - reflexivity.
Defined.

(** An operator inside the version wins over the operator after the
    name when it comes first in the list of operators. *)
Example parse_first_operator_of_the_list :
  parse "Django>=1.8,==1.9" = Ok ("Django>=1.8,", "Django>=1.8,==1.9").
Proof. reflexivity. Qed.

(** ** [requires.py]: the dict and the sort *)

From Stdlib Require Import Sorting.Sorted Sorting.Permutation.

Lemma dict_pop_In (k : string) (d : dict) (item : string * string) :
  In item d -> In item (dict_pop k d) \/ dict_get k d = Some (snd item).
Proof.
  induction d as [|[k' v] d IH]; cbn; [contradiction|].
  destruct (String.eqb k k') eqn:E.
  - intros [<- | H]; [right; reflexivity|left; exact H].
  - intros [<- | H]; [left; left; reflexivity|].
    destruct (IH H) as [H' | H']; [left; right; exact H'|right; exact H'].
Qed.

Lemma dict_pop_values (k : string) (d : dict) (dep : string) :
  In dep (dict_values d) ->
  In dep (dict_values (dict_pop k d)) \/ dict_get k d = Some dep.
Proof.
  unfold dict_values. intros H. apply in_map_iff in H.
  destruct H as [item [<- H]].
  destruct (dict_pop_In k d item H) as [H' | H']; [left|right; exact H'].
  apply in_map. exact H'.
Qed.

Lemma dict_pop_get_None (k n : string) (d : dict) :
  dict_get n d = None -> dict_get n (dict_pop k d) = None.
Proof.
  induction d as [|[k' v] d IH]; cbn; [auto|].
  destruct (String.eqb n k') eqn:En; [discriminate|].
  destruct (String.eqb k k'); [auto|]. cbn. rewrite En. exact IH.
Qed.

Lemma dict_set_fresh (k v : string) (d : dict) :
  ~ In k (map fst d) -> dict_set k v d = (d ++ [(k, v)])%list.
Proof.
  induction d as [|[k' v'] d IH]; cbn; [reflexivity|].
  intros H. destruct (String.eqb_spec k k') as [-> | Hne].
  - exfalso. apply H. left. reflexivity.
  - rewrite IH; [reflexivity|]. intros Hin. apply H. right. exact Hin.
Qed.

(** A dict built from items with distinct names holds the items, in
    order. *)
Lemma dict_of_distinct (items : list (string * string)) :
  NoDup (map fst items) -> dict_of items = items.
Proof.
  unfold dict_of.
  assert (H : forall acc,
             NoDup (map fst (acc ++ items)) ->
             fold_left (fun d kv => dict_set (fst kv) (snd kv) d) items acc
             = (acc ++ items)%list).
  { induction items as [|[k v] items IH]; intros acc Hnd.
    - cbn. rewrite app_nil_r. reflexivity.
    - cbn [fold_left fst snd]. rewrite dict_set_fresh.
      + rewrite IH; rewrite <- app_assoc; [reflexivity|exact Hnd].
      + rewrite map_app in Hnd. cbn in Hnd.
        apply NoDup_remove_2 in Hnd. intros Hin. apply Hnd.
        apply in_or_app. left. exact Hin. }
  intros Hnd. apply (H [] Hnd).
Qed.

Lemma insert_sorted_perm (x : string) (l : list string) :
  Permutation (insert_sorted x l) (x :: l).
Proof.
  induction l as [|y l IH]; cbn; [reflexivity|].
  destruct (String.leb (lower x) (lower y)); [reflexivity|].
  rewrite IH. apply perm_swap.
Qed.

Lemma sorted_perm (l : list string) : Permutation (sorted l) l.
Proof.
  induction l as [|x l IH]; cbn; [reflexivity|].
  rewrite insert_sorted_perm. constructor. exact IH.
Qed.

Lemma insert_sorted_Sorted (x : string) (l : list string) :
  Sorted key_le l -> Sorted key_le (insert_sorted x l).
Proof.
  induction 1 as [|y l Hl IH Hy]; cbn.
  - repeat constructor.
  - destruct (String.leb (lower x) (lower y)) eqn:E.
    + constructor; [constructor; assumption|]. constructor. exact E.
    + constructor; [exact IH|].
      assert (Hyx : key_le y x).
      { unfold key_le. destruct (String.leb_total (lower x) (lower y));
          congruence. }
      destruct l as [|z l]; cbn.
      * constructor. exact Hyx.
      * destruct (String.leb (lower x) (lower z));
          constructor; [exact Hyx|]. inversion Hy. assumption.
Qed.

Lemma sorted_Sorted (l : list string) : Sorted key_le (sorted l).
Proof.
  induction l as [|x l IH]; cbn; [constructor|].
  apply insert_sorted_Sorted. exact IH.
Qed.

(** ** [requires.py]: [packages] and [requires] *)

Lemma packages_values (frozen : list string) (items : list (string * string)) :
  packages frozen = Ok items -> map snd items = frozen.
Proof.
  revert items. induction frozen as [|dep rest IH]; intros items; cbn.
  - intros H. inversion H. reflexivity.
  - assert (P := parse_cases dep).
    destruct (parse dep) as [[name d]|e]; cbn; [|discriminate].
    destruct P as [-> _].
    destruct (packages rest) as [items'|e]; cbn; [|discriminate].
    intros H. inversion H. cbn. f_equal. apply IH. reflexivity.
Qed.

Lemma packages_not_editable (frozen : list string) :
  Forall (fun dep => editable dep = false) frozen ->
  exists items, packages frozen = Ok items.
Proof.
  induction 1 as [|dep rest Hdep _ [items IH]]; cbn; [eauto|].
  destruct (parse_not_editable dep Hdep) as [name ->]. cbn.
  rewrite IH. cbn. eauto.
Qed.

Lemma packages_editable (frozen : list string) (dep : string) :
  In dep frozen -> editable dep = true ->
  packages frozen = Raise (NameError "line").
Proof.
  induction frozen as [|d rest IH]; [contradiction|].
  intros Hin Hed. cbn.
  assert (P := parse_cases d).
  destruct (parse d) as [[name d']|e]; cbn.
  - destruct Hin as [-> | Hin]; [destruct P; congruence|].
    rewrite (IH Hin Hed). reflexivity.
  - destruct P as [-> _]. reflexivity.
Qed.

(** X3.  [requires] cannot run where pip freeze reports an editable
    install: [packages] parses every frozen dependency before anything
    is yielded, so the NameError of [parse] comes out of [requires], and
    of the main function, whatever the requirements file holds. *)
Theorem requires_raises_on_editable_install :
  forall (frozen : list string) (reqfile : option (list string))
         (dep : string),
    In dep frozen -> editable dep = true ->
    requires frozen reqfile = Raise (NameError "line")
    /\ RequiresFile.main frozen reqfile = Raise (NameError "line").
Proof.
  intros frozen reqfile dep Hin Hed.
  assert (H : requires frozen reqfile = Raise (NameError "line")).
  { unfold requires. rewrite (packages_editable frozen dep Hin Hed).
    reflexivity. }
  split; [exact H|]. unfold RequiresFile.main. rewrite H. reflexivity.
Qed.

Lemma requires_raises_on_editable_install_witness :
  requires ["numpy==1.9.2"; "-e git+https://github.com/x/y.git#egg=y"]
    (Some ["numpy"])
  = Raise (NameError "line")
  /\ RequiresFile.main
       ["numpy==1.9.2"; "-e git+https://github.com/x/y.git#egg=y"]
       (Some ["numpy"])
     = Raise (NameError "line").
Proof.
  apply (requires_raises_on_editable_install
           ["numpy==1.9.2"; "-e git+https://github.com/x/y.git#egg=y"]
           (Some ["numpy"]) "-e git+https://github.com/x/y.git#egg=y").
  - cbn. auto.
  - reflexivity.
Defined.

Lemma read_line_error (v : vars) (raw : string) (e : exn) :
  read_line v raw = Raise e -> e = NameError "line".
Proof.
  unfold read_line.
  destruct (String.eqb (strip raw) EmptyString
            || existsb (startswith (strip raw)) reqargs); [discriminate|].
  destruct (startswith (strip raw) "#").
  - assert (P := parse_cases (lstrip_set "# " (strip raw))).
    destruct (parse (lstrip_set "# " (strip raw))) as [[name d]|e']; cbn.
    + destruct (dict_get name (installed v)); discriminate.
    + destruct P as [-> _]. intros H. inversion H. reflexivity.
  - assert (P := parse_cases (strip raw)).
    destruct (parse (strip raw)) as [[name d]|e']; cbn.
    + destruct (dict_get name (installed v)); discriminate.
    + destruct P as [-> _]. intros H. inversion H. reflexivity.
Qed.

(** An editable line is neither blank, nor an argument line, nor a
    comment. *)
Lemma editable_line (line : string) :
  editable line = true ->
  String.eqb line EmptyString || existsb (startswith line) reqargs = false
  /\ startswith line "#" = false.
Proof.
  unfold editable. intros H. apply orb_true_iff in H.
  destruct H as [H | H]; apply startswith_append in H;
    destruct H as [rest ->]; split; reflexivity.
Qed.

Lemma read_line_editable (v : vars) (raw : string) :
  editable (strip raw) = true -> read_line v raw = Raise (NameError "line").
Proof.
  intros H. unfold read_line.
  destruct (editable_line _ H) as [-> ->].
  rewrite (parse_editable _ H). reflexivity.
Qed.

Lemma read_lines_editable (lines : list string) (raw : string) :
  In raw lines -> editable (strip raw) = true ->
  forall v, read_lines v lines = Raise (NameError "line").
Proof.
  induction lines as [|l rest IH]; [contradiction|].
  intros Hin Hed v. cbn.
  destruct (read_line v l) as [v'|e] eqn:Hl; cbn.
  - destruct Hin as [-> | Hin].
    + rewrite (read_line_editable v raw Hed) in Hl. discriminate.
    + apply IH; assumption.
  - rewrite (read_line_error _ _ _ Hl). reflexivity.
Qed.

(** X4.  A requirements file with an editable line makes [requires]
    raise the NameError of [parse], also when nothing that is installed
    is editable. *)
Theorem requires_raises_on_editable_line :
  forall (frozen lines : list string) (raw : string),
    Forall (fun dep => editable dep = false) frozen ->
    In raw lines -> editable (strip raw) = true ->
    requires frozen (Some lines) = Raise (NameError "line").
Proof.
  intros frozen lines raw Hfrozen Hin Hed.
  destruct (packages_not_editable frozen Hfrozen) as [items Hitems].
  unfold requires. rewrite Hitems. cbn [bind].
  rewrite (read_lines_editable lines raw Hin Hed). reflexivity.
Qed.

Lemma requires_raises_on_editable_line_witness :
  requires ["numpy==1.9.2"] (Some ["numpy"; "  -e ../local-package  "])
  = Raise (NameError "line").
Proof.
  apply (requires_raises_on_editable_line ["numpy==1.9.2"]
           ["numpy"; "  -e ../local-package  "] "  -e ../local-package  ").
  - repeat constructor.
  - cbn. auto.
  - reflexivity.
Defined.

(** X5.  Without a requirements file, [requires] yields the frozen
    dependencies and nothing else, each once, sorted without regard to
    case. *)
Theorem requires_without_file_sorts :
  forall (frozen : list string) (items : list (string * string)),
    packages frozen = Ok items ->
    NoDup (map fst items) ->
    exists out,
      requires frozen None = Ok out
      /\ Permutation out frozen
      /\ Sorted key_le out.
Proof.
  intros frozen items Hitems Hnd.
  exists (sorted frozen). unfold requires. rewrite Hitems. cbn.
  rewrite (dict_of_distinct items Hnd). unfold tail_lines, dict_values.
  cbn. rewrite (packages_values _ _ Hitems), app_nil_r.
  split; [reflexivity|]. split; [apply sorted_perm|apply sorted_Sorted].
Qed.

Lemma requires_without_file_sorts_witness :
  exists out,
    requires ["numpy==1.9.2"; "Flask==0.10.1"; "requests==2.7.0"] None
    = Ok out
    /\ Permutation out ["numpy==1.9.2"; "Flask==0.10.1"; "requests==2.7.0"]
    /\ Sorted key_le out.
Proof.
  apply (requires_without_file_sorts
           ["numpy==1.9.2"; "Flask==0.10.1"; "requests==2.7.0"]
           [("numpy", "numpy==1.9.2"); ("Flask", "Flask==0.10.1");
            ("requests", "requests==2.7.0")]).
  - reflexivity.
  - cbn. repeat constructor; cbn; intuition discriminate.
Defined.

Example requires_without_file :
  requires ["numpy==1.9.2"; "Flask==0.10.1"; "requests==2.7.0"] None
  = Ok ["Flask==0.10.1"; "numpy==1.9.2"; "requests==2.7.0"].
Proof. reflexivity. Qed.

(** *** The loop over the requirements file *)

Lemma grows_refl (v : vars) : grows v v.
Proof. constructor; auto. Qed.

Lemma grows_trans (v1 v2 v3 : vars) : grows v1 v2 -> grows v2 v3 -> grows v1 v3.
Proof.
  intros [Y1 R1 A1 K1] [Y2 R2 A2 K2]. constructor; auto.
  intros dep H. destruct (K1 dep H) as [H1 | [H1 | H1]]; auto.
Qed.

Lemma grows_yield (s : string) (v : vars) : grows v (yield s v).
Proof.
  constructor; cbn; auto. intros x H. apply in_or_app. auto.
Qed.

Lemma grows_yield_popped (name dep : string) (v : vars) :
  dict_get name (installed v) = Some dep ->
  grows v (yield_popped name dep v)
  /\ grows v (yield_popped name (commented dep) v).
Proof.
  intros Hget. split; constructor; cbn; auto;
    try (intros x H; apply in_or_app; auto; fail);
    try (intros n H; apply dict_pop_get_None; exact H).
  - intros d H. destruct (dict_pop_values name _ d H) as [H' | H']; auto.
    right. left. apply in_or_app. right. left. congruence.
  - intros d H. destruct (dict_pop_values name _ d H) as [H' | H']; auto.
    right. right. apply in_or_app. right. left. congruence.
Qed.

Lemma read_line_grows (v v' : vars) (raw : string) :
  read_line v raw = Ok v' -> grows v v'.
Proof.
  unfold read_line.
  destruct (String.eqb (strip raw) EmptyString
            || existsb (startswith (strip raw)) reqargs).
  - intros H. inversion H. apply grows_yield.
  - destruct (startswith (strip raw) "#").
    + destruct (parse (lstrip_set "# " (strip raw))) as [[name d]|e]; cbn;
        [|discriminate].
      destruct (dict_get name (installed v)) as [dep|] eqn:Hget;
        intros H; inversion H.
      * apply (grows_yield_popped name dep v Hget).
      * apply grows_yield.
    + destruct (parse (strip raw)) as [[name d]|e]; cbn; [|discriminate].
      destruct (dict_get name (installed v)) as [dep|] eqn:Hget;
        intros H; inversion H.
      * apply (grows_yield_popped name dep v Hget).
      * constructor; cbn; auto. intros x Hx. apply in_or_app. auto.
Qed.

Lemma read_lines_grows (lines : list string) :
  forall v v', read_lines v lines = Ok v' -> grows v v'.
Proof.
  induction lines as [|raw rest IH]; intros v v'; cbn.
  - intros H. inversion H. apply grows_refl.
  - destruct (read_line v raw) as [v1|e] eqn:H1; cbn; [|discriminate].
    intros H. eapply grows_trans; [eapply read_line_grows|eapply IH]; eauto.
Qed.

(** What [requires] returns when the file has been read. *)
Lemma requires_with_file (frozen lines out : list string)
    (items : list (string * string)) :
  packages frozen = Ok items ->
  requires frozen (Some lines) = Ok out ->
  exists v,
    read_lines {| installed := dict_of items; removed := [];
                  yielded := [] |} lines = Ok v
    /\ (forall s, In s (yielded v) -> In s out)
    /\ (forall s, In s (dict_values (installed v)) -> In s out)
    /\ (forall name, In name (removed v) ->
                     In removed_header out /\ In (commented name) out).
Proof.
  intros Hitems. unfold requires. rewrite Hitems. cbn [bind].
  destruct (read_lines _ lines) as [v|e]; cbn [bind]; [|discriminate].
  intros H. inversion H as [Hout]. clear H. exists v.
  split; [reflexivity|].
  assert (Htail : forall v0, installed v0 = installed v ->
                             removed v0 = removed v ->
            (forall s, In s (dict_values (installed v)) ->
                       In s (tail_lines v0))
            /\ (forall name, In name (removed v) ->
                  In removed_header (tail_lines v0)
                  /\ In (commented name) (tail_lines v0))).
  { intros v0 Hi Hr. unfold tail_lines. rewrite Hi, Hr. split.
    - intros s Hs. apply in_or_app. left.
      apply (Permutation_in s (Permutation_sym (sorted_perm _))). exact Hs.
    - intros name Hn. destruct (removed v) as [|r rs] eqn:E; [contradiction|].
      split; apply in_or_app; right; [left; reflexivity|].
      right. apply in_map. exact Hn. }
  destruct (installed v) as [|i rest] eqn:Hinst.
  - destruct (Htail v Hinst eq_refl) as [T1 T2].
    split; [intros s Hs; apply in_or_app; auto|].
    split; [intros s []|].
    intros name Hn. destruct (T2 name Hn).
    split; apply in_or_app; auto.
  - destruct (Htail (yield added_header v)) as [T1 T2]; [exact Hinst|reflexivity|].
    split; [intros s Hs; apply in_or_app; left; cbn; apply in_or_app; auto|].
    split; [intros s Hs; apply in_or_app; auto|].
    intros name Hn. destruct (T2 name Hn).
    split; apply in_or_app; auto.
Qed.

(** X6.  No installed dependency is lost: when pip freeze lists every
    package once, every frozen dependency is in what [requires] yields,
    as it is or, where the requirements file had its package in a
    comment, as a comment. *)
Theorem requires_keeps_every_installed :
  forall (frozen : list string) (reqfile : option (list string))
         (items : list (string * string)) (out : list string),
    packages frozen = Ok items ->
    NoDup (map fst items) ->
    requires frozen reqfile = Ok out ->
    forall dep, In dep frozen -> In dep out \/ In (commented dep) out.
Proof.
  intros frozen reqfile items out Hitems Hnd Hout dep Hdep.
  assert (Hvalues : dict_values (dict_of items) = frozen).
  { rewrite (dict_of_distinct items Hnd). apply packages_values. exact Hitems. }
  destruct reqfile as [lines|].
  - destruct (requires_with_file frozen lines out items Hitems Hout)
      as [v [Hv [Hy [Hi _]]]].
    assert (G := read_lines_grows lines _ _ Hv).
    assert (Hstart : In dep (dict_values
                               (installed {| installed := dict_of items;
                                             removed := [];
                                             yielded := [] |})))
      by (cbn [installed]; rewrite Hvalues; exact Hdep).
    destruct (grows_kept _ _ G dep Hstart) as [H | [H | H]]; auto.
  - unfold requires in Hout. rewrite Hitems in Hout.
    cbn [bind yielded installed removed app] in Hout.
    unfold tail_lines in Hout. cbn [installed removed] in Hout.
    inversion Hout. left. apply in_or_app. left.
    apply (Permutation_in dep (Permutation_sym (sorted_perm _))).
    rewrite Hvalues. exact Hdep.
Qed.

Lemma requires_keeps_every_installed_witness :
  In "numpy==1.9.2"
    ["# numeric"; "#numpy==1.9.2"; "Flask==0.10.1";
     added_header; "requests==2.7.0"]
  \/ In (commented "numpy==1.9.2")
       ["# numeric"; "#numpy==1.9.2"; "Flask==0.10.1";
        added_header; "requests==2.7.0"].
Proof.
  apply (requires_keeps_every_installed
           ["numpy==1.9.2"; "Flask==0.10.1"; "requests==2.7.0"]
           (Some ["# numeric"; "# numpy>=1.8"; "Flask"])
           [("numpy", "numpy==1.9.2"); ("Flask", "Flask==0.10.1");
            ("requests", "requests==2.7.0")]).
  - reflexivity.
  - cbn. repeat constructor; cbn; intuition discriminate.
  - reflexivity.
  - cbn. auto.
Defined.

Lemma requires_Ok_packages (frozen : list string)
    (reqfile : option (list string)) (out : list string) :
  requires frozen reqfile = Ok out -> exists items, packages frozen = Ok items.
Proof.
  unfold requires. destruct (packages frozen) as [items|e]; cbn; [eauto|].
  discriminate.
Qed.

Lemma read_lines_kept (lines : list string) (raw : string) :
  In raw lines -> kept_line (strip raw) = true ->
  forall v v', read_lines v lines = Ok v' -> In (strip raw) (yielded v').
Proof.
  induction lines as [|l rest IH]; [contradiction|].
  intros Hin Hk v v'. cbn.
  destruct (read_line v l) as [v1|e] eqn:H1; cbn; [|discriminate].
  intros Hrest. destruct Hin as [-> | Hin]; [|eapply IH; eauto].
  unfold read_line in H1. unfold kept_line in Hk. rewrite Hk in H1.
  inversion H1; subst v1.
  apply (grows_yielded _ _ (read_lines_grows _ _ _ Hrest)).
  cbn. apply in_or_app. right. left. reflexivity.
Qed.

(** X7.  The blank lines and the argument lines of the requirements
    file (the lines that start with -r, -f, -i, -Z or their long forms)
    are in what [requires] yields, stripped and otherwise as they
    are. *)
Theorem requires_keeps_argument_lines :
  forall (frozen lines out : list string) (raw : string),
    requires frozen (Some lines) = Ok out ->
    In raw lines ->
    kept_line (strip raw) = true ->
    In (strip raw) out.
Proof.
  intros frozen lines out raw Hout Hin Hk.
  destruct (requires_Ok_packages _ _ _ Hout) as [items Hitems].
  destruct (requires_with_file frozen lines out items Hitems Hout)
    as [v [Hv [Hy _]]].
  apply Hy. eapply read_lines_kept; eauto.
Qed.

Lemma requires_keeps_argument_lines_witness :
  In (strip "  -r base.txt ")
    ["-r base.txt"; EmptyString; "Flask==0.10.1"].
Proof.
  apply (requires_keeps_argument_lines ["Flask==0.10.1"]
           ["  -r base.txt "; "  "; "Flask"]
           ["-r base.txt"; EmptyString; "Flask==0.10.1"] "  -r base.txt ").
  - reflexivity.
  - cbn. auto.
  - reflexivity.
Defined.

Lemma dict_get_set (n k v : string) (d : dict) :
  dict_get n (dict_set k v d)
  = if String.eqb n k then Some v else dict_get n d.
Proof.
  induction d as [|[k' v'] d IH]; cbn; [reflexivity|].
  destruct (String.eqb_spec k k') as [-> | Hk]; cbn.
  - destruct (String.eqb n k'); reflexivity.
  - rewrite IH. destruct (String.eqb_spec n k') as [-> | Hn];
      [|reflexivity].
    destruct (String.eqb_spec k' k); [congruence|reflexivity].
Qed.

Lemma dict_of_absent (items : list (string * string)) (n : string) :
  ~ In n (map fst items) -> dict_get n (dict_of items) = None.
Proof.
  unfold dict_of.
  assert (H : forall acc, dict_get n acc = None ->
                          ~ In n (map fst items) ->
             dict_get n (fold_left
                           (fun d kv => dict_set (fst kv) (snd kv) d)
                           items acc) = None).
  { induction items as [|[k v] items IH]; intros acc Hacc Hn; [exact Hacc|].
    cbn [fold_left fst snd]. apply IH.
    - rewrite dict_get_set, Hacc.
      destruct (String.eqb_spec n k) as [-> | _]; [|reflexivity].
      exfalso. apply Hn. left. reflexivity.
    - intros Hin. apply Hn. right. exact Hin. }
  apply H. reflexivity.
Qed.

Lemma read_lines_removed (lines : list string) (raw name d : string) :
  In raw lines ->
  kept_line (strip raw) = false ->
  startswith (strip raw) "#" = false ->
  parse (strip raw) = Ok (name, d) ->
  forall v v',
    dict_get name (installed v) = None ->
    read_lines v lines = Ok v' ->
    In name (removed v').
Proof.
  induction lines as [|l rest IH]; [contradiction|].
  intros Hin Hk Hc Hp v v' Habs. cbn.
  destruct (read_line v l) as [v1|e] eqn:H1; cbn; [|discriminate].
  intros Hrest. assert (G1 := read_line_grows _ _ _ H1).
  destruct Hin as [-> | Hin].
  - unfold read_line in H1. unfold kept_line in Hk.
    rewrite Hk, Hc, Hp in H1. cbn in H1. rewrite Habs in H1.
    inversion H1; subst v1.
    apply (grows_removed _ _ (read_lines_grows _ _ _ Hrest)).
    cbn. apply in_or_app. right. left. reflexivity.
  - eapply (IH Hin Hk Hc Hp v1 v'); [|exact Hrest].
    apply (grows_absent _ _ G1). exact Habs.
Qed.

(** X8.  A requirement of the file whose package pip freeze does not
    list is reported: what [requires] yields holds the header of the
    requirements that are no longer installed and, as a comment, the
    name of the package. *)
Theorem requires_reports_uninstalled :
  forall (frozen lines out : list string) (items : list (string * string))
         (raw name d : string),
    packages frozen = Ok items ->
    requires frozen (Some lines) = Ok out ->
    In raw lines ->
    kept_line (strip raw) = false ->
    startswith (strip raw) "#" = false ->
    parse (strip raw) = Ok (name, d) ->
    ~ In name (map fst items) ->
    In removed_header out /\ In (commented name) out.
Proof.
  intros frozen lines out items raw name d Hitems Hout Hin Hk Hc Hp Hn.
  destruct (requires_with_file frozen lines out items Hitems Hout)
    as [v [Hv [_ [_ Hr]]]].
  apply Hr.
  eapply (read_lines_removed lines raw name d Hin Hk Hc Hp); [|exact Hv].
  cbn. apply dict_of_absent. exact Hn.
Qed.

Lemma requires_reports_uninstalled_witness :
  In removed_header ["Flask==0.10.1"; removed_header; "#nose"]
  /\ In (commented "nose") ["Flask==0.10.1"; removed_header; "#nose"].
Proof.
  apply (requires_reports_uninstalled ["Flask==0.10.1"]
           ["Flask"; "nose>=1.3"]
           ["Flask==0.10.1"; removed_header; "#nose"]
           [("Flask", "Flask==0.10.1")] "nose>=1.3" "nose" "nose>=1.3").
  - reflexivity.
  - reflexivity.
  - cbn. auto.
  - reflexivity.
  - reflexivity.
  - reflexivity.
  - cbn. intuition discriminate.
Defined.

(** ** [pwgen.py]: the encoding *)

Import Pwgen PwgenConfigure.

Lemma round_length (h : list Z) (kw : Z * Z) :
  List.length (round h kw) = List.length h.
Proof.
  unfold round.
  destruct h as [|a [|b [|c [|d [|e [|f [|g [|hh [|x h]]]]]]]]]; reflexivity.
Qed.

Lemma fold_round_length (l : list (Z * Z)) :
  forall h, List.length (fold_left round l h) = List.length h.
Proof.
  induction l as [|kw l IH]; intros h; cbn; [reflexivity|].
  rewrite IH. apply round_length.
Qed.

Lemma compress_length (h block : list Z) :
  List.length (compress h block) = List.length h.
Proof.
  unfold compress. rewrite length_map, length_combine, fold_round_length.
  apply Nat.min_id.
Qed.

Lemma blocks_length (n : nat) :
  forall h bytes, List.length (blocks n h bytes) = List.length h.
Proof.
  induction n as [|n IH]; intros h bytes; cbn; [reflexivity|].
  destruct bytes; [reflexivity|]. rewrite IH. apply compress_length.
Qed.

Lemma flat_map_be_bytes_length (l : list Z) :
  List.length (flat_map (be_bytes 4) l) = 4 * List.length l.
Proof.
  induction l as [|x l IH]; [reflexivity|].
  cbn [flat_map]. rewrite length_app, IH. cbn [be_bytes List.length]. lia.
Qed.

(** The digest has 32 bytes. *)
Lemma sha256_length (s : string) : List.length (sha256 s) = 32.
Proof.
  unfold sha256. rewrite flat_map_be_bytes_length, blocks_length.
  reflexivity.
Qed.

Lemma b64encode_length (n : nat) :
  forall bytes,
    List.length bytes <= n ->
    String.length (b64encode bytes) = 4 * ((List.length bytes + 2) / 3).
Proof.
  induction n as [|n IH]; intros bytes Hn.
  - destruct bytes; [reflexivity|cbn in Hn; lia].
  - destruct bytes as [|a [|b [|c rest]]]; try reflexivity.
    cbn [b64encode String.length List.length].
    rewrite IH by (cbn in Hn; lia).
    replace (S (S (S (List.length rest))) + 2)
      with (List.length rest + 2 + 1 * 3) by lia.
    rewrite Nat.div_add by lia. lia.
Qed.

Lemma b64encode_padding (k : nat) :
  forall bytes,
    List.length bytes = 3 * k + 2 ->
    exists body, b64encode bytes = body ++ "=".
Proof.
  induction k as [|k IH]; intros bytes Hlen.
  - destruct bytes as [|a [|b [|c rest]]]; cbn in Hlen; try lia.
    eexists (String _ (String _ (String _ EmptyString))). reflexivity.
  - destruct bytes as [|a [|b [|c rest]]]; cbn in Hlen; try lia.
    destruct (IH rest) as [body Hbody]; [lia|].
    cbn [b64encode]. rewrite Hbody.
    eexists (String _ (String _ (String _ (String _ body)))). reflexivity.
Qed.

Lemma encode_password_not_empty (password : string) :
  encode_password password <> EmptyString.
Proof.
  intros H. apply (f_equal String.length) in H. unfold encode_password in H.
  rewrite (b64encode_length 32), sha256_length in H
    by (rewrite sha256_length; lia).
  discriminate.
Qed.

(** X9.  Whatever is hashed, the encoded password has 44 characters,
    the last of which is the padding character. *)
Theorem encode_password_length :
  forall password : string,
    String.length (encode_password password) = 44
    /\ exists body, encode_password password = body ++ "=".
Proof.
  intros password. unfold encode_password. split.
  - rewrite (b64encode_length 32) by (rewrite sha256_length; lia).
    rewrite sha256_length. reflexivity.
  - apply (b64encode_padding 10). apply sha256_length.
Qed.

(** ** [pwgen.py]: asking for the master passphrase *)

Lemma truthy_Some (c : string) : c <> EmptyString -> truthy (Some c) = Some c.
Proof. destruct c; [congruence|reflexivity]. Qed.

(** What one call of [get_password] and the calls it makes do, given
    frames enough: they end with a passphrase that is not empty, with
    the end of the input or with a ConsoleError; they print four
    warnings at most and read ten lines at most, fewer when attempts
    have been made already. *)
Lemma get_password_rounds (m : machine) (depth : nat) :
  forall (attempts : nat) (confirm : option string) (t : tty)
         (r : result string) (t' : tty),
    5 <= depth + attempts -> 1 <= depth ->
    get_password m depth attempts confirm t = (r, t') ->
    ((exists pw, r = Ok pw /\ pw <> EmptyString)
     \/ r = Raise EOFError
     \/ exists msg, r = Raise (ConsoleError msg))
    /\ List.length (printed t') <= List.length (printed t) + (4 - attempts)
    /\ List.length (typed t)
       <= List.length (typed t') + 2 * Nat.max 1 (5 - attempts).
Proof.
  induction depth as [|depth IH]; intros attempts confirm t r t' Hd H1;
    [lia|].
  assert (Hdecide : forall password c t1,
    List.length (printed t1) = List.length (printed t) ->
    List.length (typed t) <= List.length (typed t1) + 2 ->
    (if negb (confirm_password m password c)
     then
       if attempts <=? 3
       then
         mbind
           (print_line
              "Password doesn't match configuration or confirmation, try again.")
           (fun _ => get_password m depth (attempts + 1)
                       (password_master (settings m)))
       else
         raise (ConsoleError
                  "Password attempt maximum, stretch fingers and try again!")
     else
       if String.eqb password EmptyString
       then raise (ConsoleError
                     "You must supply a base password for the generator!")
       else ret password) t1 = (r, t') ->
    ((exists pw, r = Ok pw /\ pw <> EmptyString)
     \/ r = Raise EOFError
     \/ exists msg, r = Raise (ConsoleError msg))
    /\ List.length (printed t') <= List.length (printed t) + (4 - attempts)
    /\ List.length (typed t)
       <= List.length (typed t') + 2 * Nat.max 1 (5 - attempts)).
  { intros password c t1 Hp Ht.
    destruct (negb (confirm_password m password c)).
    - destruct (attempts <=? 3) eqn:Ha.
      + apply Nat.leb_le in Ha. unfold mbind, print_line. intros Hrun.
        apply IH in Hrun; [|lia|lia].
        destruct Hrun as [IHr [IHp IHt]].
        cbn [typed printed] in IHp, IHt.
        rewrite length_app in IHp. cbn [List.length] in IHp.
        split; [exact IHr|]. split; lia.
      + unfold raise. intros Hrun. inversion Hrun; subst.
        split; [right; right; eauto|]. split; lia.
    - destruct (String.eqb_spec password EmptyString) as [-> | Hne];
        unfold raise, ret; intros Hrun; inversion Hrun; subst.
      + split; [right; right; eauto|]. split; lia.
      + split; [left; eauto|]. split; lia. }
  cbn [get_password]. unfold mbind at 1. unfold getpass at 1.
  destruct (typed t) as [|line rest] eqn:Ht.
  - intros Hrun. inversion Hrun; subst. rewrite Ht. cbn [List.length].
    split; [right; left; reflexivity|]. split; lia.
  - destruct (truthy confirm) as [c|].
    + unfold mbind at 1. unfold ret at 1.
      apply (Hdecide (strip line) c
               {| typed := rest; printed := printed t |});
        cbn; lia.
    + unfold mbind at 1. unfold mbind at 1. unfold getpass at 1.
      cbn [typed printed].
      destruct rest as [|again rest'].
      * intros Hrun. inversion Hrun; subst.
        cbn [typed printed List.length].
        split; [right; left; reflexivity|]. split; lia.
      * unfold ret at 1.
        apply (Hdecide (strip line) (strip again)
                 {| typed := rest'; printed := printed t |});
          cbn; lia.
Qed.

(** X10.  [get_password] gives up after five attempts: whatever is
    typed and whatever is configured, it reads ten lines at most and
    prints four warnings at most, and it ends with a passphrase that is
    not empty, with the end of the input, or with a ConsoleError; the
    recursion never runs out of frames. *)
Theorem get_password_five_attempts :
  forall (m : machine) (t : tty),
    let run := get_password m recursion_limit 0
                 (password_master (settings m)) t in
    ((exists pw, fst run = Ok pw /\ pw <> EmptyString)
     \/ fst run = Raise EOFError
     \/ exists msg, fst run = Raise (ConsoleError msg))
    /\ List.length (printed (snd run)) <= List.length (printed t) + 4
    /\ List.length (typed t) <= List.length (typed (snd run)) + 10.
Proof.
  intros m t run.
  destruct run as [r t'] eqn:Hrun. subst run. cbn [fst snd].
  replace (List.length (printed t) + 4)
    with (List.length (printed t) + (4 - 0)) by lia.
  apply (get_password_rounds m recursion_limit 0
           (password_master (settings m)) t r t');
    [unfold recursion_limit; lia | unfold recursion_limit; lia | exact Hrun].
Qed.

(** A passphrase that [get_password] returns on a machine with a stored
    master has passed [confirm_password] against that master, and is not
    empty. *)
Lemma get_password_confirmed (m : machine) (h : string) (depth : nat) :
  truthy (password_master (settings m)) = Some h ->
  forall (attempts : nat) (confirm : option string) (t t' : tty)
         (pw : string),
    truthy confirm = Some h ->
    get_password m depth attempts confirm t = (Ok pw, t') ->
    confirm_password m pw h = true /\ pw <> EmptyString.
Proof.
  intros Hm. induction depth as [|depth IH];
    intros attempts confirm t t' pw Hc; cbn [get_password].
  - unfold raise. discriminate.
  - unfold mbind at 1. unfold getpass at 1.
    destruct (typed t) as [|line rest]; [discriminate|].
    rewrite Hc. unfold mbind at 1. unfold ret at 1.
    destruct (confirm_password m (strip line) h) eqn:Hok; cbn [negb].
    + destruct (String.eqb_spec (strip line) EmptyString) as [He | Hne].
      * unfold raise. discriminate.
      * unfold ret. intros H. inversion H; subst. split; assumption.
    + destruct (attempts <=? 3).
      * unfold mbind, print_line. apply IH. exact Hm.
      * unfold raise. discriminate.
Qed.

(** With something to confirm against, a passphrase that passes
    [confirm_password] is returned after one prompt. *)
Lemma get_password_first_prompt (m : machine) (depth attempts : nat)
    (confirm : option string) (c line : string) (rest out : list string) :
  truthy confirm = Some c ->
  confirm_password m (strip line) c = true ->
  strip line <> EmptyString ->
  get_password m (S depth) attempts confirm
    {| typed := line :: rest; printed := out |}
  = (Ok (strip line), {| typed := rest; printed := out |}).
Proof.
  intros Hc Hok Hne. cbn [get_password].
  unfold mbind at 1. unfold getpass at 1. cbn [typed printed].
  rewrite Hc. unfold mbind at 1. unfold ret at 1. rewrite Hok. cbn [negb].
  destruct (String.eqb_spec (strip line) EmptyString); [contradiction|].
  reflexivity.
Qed.

Lemma confirm_password_cases (m : machine) (password confirm : string) :
  confirm_password m password confirm = true
  <-> password = confirm
      \/ encode_password (device_uuid m ++ password) = confirm.
Proof.
  unfold confirm_password, get_device.
  destruct (String.eqb_spec password confirm) as [-> | Hne].
  - split; auto.
  - destruct (String.eqb_spec
                (encode_password (device_uuid m ++ password)) confirm)
      as [He | Hne'].
    + split; auto.
    + split; [discriminate|]. intros [H | H]; contradiction.
Qed.

(** ** [pwgen.py]: [config], then [generate] *)

Import PwgenConfigure.

Lemma configure_handle_written (m : machine)
    (str_settings : configuration -> string) (now : string)
    (args : config_arguments) (t t' : tty) (path : string)
    (new : configuration) (last message : string) :
  configure_handle m str_settings now args t
    = (Ok (Written path new last message), t') ->
  exists pw,
    get_password m recursion_limit 0 (password_master (settings m)) t
      = (Ok pw, t')
    /\ new = {| password_master :=
                  Some (encode_password (device_uuid m ++ pw));
                conf_device := conf_device (settings m);
                conf_salt := conf_salt (settings m) |}
    /\ path = output args /\ last = now.
Proof.
  unfold configure_handle. destruct (show args).
  - unfold ret. discriminate.
  - unfold mbind.
    destruct (get_password m recursion_limit 0
                (password_master (settings m)) t) as [[pw|e] t1];
      [|discriminate].
    unfold ret, get_device. intros H. inversion H; subst.
    exists pw. repeat split.
Qed.

(** X11.  What [config] writes lets [generate] through: on the machine
    with the settings [config] has written, whoever types the passphrase
    given to [config] is asked once, is not asked to repeat it, sees no
    warning, and gets the password of the domain, the salt and that
    passphrase. *)
Theorem configure_then_generate :
  forall (m : machine) (str_settings : configuration -> string)
         (now : string) (args : config_arguments) (t t' : tty)
         (path : string) (new : configuration) (last message : string),
    configure_handle m str_settings now args t
      = (Ok (Written path new last message), t') ->
    exists pw,
      pw <> EmptyString
      /\ password_master new
         = Some (encode_password (device_uuid m ++ pw))
      /\ forall (a : arguments) (d : string) (ds : list string)
                (line : string) (rest out : list string),
           domain a = d :: ds ->
           strip line = pw ->
           handle {| settings := new; device_uuid := device_uuid m |} a
             {| typed := line :: rest; printed := out |}
           = (Ok (encode_password
                    (if device a
                     then (d ++ salt a ++ pw) ++ device_uuid m
                     else d ++ salt a ++ pw)),
              {| typed := rest; printed := out |}).
Proof.
  intros m str_settings now args t t' path new last message H.
  destruct (configure_handle_written _ _ _ _ _ _ _ _ _ _ H)
    as [pw [Hpw [-> [_ _]]]].
  assert (Hne : pw <> EmptyString).
  { destruct (get_password_rounds m recursion_limit 0
                (password_master (settings m)) t (Ok pw) t')
      as [[[pw' [E Hne]] | [E | [msg E]]] _];
      try (unfold recursion_limit; lia); try exact Hpw;
      try discriminate.
    inversion E; subst. exact Hne. }
  exists pw. split; [exact Hne|]. split; [reflexivity|].
  intros a d ds line rest out Hd Hline.
  set (m' := {| settings :=
                  {| password_master :=
                       Some (encode_password (device_uuid m ++ pw));
                     conf_device := conf_device (settings m);
                     conf_salt := conf_salt (settings m) |};
                device_uuid := device_uuid m |}).
  rewrite (handle_result m' a _ {| typed := rest; printed := out |} pw d ds
             Hd); [reflexivity|].
  cbn [m' settings password_master]. unfold recursion_limit.
  rewrite <- Hline.
  apply get_password_first_prompt
    with (c := encode_password (device_uuid m ++ strip line)).
  - apply truthy_Some. apply encode_password_not_empty.
  - apply confirm_password_cases. right. reflexivity.
  - rewrite Hline. exact Hne.
Qed.

Lemma configure_then_generate_witness :
  exists pw,
    pw <> EmptyString
    /\ password_master
         {| password_master :=
              Some (encode_password (device_uuid laptop ++ "secret"));
            conf_device := false; conf_salt := EmptyString |}
       = Some (encode_password (device_uuid laptop ++ pw))
    /\ forall (a : arguments) (d : string) (ds : list string)
              (line : string) (rest out : list string),
         domain a = d :: ds ->
         strip line = pw ->
         handle
           {| settings :=
                {| password_master :=
                     Some (encode_password (device_uuid laptop ++ "secret"));
                   conf_device := false; conf_salt := EmptyString |};
              device_uuid := device_uuid laptop |} a
           {| typed := line :: rest; printed := out |}
         = (Ok (encode_password
                  (if device a
                   then (d ++ salt a ++ pw) ++ device_uuid laptop
                   else d ++ salt a ++ pw)),
            {| typed := rest; printed := out |}).
Proof.
  apply (configure_then_generate laptop (fun _ => EmptyString)
           "2015-06-01 12:00:00"
           {| show := false; output := "/home/user/.pwgen.yaml" |}
           {| typed := [" secret"; "secret "]; printed := [] |}
           {| typed := []; printed := [] |}
           "/home/user/.pwgen.yaml"
           {| password_master :=
                Some (encode_password (device_uuid laptop ++ "secret"));
              conf_device := false; conf_salt := EmptyString |}
           "2015-06-01 12:00:00"
           "Configured settings in /home/user/.pwgen.yaml").
  vm_compute. reflexivity.
Defined.

(** X12.  [config] cannot replace a stored master: on a machine whose
    settings hold a master, [get_password] confirms what is typed against
    it, so what [config] writes is the stored master again, or, when the
    stored master itself was typed, the encoding of the device and that
    stored master. *)
Theorem configure_keeps_master :
  forall (m : machine) (str_settings : configuration -> string)
         (now : string) (args : config_arguments) (t t' : tty)
         (path : string) (new : configuration) (last message : string)
         (h : string),
    truthy (password_master (settings m)) = Some h ->
    configure_handle m str_settings now args t
      = (Ok (Written path new last message), t') ->
    password_master new = Some h
    \/ password_master new
       = Some (encode_password (device_uuid m ++ h)).
Proof.
  intros m str_settings now args t t' path new last message h Hm H.
  destruct (configure_handle_written _ _ _ _ _ _ _ _ _ _ H)
    as [pw [Hpw [-> [_ _]]]].
  destruct (get_password_confirmed m h recursion_limit Hm 0
              (password_master (settings m)) t t' pw Hm Hpw) as [Hok _].
  apply confirm_password_cases in Hok. cbn [password_master].
  destruct Hok as [-> | ->]; [right|left]; reflexivity.
Qed.

Lemma configure_keeps_master_witness :
  password_master
    {| password_master :=
         Some (encode_password (device_uuid desktop ++ "secret"));
       conf_device := false; conf_salt := EmptyString |}
  = Some "/FtgPfPTF2MIM6M2CZjF/QcAhqodiQ03BarKNmIpsYo="
  \/ password_master
       {| password_master :=
            Some (encode_password (device_uuid desktop ++ "secret"));
          conf_device := false; conf_salt := EmptyString |}
     = Some (encode_password
               (device_uuid desktop
                ++ "/FtgPfPTF2MIM6M2CZjF/QcAhqodiQ03BarKNmIpsYo=")).
Proof.
  apply (configure_keeps_master desktop (fun _ => EmptyString)
           "2015-06-01 12:00:00"
           {| show := false; output := "/home/user/.pwgen.yaml" |}
           {| typed := ["wrong"; "secret"]; printed := [] |}
           {| typed := [];
              printed := ["Password doesn't match configuration or confirmation, try again."] |}
           "/home/user/.pwgen.yaml"
           {| password_master :=
                Some (encode_password (device_uuid desktop ++ "secret"));
              conf_device := false; conf_salt := EmptyString |}
           "2015-06-01 12:00:00"
           "Configured settings in /home/user/.pwgen.yaml"
           "/FtgPfPTF2MIM6M2CZjF/QcAhqodiQ03BarKNmIpsYo=").
  - reflexivity.
  - vm_compute. reflexivity.
Defined.

(** X13.  The first phase of [confirm_password] compares what is typed
    with the stored master as it is: whoever types the text stored in
    the settings file is let through at the first prompt, and that text
    is returned as the passphrase. *)
Theorem get_password_accepts_stored_master :
  forall (m : machine) (h line : string) (rest out : list string),
    truthy (password_master (settings m)) = Some h ->
    strip line = h ->
    get_password m recursion_limit 0 (password_master (settings m))
      {| typed := line :: rest; printed := out |}
    = (Ok h, {| typed := rest; printed := out |}).
Proof.
  intros m h line rest out Hm Hline. unfold recursion_limit.
  rewrite <- Hline.
  apply get_password_first_prompt with (c := h).
  - exact Hm.
  - apply confirm_password_cases. left. exact Hline.
  - rewrite Hline. intros ->.
    destruct (password_master (settings m)) as [[|c s]|]; discriminate.
Qed.

Lemma get_password_accepts_stored_master_witness :
  get_password desktop recursion_limit 0 (password_master (settings desktop))
    {| typed := ["/FtgPfPTF2MIM6M2CZjF/QcAhqodiQ03BarKNmIpsYo="; "next"];
       printed := [] |}
  = (Ok "/FtgPfPTF2MIM6M2CZjF/QcAhqodiQ03BarKNmIpsYo=",
     {| typed := ["next"]; printed := [] |}).
Proof.
  apply (get_password_accepts_stored_master desktop
           "/FtgPfPTF2MIM6M2CZjF/QcAhqodiQ03BarKNmIpsYo="
           "/FtgPfPTF2MIM6M2CZjF/QcAhqodiQ03BarKNmIpsYo=" ["next"] []).
  - reflexivity.
  - reflexivity.
Defined.

(** ** [pwgen.py]: what is hashed *)

(** X14.  [handle] joins the domain, the salt and the passphrase with
    nothing between them: two requests whose domain followed by the salt
    read the same get the same password. *)
Theorem handle_joins_domain_and_salt :
  forall (m : machine) (a1 a2 : arguments) (t : tty) (d1 d2 : string)
         (r1 r2 : list string),
    domain a1 = d1 :: r1 ->
    domain a2 = d2 :: r2 ->
    d1 ++ salt a1 = d2 ++ salt a2 ->
    device a1 = device a2 ->
    handle m a1 t = handle m a2 t.
Proof.
  intros m a1 a2 t d1 d2 r1 r2 H1 H2 Hjoin Hdev.
  destruct (get_password m recursion_limit 0
              (password_master (settings m)) t) as [[master|e] t'] eqn:Hpw.
  - rewrite (handle_result m a1 t t' master d1 r1 H1 Hpw).
    rewrite (handle_result m a2 t t' master d2 r2 H2 Hpw).
    rewrite Hdev.
    rewrite <- (append_assoc d1), <- (append_assoc d2), Hjoin.
    reflexivity.
  - unfold handle. rewrite H1, H2. unfold mbind. rewrite Hpw. reflexivity.
Qed.

Lemma handle_joins_domain_and_salt_witness :
  handle laptop {| domain := ["example.com"]; salt := "1"; device := false |}
    {| typed := ["secret"; "secret"]; printed := [] |}
  = handle laptop
      {| domain := ["example.co"]; salt := "m1"; device := false |}
      {| typed := ["secret"; "secret"]; printed := [] |}.
Proof.
  apply (handle_joins_domain_and_salt laptop
           {| domain := ["example.com"]; salt := "1"; device := false |}
           {| domain := ["example.co"]; salt := "m1"; device := false |}
           {| typed := ["secret"; "secret"]; printed := [] |}
           "example.com" "example.co" [] []);
    reflexivity.
Defined.

(** ** [pproc.py]: commands without quoting *)

Import Shlex Quoting.

Lemma lex_blank (s : string) :
  blank s = true ->
  forall acc, lex StSpace EmptyString false StSpace acc s = Ok (rev acc).
Proof.
  induction s as [|c s IH]; intros H acc; [reflexivity|].
  cbn [blank] in H. apply andb_true_iff in H. destruct H as [Hc Hs].
  cbn [lex]. rewrite Hc. cbn [emits negb String.eqb orb].
  apply IH. exact Hs.
Qed.

Lemma rev_not_nil {A : Type} (l : list A) : l <> [] -> rev l <> [].
Proof.
  destruct l as [|a l]; [congruence|]. intros _ H.
  apply (f_equal (@List.length A)) in H. cbn in H.
  rewrite length_app in H. cbn in H. lia.
Qed.

Lemma emits_append (token : string) (quoted : bool) (c : ascii) :
  emits (token ++ str1 c) quoted = true.
Proof. unfold emits. destruct token; reflexivity. Qed.

Lemma lex_holds_something (s : string) :
  forall state token quoted escapedstate acc,
    holds_something state token quoted escapedstate acc ->
    lex state token quoted escapedstate acc s <> Ok [].
Proof.
  induction s as [|c s IH]; intros state token quoted es acc H.
  - assert (Hend : (acc <> [] \/ emits token quoted = true) ->
                   match finish token quoted with
                   | Some t => Ok (rev (t :: acc))
                   | None => Ok (rev acc)
                   end <> Ok []).
    { intros [Ha | Hm].
      - destruct (finish token quoted) as [tk|]; intros E;
          inversion E as [E'];
          [apply (rev_not_nil (tk :: acc)) in E'; [|discriminate]
          |apply (rev_not_nil acc) in E'; [|exact Ha]]; contradiction.
      - rewrite (emits_finish _ _ Hm). intros E. inversion E as [E'].
        apply (rev_not_nil (token :: acc)) in E'; [contradiction|].
        discriminate. }
    cbn [lex]. destruct state; cbn [holds_something] in H;
      try contradiction; try discriminate; apply Hend; exact H.
  - cbn [lex]. destruct state; cbn [holds_something] in H;
      try contradiction.
    + (* StSpace *)
      destruct (char_in c whitespace).
      * destruct (emits token quoted) eqn:Em.
        -- rewrite (emits_finish _ _ Em). apply IH. cbn. left. discriminate.
        -- apply IH. cbn. destruct H as [H | H]; [left; exact H|].
           discriminate.
      * destruct (char_in c escape); [apply IH; cbn; discriminate|].
        destruct (char_in c quotes); [apply IH; exact I|].
        apply IH. cbn. right. reflexivity.
    + (* StWord *)
      destruct (char_in c whitespace).
      * destruct (emits token quoted) eqn:Em.
        -- rewrite (emits_finish _ _ Em). apply IH. cbn. left. discriminate.
        -- apply IH. cbn. destruct H as [H | H]; [left; exact H|].
           discriminate.
      * destruct (char_in c quotes); [apply IH; exact I|].
        destruct (char_in c escape); [apply IH; cbn; discriminate|].
        apply IH. cbn. right. apply emits_append.
    + (* StQuote *)
      destruct (Ascii.eqb c q).
      * apply IH. cbn. right. unfold emits. apply orb_true_r.
      * destruct (char_in c escape && char_in q escapedquotes);
          [apply IH; cbn; discriminate|apply IH; exact I].
    + (* StEscape *)
      destruct es; try contradiction; try congruence;
        apply IH; cbn; try exact I; try discriminate;
        right; apply emits_append.
Qed.

Lemma lex_not_blank (s : string) :
  blank s = false ->
  forall acc, lex StSpace EmptyString false StSpace acc s <> Ok [].
Proof.
  induction s as [|c s IH]; intros H acc; [discriminate|].
  cbn [blank] in H. cbn [lex].
  destruct (char_in c whitespace) eqn:Hc.
  - cbn [andb] in H. cbn [emits negb String.eqb orb]. apply IH. exact H.
  - destruct (char_in c escape);
      [apply lex_holds_something; cbn; discriminate|].
    destruct (char_in c quotes); [apply lex_holds_something; exact I|].
    apply lex_holds_something. cbn. right. reflexivity.
Qed.

Lemma split_blank (s : string) : split s = Ok [] <-> blank s = true.
Proof.
  split.
  - intros H. destruct (blank s) eqn:E; [reflexivity|].
    exfalso. exact (lex_not_blank s E [] H).
  - intros H. exact (lex_blank s H []).
Qed.

(** X15.  [tokenize] turns a command into an empty argument list
    exactly when the command is blank: empty, or whitespace only. *)
Theorem tokenize_empty_argv_iff_blank :
  forall (commands : list string) (argvs : list (list string)) (i : nat)
         (command : string),
    Pproc.tokenize commands = Ok argvs ->
    nth_error commands i = Some command ->
    (nth_error argvs i = Some [] <-> blank command = true).
Proof.
  intros commands argvs i command Htok Hi.
  destruct (tokenize_nth commands argvs Htok i command Hi)
    as [argv [Hargv Hsplit]].
  rewrite Hargv. split.
  - intros H. inversion H; subst. apply split_blank. exact Hsplit.
  - intros H. apply split_blank in H. congruence.
Qed.

Lemma tokenize_empty_argv_iff_blank_witness :
  nth_error [["echo"; "hello"]; []] 1 = Some []
  <-> blank (String " " (String (chr 9) EmptyString)) = true.
Proof.
  apply (tokenize_empty_argv_iff_blank
           ["echo hello"; String " " (String (chr 9) EmptyString)]
           [["echo"; "hello"]; []] 1
           (String " " (String (chr 9) EmptyString))).
  - reflexivity.
  - reflexivity.
Defined.

(** The list comprehension stops at an empty argument list, of which
    [Popen] cannot take the first element. *)
Lemma mapM_Popen_empty (w : os) (post : list (list string))
    (pre : list (list string)) :
  forall st,
    all_spawn w (List.length (heap st)) pre ->
    mapM (Popen w) (pre ++ [] :: post) st
    = (Raise (IndexError "list index out of range"),
       spawned (children_of w (List.length (heap st)) pre) st).
Proof.
  induction pre as [|argv rest IH]; intros st Hall.
  - cbn [app mapM children_of]. unfold mbind, Popen.
    rewrite spawned_nil. reflexivity.
  - destruct (all_spawn_head _ _ _ _ Hall) as [e1 [t1 [b [-> Hb]]]].
    cbn [app mapM children_of]. rewrite Hb.
    unfold mbind at 1. rewrite (Popen_spawns _ _ _ _ _ Hb).
    set (c := new_child w (List.length (heap st)) (e1 :: t1) b).
    assert (Hlen : List.length (heap (spawned [c] st))
                   = S (List.length (heap st))).
    { cbn. rewrite length_app. cbn. lia. }
    unfold mbind at 1.
    rewrite IH; rewrite Hlen.
    + rewrite spawned_cons. reflexivity.
    + eapply all_spawn_tail; eauto.
Qed.

Lemma nth_error_decompose {A : Type} (l : list A) (i : nat) (a : A) :
  nth_error l i = Some a -> l = (firstn i l ++ a :: skipn (S i) l)%list.
Proof.
  revert i. induction l as [|x l IH]; intros [|i] H; cbn in H;
    try discriminate.
  - inversion H. reflexivity.
  - cbn [firstn skipn app]. f_equal. apply IH. exact H.
Qed.

(** X16.  A blank command stops the run: the commands before it having
    been started, [Popen] raises IndexError on the empty argument list,
    no command after it is started, the loop is never entered, nothing
    is printed, and the main block exits with status 2 and the message
    of the IndexError. *)
Theorem execute_blank_command_raises :
  forall (w : os) (fuel : nat) (commands : list string) (timeout : seconds)
         (argvs : list (list string)) (i : nat) (command : string),
    Pproc.tokenize commands = Ok argvs ->
    nth_error commands i = Some command ->
    blank command = true ->
    all_spawn w 0 (firstn i argvs) ->
    let st := spawned (children_of w 0 (firstn i argvs)) init in
    execute w fuel commands false timeout init
      = (Raise (IndexError "list index out of range"), st)
    /\ Pproc.main w fuel commands false timeout
       = (Exit 2 (Some "list index out of range"), st)
    /\ List.length (heap st) = i
    /\ procs st = []
    /\ out st = [].
Proof.
  intros w fuel commands timeout argvs i command Htok Hi Hblank Hall st.
  destruct (tokenize_nth commands argvs Htok i command Hi)
    as [argv [Hargv Hsplit]].
  apply split_blank in Hblank.
  assert (argv = []) by congruence. subst argv.
  assert (Hdec := nth_error_decompose argvs i [] Hargv).
  assert (Hex : execute w fuel commands false timeout init
                = (Raise (IndexError "list index out of range"), st)).
  { unfold execute. unfold mbind at 1. unfold lift. rewrite Htok.
    unfold mbind at 1. rewrite Hdec at 1.
    rewrite (mapM_Popen_empty w (skipn (S i) argvs) (firstn i argvs) init
               Hall).
    reflexivity. }
  split; [exact Hex|].
  split; [unfold Pproc.main; rewrite Hex; reflexivity|].
  subst st. cbn [heap spawned init procs out app]. repeat split.
  rewrite <- (length_map args), (children_of_args w _ 0 Hall).
  apply firstn_length_le.
  apply Nat.lt_le_incl. apply nth_error_Some. congruence.
Qed.

Lemma execute_blank_command_witness :
  let st := spawned (children_of echo_os 0
                       (firstn 1 [["echo"; "one"]; []; ["echo"; "three"]]))
              init in
  execute echo_os 10 ["echo one"; "  "; "echo three"] false (Finite 100) init
    = (Raise (IndexError "list index out of range"), st)
  /\ Pproc.main echo_os 10 ["echo one"; "  "; "echo three"] false (Finite 100)
     = (Exit 2 (Some "list index out of range"), st)
  /\ List.length (heap st) = 1
  /\ procs st = []
  /\ out st = [].
Proof.
  apply (execute_blank_command_raises echo_os 10
           ["echo one"; "  "; "echo three"] (Finite 100)
           [["echo"; "one"]; []; ["echo"; "three"]] 1 "  ").
  - reflexivity.
  - reflexivity.
  - reflexivity.
  - intros [|i] argv Hi; cbn in Hi; inversion Hi; subst.
    + split; discriminate.
    + destruct i; discriminate.
Defined.

Lemma ordinary_chars (c : ascii) :
  ordinary c = true ->
  char_in c whitespace = false /\ char_in c quotes = false
  /\ char_in c escape = false.
Proof.
  unfold ordinary. intros H. apply negb_true_iff in H.
  apply orb_false_iff in H. destruct H as [H He].
  apply orb_false_iff in H. destruct H as [Hw Hq]. auto.
Qed.

(** Inside a word, ordinary characters are added to the token. *)
Lemma lex_word_chars (word : string) :
  all_ordinary word = true ->
  forall token quoted escapedstate acc rest,
    lex StWord token quoted escapedstate acc (word ++ rest)
    = lex StWord (token ++ word) quoted escapedstate acc rest.
Proof.
  induction word as [|c word IH]; intros H token quoted es acc rest.
  - rewrite append_nil_r. reflexivity.
  - cbn [all_ordinary] in H. apply andb_true_iff in H.
    destruct H as [Hc Hw].
    destruct (ordinary_chars c Hc) as [H1 [H2 H3]].
    change (String c word ++ rest) with (String c (word ++ rest)).
    cbn [lex]. rewrite H1, H2, H3. rewrite (IH Hw).
    rewrite append_assoc. reflexivity.
Qed.

(** A bare word is read from its first character to its last. *)
Lemma lex_bare_word (word : string) :
  bare_word word = true ->
  forall acc rest,
    lex StSpace EmptyString false StSpace acc (word ++ rest)
    = lex StWord word false StSpace acc rest.
Proof.
  unfold bare_word. intros H acc rest.
  destruct word as [|c word]; [discriminate|].
  cbn [String.eqb negb andb all_ordinary] in H.
  apply andb_true_iff in H. destruct H as [Hc Hw].
  destruct (ordinary_chars c Hc) as [H1 [H2 H3]].
  change (String c word ++ rest) with (String c (word ++ rest)).
  cbn [lex]. rewrite H1, H2, H3.
  rewrite (lex_word_chars word Hw). reflexivity.
Qed.

Lemma bare_word_emits (word : string) :
  bare_word word = true -> emits word false = true.
Proof.
  unfold bare_word, emits. intros H. apply andb_true_iff in H.
  destruct H as [H _]. rewrite H. reflexivity.
Qed.

Lemma lex_bare_words (words : list string) :
  Forall (fun word => bare_word word = true) words ->
  forall acc,
    lex StSpace EmptyString false StSpace acc (join " " words)
    = Ok (rev acc ++ words)%list.
Proof.
  induction words as [|word rest IH]; intros H acc.
  - cbn. rewrite app_nil_r. reflexivity.
  - inversion H as [|? ? Hword Hrest]; subst.
    assert (Hem := bare_word_emits word Hword).
    destruct rest as [|next rest].
    + cbn [join]. rewrite <- (append_nil_r word) at 1.
      rewrite (lex_bare_word word Hword). cbn [lex].
      rewrite (emits_finish _ _ Hem). reflexivity.
    + change (join " " (word :: next :: rest))
        with (word ++ String " " (join " " (next :: rest))).
      rewrite (lex_bare_word word Hword). cbn [lex].
      change (char_in " " whitespace) with true. cbn iota.
      rewrite Hem, (emits_finish _ _ Hem).
      rewrite (IH Hrest). cbn [rev]. rewrite <- app_assoc. reflexivity.
Qed.

(** X17.  Words typed without quoting come back as they are: a command
    made of bare words with one space between them is tokenized into
    those words, and a list of such commands into the list of their
    word lists. *)
Theorem tokenize_bare_words :
  forall argvs : list (list string),
    Forall (Forall (fun word => bare_word word = true)) argvs ->
    Pproc.tokenize (map (join " ") argvs) = Ok argvs.
Proof.
  intros argvs H. induction H as [|argv rest Hargv _ IH].
  - reflexivity.
  - cbn [map Pproc.tokenize]. unfold split.
    rewrite (lex_bare_words argv Hargv []). cbn [bind rev app].
    rewrite IH. reflexivity.
Qed.

Lemma tokenize_bare_words_witness :
  Pproc.tokenize
    (map (join " ") [["echo"; "hello"]; ["ls"; "-l"; "/tmp"]; []])
  = Ok [["echo"; "hello"]; ["ls"; "-l"; "/tmp"]; []].
Proof.
  apply (tokenize_bare_words [["echo"; "hello"]; ["ls"; "-l"; "/tmp"]; []]).
  repeat constructor.
Defined.

(** ** [pproc.py]: the exit status *)

Import Loop.



(** X23.  [execute] returns only after every child has terminated: in
    a run that has returned, every child has been seen terminated by
    then; so a run in which some child never terminates does not
    return, however long it is observed. *)
Theorem execute_returns_after_every_exit :
  forall (w : os) (fuel : nat) (commands : list string) (timeout : seconds)
         (argvs : list (list string)),
    Pproc.tokenize commands = Ok argvs ->
    all_spawn w 0 argvs ->
    let run := execute w fuel commands false timeout init in
    (fst run = Ok Returned ->
     forall c, In c (heap (snd run)) ->
       exists t, exit_at (beh c) = Some t /\ t <= clock (snd run))
    /\ ((exists c, In c (children_of w 0 argvs) /\ exit_at (beh c) = None) ->
        fst run <> Ok Returned).
Proof.
  intros w fuel commands timeout argvs Htok Hall run. subst run.
  assert (Hout := execute_loop_outcome w fuel commands timeout argvs Htok
                    Hall).
  destruct (execute w fuel commands false timeout init) as [r st] eqn:Hrun.
  cbn [fst snd]. split.
  - intros ->. destruct Hout as [A _]. intros c Hc.
    destruct (ident_beh (heap (started w argvs)) (heap st) c
                (adv_ident _ _ A) Hc) as [c0 [Hc0 Hb]].
    assert (Hex := execute_returned_exits w fuel commands timeout argvs st
                     Htok Hall Hrun c0 Hc0).
    rewrite Hb in Hex. unfold exited in Hex.
    destruct (exit_at (beh c)) as [t|]; [|discriminate].
    exists t. split; [reflexivity|]. apply Nat.leb_le. exact Hex.
  - intros [c [Hc Hnone]] ->.
    assert (Hex := execute_returned_exits w fuel commands timeout argvs st
                     Htok Hall Hrun c Hc).
    unfold exited in Hex. rewrite Hnone in Hex. discriminate.
Qed.

Lemma execute_returns_after_every_exit_witness :
  let run := execute echo_os 8 ["echo hello"; "printf abc"] false
               (Finite 100) init in
  fst run = Ok Returned
  /\ (forall c, In c (heap (snd run)) ->
        exists t, exit_at (beh c) = Some t /\ t <= clock (snd run)).
Proof.
  cbv zeta. split; [vm_compute; reflexivity|].
  apply (execute_returns_after_every_exit echo_os 8
           ["echo hello"; "printf abc"] (Finite 100)
           [["echo"; "hello"]; ["printf"; "abc"]]).
  - reflexivity.
  - intros [|[|i]] argv Hi; cbn in Hi; inversion Hi; subst;
      try (split; discriminate).
    destruct i; discriminate.
  - vm_compute. reflexivity.
Defined.

(** ** [pproc.py]: removing from the list the [for] loop walks *)

(** What the body of the [for] loop does to a child of the list. *)
Lemma for_body_cases (p : nat) (st : state) :
  Inv st -> In p (procs st) ->
  for_body p st = (Ok tt, tick (EvPoll p None) st)
  \/ (exists c, find_proc p (heap st) = Some c
                /\ exited (beh c) (clock st) = true
                /\ garbled (beh c) = None
                /\ for_body p st = (Ok tt, reaped p c st))
  \/ (exists c msg, find_proc p (heap st) = Some c
                    /\ exited (beh c) (clock st) = true
                    /\ garbled (beh c) = Some msg
                    /\ for_body p st
                       = (Raise (UnicodeDecodeError msg), polled p c st)).
Proof.
  intros HI Hin.
  destruct (inv_live _ HI p Hin) as [c [Hf [Hrc Hcl]]].
  destruct (exited (beh c) (clock st)) eqn:Hex.
  - destruct (garbled (beh c)) as [msg|] eqn:Hbad.
    + right. right. exists c, msg. repeat split; auto.
      apply for_body_garbled; assumption.
    + right. left. exists c. repeat split; auto.
      apply for_body_reaps; assumption.
  - left. apply (for_body_running p c); assumption.
Qed.

(** From the second position on, the loop leaves the head of the list
    where it is, and does not poll it. *)
Lemma for_loop_keeps_head (fuel : nat) :
  forall (i : nat) (st : state) (q : nat) (tl : list nat),
    Inv st -> procs st = q :: tl -> 1 <= i ->
    exists r st' new tl',
      for_loop fuel i st = (r, st')
      /\ trace st' = (trace st ++ new)%list
      /\ (forall rc, ~ In (EvPoll q rc) new)
      /\ procs st' = q :: tl'
      /\ (forall x, In x (procs st') -> In x (procs st))
      /\ (r = Ok tt \/ exists msg, r = Raise (UnicodeDecodeError msg))
      /\ (all_decode (heap st) -> r = Ok tt).
Proof.
  induction fuel as [|fuel IH]; intros i st q tl HI Hps Hi.
  - exists (Ok tt), st, [], tl. cbn [for_loop]. rewrite app_nil_r.
    split; [reflexivity|]. split; [reflexivity|].
    split; [intros rc []|]. split; [exact Hps|]. auto.
  - cbn [for_loop]. destruct (nth_error (procs st) i) as [p|] eqn:Hnth.
    + assert (Hin : In p (procs st)) by (eapply nth_error_In; eauto).
      assert (Hne : p <> q).
      { assert (Hnd := Inv_NoDup st HI). rewrite Hps in Hnd, Hnth.
        destruct i as [|i]; [lia|]. cbn in Hnth.
        apply nth_error_In in Hnth. inversion Hnd; subst.
        intros ->. contradiction. }
      unfold mbind at 1.
      destruct (for_body_cases p st HI Hin)
        as [-> | [[c [Hf [Hex [Hdec ->]]]] | [c [msg [Hf [Hex [Hbad ->]]]]]]].
      * destruct (IH (S i) (tick (EvPoll p None) st) q tl)
          as [r [st' [new [tl' [Hrun [Htr [Hnew [Hps' [Hsub [Hr Hok]]]]]]]]]];
          [apply Inv_poll_none; assumption|exact Hps|lia|].
        exists r, st', (EvPoll p None :: new), tl'.
        split; [exact Hrun|].
        split; [rewrite Htr; cbn [tick trace]; rewrite <- app_assoc;
                reflexivity|].
        split; [intros rc [H | H];
                [inversion H; congruence|exact (Hnew rc H)]|].
        split; [exact Hps'|]. split; [exact Hsub|]. split; [exact Hr|].
        exact Hok.
      * assert (Hps1 : procs (reaped p c st) = q :: list_remove p tl).
        { cbn [reaped procs]. rewrite Hps. cbn [list_remove].
          destruct (Nat.eqb_spec q p); [congruence|reflexivity]. }
        destruct (IH (S i) (reaped p c st) q (list_remove p tl))
          as [r [st' [new [tl' [Hrun [Htr [Hnew [Hps' [Hsub [Hr Hok]]]]]]]]]];
          [apply Inv_reaped; assumption|exact Hps1|lia|].
        exists r, st', (reap_events p c (procs st) ++ new)%list, tl'.
        split; [exact Hrun|].
        split; [rewrite Htr; cbn [reaped trace]; rewrite <- app_assoc;
                reflexivity|].
        split.
        { intros rc H. apply in_app_or in H. destruct H as [H | H];
            [|exact (Hnew rc H)].
          unfold reap_events in H. cbn [In] in H.
          destruct H as [H | [H | [H | [H | []]]]]; try discriminate.
          inversion H. congruence. }
        split; [exact Hps'|].
        split.
        { intros x Hx. apply Hsub in Hx. cbn [reaped procs] in Hx.
          eapply list_remove_In; eauto. }
        split; [exact Hr|].
        intros Hall. apply Hok.
        eapply all_decode_ident; [|exact Hall]. apply ident_drained.
      * exists (Raise (UnicodeDecodeError msg)), (polled p c st),
          [EvPoll p (Some (status (beh c)))], tl.
        split; [reflexivity|]. split; [reflexivity|].
        split; [intros rc [H | []]; inversion H; congruence|].
        split; [exact Hps|]. split; [auto|]. split; [right; eauto|].
        intros Hall. rewrite (Hall c (find_proc_In _ _ _ Hf)) in Hbad.
        discriminate.
    + exists (Ok tt), st, [], tl. rewrite app_nil_r.
      split; [reflexivity|]. split; [reflexivity|].
      split; [intros rc []|]. split; [exact Hps|]. auto.
Qed.

(** X19.  The [for] loop removes from the list it walks, so the child
    that follows a removed one is passed over: when the first child of
    [procs] is found terminated, read and removed, the second is not
    polled in that pass, whether it has terminated or not, and is still
    in [procs] when the pass ends, to be handed to [select].  The pass
    ends early only on the UnicodeDecodeError of a later child whose
    stream does not decode. *)
Theorem reap_skips_after_removal :
  forall (st : state) (p q : nat) (tl : list nat) (c : popen),
    Inv st ->
    procs st = p :: q :: tl ->
    find_proc p (heap st) = Some c ->
    exited (beh c) (clock st) = true ->
    garbled (beh c) = None ->
    exists r st' new tl',
      reap st = (r, st')
      /\ trace st' = (trace st ++ reap_events p c (procs st) ++ new)%list
      /\ (forall rc, ~ In (EvPoll q rc) new)
      /\ procs st' = q :: tl'
      /\ ~ In p (procs st')
      /\ (r = Ok tt \/ exists msg, r = Raise (UnicodeDecodeError msg))
      /\ (all_decode (heap st) -> r = Ok tt).
Proof.
  intros st p q tl c HI Hps Hf Hle Hdec.
  assert (Hin : In p (procs st)) by (rewrite Hps; left; reflexivity).
  destruct (inv_live _ HI p Hin) as [c' [Hf' [Hrc Hcl]]].
  assert (c' = c) by congruence. subst c'.
  assert (Hnd := Inv_NoDup st HI).
  assert (Hps1 : procs (reaped p c st) = q :: tl).
  { cbn [reaped procs]. rewrite Hps. cbn [list_remove].
    rewrite Nat.eqb_refl. reflexivity. }
  destruct (for_loop_keeps_head (List.length (q :: tl)) 1 (reaped p c st)
              q tl)
    as [r [st' [new [tl' [Hrun [Htr [Hnew [Hps' [Hsub [Hr Hok]]]]]]]]]];
    [apply Inv_reaped; assumption|exact Hps1|lia|].
  exists r, st', new, tl'.
  split.
  - unfold reap. rewrite Hps. cbn [List.length for_loop].
    rewrite Hps. cbn [nth_error]. unfold mbind at 1.
    rewrite (for_body_reaps p c st Hf Hrc Hcl Hle Hdec Hin).
    exact Hrun.
  - split; [rewrite Htr; cbn [reaped trace]; rewrite <- app_assoc;
            reflexivity|].
    split; [exact Hnew|]. split; [exact Hps'|].
    split.
    + intros Hp. apply Hsub in Hp. rewrite Hps1 in Hp.
      rewrite Hps in Hnd. inversion Hnd; subst. contradiction.
    + split; [exact Hr|]. intros Hall. apply Hok.
      eapply all_decode_ident; [|exact Hall]. apply ident_drained.
Qed.

Lemma reap_skips_after_removal_witness :
  exists r st' new tl',
    reap (started prompt_os [["echo"; "x"]; ["echo"; "y"]]) = (r, st')
    /\ trace st'
       = (trace (started prompt_os [["echo"; "x"]; ["echo"; "y"]])
          ++ reap_events 100
               (new_child prompt_os 0 ["echo"; "x"]
                  {| writes := "x" ++ str1 LF; garbled := None;
                     exit_at := Some 0; status := 0 |})
               (procs (started prompt_os [["echo"; "x"]; ["echo"; "y"]]))
          ++ new)%list
    /\ (forall rc, ~ In (EvPoll 101 rc) new)
    /\ procs st' = 101 :: tl'
    /\ ~ In 100 (procs st')
    /\ (r = Ok tt \/ exists msg, r = Raise (UnicodeDecodeError msg))
    /\ (all_decode (heap (started prompt_os [["echo"; "x"]; ["echo"; "y"]]))
        -> r = Ok tt).
Proof.
  apply (reap_skips_after_removal
           (started prompt_os [["echo"; "x"]; ["echo"; "y"]]) 100 101 []
           (new_child prompt_os 0 ["echo"; "x"]
              {| writes := "x" ++ str1 LF; garbled := None;
                 exit_at := Some 0; status := 0 |})).
  - apply started_Inv.
    intros [|[|i]] argv Hi; cbn in Hi; inversion Hi; subst;
      try (split; discriminate).
    destruct i; discriminate.
  - reflexivity.
  - reflexivity.
  - reflexivity.
  - reflexivity.
Defined.

(** ** [pproc.py]: children that write no carriage return *)




(** ** [pwgen.py]: the fifth failed attempt *)

Lemma repeat_snoc {A : Type} (a : A) (n : nat) :
  (repeat a n ++ [a])%list = a :: repeat a n.
Proof.
  induction n as [|n IH]; [reflexivity|]. cbn. rewrite IH. reflexivity.
Qed.

Lemma get_password_mismatches (m : machine) (rest : list string) :
  truthy (password_master (settings m)) = None ->
  forall (pairs : list (string * string)) (depth attempts : nat)
         (confirm : option string) (out : list string),
    truthy confirm = None ->
    attempts + List.length pairs = 5 ->
    1 <= List.length pairs <= depth ->
    Forall (fun pair => mismatch m (fst pair) (snd pair)) pairs ->
    get_password m depth attempts confirm
      {| typed := (typed_pairs pairs ++ rest)%list; printed := out |}
    = (Raise (ConsoleError attempt_maximum),
       {| typed := rest;
          printed := (out ++ repeat try_again (List.length pairs - 1))%list |}).
Proof.
  intros Hm. induction pairs as [|[first second] pairs IH];
    intros depth attempts confirm out Hc Hsum Hlen Hbad;
    cbn [List.length] in *; [lia|].
  destruct depth as [|depth]; [lia|].
  inversion Hbad as [|? ? Hfirst Hrest]; subst. cbn [fst snd] in Hfirst.
  unfold mismatch in Hfirst.
  cbn [get_password typed_pairs flat_map fst snd app].
  unfold mbind at 1. unfold getpass at 1. cbn [typed printed].
  rewrite Hc. unfold mbind at 1. unfold mbind at 1. unfold getpass at 1.
  cbn [typed printed]. unfold ret at 1. rewrite Hfirst. cbn [negb].
  destruct pairs as [|next pairs].
  - cbn [List.length] in *. assert (attempts = 4) by lia. subst attempts.
    cbn [Nat.leb flat_map app Nat.sub repeat]. unfold raise.
    rewrite app_nil_r. reflexivity.
  - cbn [List.length] in Hsum, Hlen.
    assert (Ha : (attempts <=? 3) = true) by (apply Nat.leb_le; lia).
    rewrite Ha. unfold mbind at 1. unfold print_line at 1.
    cbn [typed printed].
    assert (E := IH depth (attempts + 1) (password_master (settings m))
                   (out ++ [try_again])%list Hm).
    cbn [List.length] in E.
    etransitivity; [apply E; [lia|lia|exact Hrest]|].
    cbn [List.length Nat.sub]. rewrite Nat.sub_0_r.
    rewrite <- app_assoc. cbn [app repeat]. reflexivity.
Qed.

(** X21.  The fifth failed attempt is the last: on a machine without a
    stored master, five pairs of entries that do not confirm each other
    make [get_password] raise the ConsoleError of the attempt maximum,
    after ten prompts exactly and four warnings exactly; what is typed
    after them is not read. *)
Theorem get_password_attempt_maximum :
  forall (m : machine) (pairs : list (string * string))
         (rest out : list string),
    truthy (password_master (settings m)) = None ->
    List.length pairs = 5 ->
    Forall (fun pair => mismatch m (fst pair) (snd pair)) pairs ->
    get_password m recursion_limit 0 (password_master (settings m))
      {| typed := (typed_pairs pairs ++ rest)%list; printed := out |}
    = (Raise (ConsoleError attempt_maximum),
       {| typed := rest;
          printed := (out ++ repeat try_again 4)%list |}).
Proof.
  intros m pairs rest out Hm Hlen Hbad.
  rewrite (get_password_mismatches m rest Hm pairs recursion_limit 0
             (password_master (settings m)) out Hm);
    [rewrite Hlen; reflexivity|lia|unfold recursion_limit; lia|exact Hbad].
Qed.

Lemma get_password_attempt_maximum_witness :
  get_password laptop recursion_limit 0 (password_master (settings laptop))
    {| typed := (typed_pairs [("a", "b"); ("a", "b"); ("a", "b"); ("a", "b");
                              ("a", "b")]
                 ++ ["a"; "a"])%list;
       printed := [] |}
  = (Raise (ConsoleError attempt_maximum),
     {| typed := ["a"; "a"];
        printed := ([] ++ repeat try_again 4)%list |}).
Proof.
  apply (get_password_attempt_maximum laptop
           [("a", "b"); ("a", "b"); ("a", "b"); ("a", "b"); ("a", "b")]
           ["a"; "a"] []).
  - reflexivity.
  - reflexivity.
  - repeat constructor; vm_compute; reflexivity.
Defined.
